(** * Curve drawing (editcurve_paint.cc) and geometry transforms (transform.cc)

    A shallow embedding of the stroke capture / curve construction code of
    [source/blender/editors/curve/editcurve_paint.cc] and of the transform
    dispatch of [source/blender/geometry/intern/transform.cc].

    Numbers.  C [int] and [uint] values are integers of [Z]; the one
    conversion that wraps ([uint(mval_i[0])]) is written out.  C [float] and
    [double] values are modelled by the real numbers [R]: the arithmetic of
    the source is read as exact arithmetic, which is the reading under which
    the specification states its properties ("to floating-point tolerance").
    A [memcmp] of two float vectors is equality of the vectors.

    Code outside the two files (the view projection routines, the curve
    fitting library, the kernel's spline helpers) is collected in records of
    operations that the definitions take as a parameter. *)

From Stdlib Require Import Reals Lra Lia ZArith.
From stdpp Require Import base list.

Open Scope R_scope.

#[global] Instance R_eq_dec : EqDecision R := Req_dec_T.
#[global] Instance Rlt_decision : RelDecision Rlt := Rlt_dec.
#[global] Instance Rle_decision : RelDecision Rle := Rle_dec.
#[global] Instance Rgt_decision : RelDecision Rgt := Rgt_dec.
#[global] Instance Rge_decision : RelDecision Rge := Rge_dec.
#[global] Instance R_inhabited : Inhabited R := populate 0.

(** ** Vector and matrix helpers (BLI_math) *)

Module BLI.

Record float2 := Float2 { x2 : R; y2 : R }.
Record float3 := Float3 { x3 : R; y3 : R; z3 : R }.
Record float4 := Float4 { x4 : R; y4 : R; z4 : R; w4 : R }.

(** [float m[4][4]]: four columns, [m[c][r]] is row [r] of column [c]. *)
Record float4x4 := Float4x4 { col0 : float4; col1 : float4; col2 : float4; col3 : float4 }.

#[global] Instance float2_eq_dec : EqDecision float2.
Proof. solve_decision. Defined.
#[global] Instance float3_eq_dec : EqDecision float3.
Proof. solve_decision. Defined.
#[global] Instance float4_eq_dec : EqDecision float4.
Proof. solve_decision. Defined.
#[global] Instance float4x4_eq_dec : EqDecision float4x4.
Proof. solve_decision. Defined.

(** The vector routines below are declared in BLI_math_vector.h and
    BLI_math_matrix.h, which are not among the sources; each is the plain
    component formula its name and the specification's use of it give. *)

(** Modelled from the spec: [zero_v3] (BLI_math_vector), the zero vector of
    the "zero if unknown" normal. *)
Definition zero_v3 : float3 := Float3 0 0 0.

(** Modelled from the spec: [is_zero_v3] (BLI_math_vector), the test for the
    zero normal: all three components are zero. *)
Definition is_zero_v3 (v : float3) : bool :=
  bool_decide (x3 v = 0) && bool_decide (y3 v = 0) && bool_decide (z3 v = 0).

(** Modelled from the spec: [add_v3_v3] (BLI_math_vector), [r += a], the
    "world-space translation offset" added to a position. *)
Definition add_v3_v3 (r a : float3) : float3 :=
  Float3 (x3 r + x3 a) (y3 r + y3 a) (z3 r + z3 a).

(** Modelled from the spec: [madd_v3_v3fl] (BLI_math_vector), [r += a * f],
    the displacement "along the normal" by a factor. *)
Definition madd_v3_v3fl (r a : float3) (f : R) : float3 :=
  Float3 (x3 r + x3 a * f) (y3 r + y3 a * f) (z3 r + z3 a * f).

(** Modelled from the spec: [square_f] (BLI_math_base), the square of the
    "maximum pixel spacing". *)
Definition square_f (a : R) : R := a * a.

(** Modelled from the spec: [len_squared_v2v2] (BLI_math_vector), the
    "squaredScreenDistance" of two screen positions. *)
Definition len_squared_v2v2 (a b : float2) : R :=
  (x2 b - x2 a) * (x2 b - x2 a) + (y2 b - y2 a) * (y2 b - y2 a).

(** Modelled from the spec: [len_v3v3] (BLI_math_vector), the distance of two
    positions that the "cumulative 3D arc length" sums. *)
Definition len_v3v3 (a b : float3) : R :=
  sqrt ((x3 b - x3 a) * (x3 b - x3 a) + (y3 b - y3 a) * (y3 b - y3 a)
        + (z3 b - z3 a) * (z3 b - z3 a)).

(** Modelled from the spec: [interp_v2_v2v2] (BLI_math_vector), the "linear
    interpolation" between the first and the second argument:
    [r = (1 - t) * a + t * b]. *)
Definition interp_v2_v2v2 (a b : float2) (t : R) : float2 :=
  let s := 1 - t in
  Float2 (s * x2 a + t * x2 b) (s * y2 a + t * y2 b).

(** Modelled from the spec: [interp_v3_v3v3] (BLI_math_vector), as
    [interp_v2_v2v2] on three components. *)
Definition interp_v3_v3v3 (a b : float3) (t : R) : float3 :=
  let s := 1 - t in
  Float3 (s * x3 a + t * x3 b) (s * y3 a + t * y3 b) (s * z3 a + t * z3 b).

(** Modelled from the spec: [mul_v3_m4v3] (BLI_math_matrix), the point [v]
    through the transform [M], as in "world = objectTransform x local". *)
Definition mul_v3_m4v3 (M : float4x4) (v : float3) : float3 :=
  Float3
    (x3 v * x4 (col0 M) + y3 v * x4 (col1 M) + z3 v * x4 (col2 M) + x4 (col3 M))
    (x3 v * y4 (col0 M) + y3 v * y4 (col1 M) + z3 v * y4 (col2 M) + y4 (col3 M))
    (x3 v * z4 (col0 M) + y3 v * z4 (col1 M) + z3 v * z4 (col2 M) + z4 (col3 M)).

(** Modelled from the spec: [mul_transposed_mat3_m4_v3] (BLI_math_matrix),
    [v] through the transposed upper 3x3 block of [M], by which a normal "is
    transformed by the inverse-transpose". *)
Definition mul_transposed_mat3_m4_v3 (M : float4x4) (v : float3) : float3 :=
  Float3
    (x3 v * x4 (col0 M) + y3 v * y4 (col0 M) + z3 v * z4 (col0 M))
    (x3 v * x4 (col1 M) + y3 v * y4 (col1 M) + z3 v * z4 (col1 M))
    (x3 v * x4 (col2 M) + y3 v * y4 (col2 M) + z3 v * z4 (col2 M)).

(** [int(f)] for a float [f]: truncation towards zero. *)
Definition int_of_float (f : R) : Z :=
  if decide (0 <= f) then Zfloor f else Zceil f.

(** [uint(i)] for an int [i]: reduction modulo 2^32. *)
Definition uint_of_int (i : Z) : Z := (i mod 2 ^ 32)%Z.

End BLI.

(** ** editcurve_paint.cc *)

Module CurvePaint.
Import BLI.

(** Distance between input samples. *)
Definition STROKE_SAMPLE_DIST_MIN_PX : Z := 1.
Definition STROKE_SAMPLE_DIST_MAX_PX : Z := 3.

(** The spline types of [Nurb.type] and of the paint settings
    (DNA_curve_types.h), of which the file uses two. *)
Inductive CurveType := CU_POLY | CU_BEZIER.

#[global] Instance CurveType_eq_dec : EqDecision CurveType.
Proof. solve_decision. Defined.

(** [CurvePaintSettings.fit_method] (DNA_scene_types.h). *)
Inductive FitMethod := CURVE_PAINT_FIT_METHOD_REFIT | CURVE_PAINT_FIT_METHOD_SPLIT.

#[global] Instance FitMethod_eq_dec : EqDecision FitMethod.
Proof. solve_decision. Defined.

Record StrokeElem := {
  mval : float2;
  location_world : float3;
  location_local : float3;
  (* Surface normal, may be zeroed. *)
  normal_world : float3;
  normal_local : float3;
  pressure : R;
}.

(** A [StrokeElem] as [BLI_mempool_calloc] hands it out. *)
Definition stroke_elem_calloc : StrokeElem :=
  {| mval := Float2 0 0; location_world := zero_v3; location_local := zero_v3;
     normal_world := zero_v3; normal_local := zero_v3; pressure := 0 |}.

(** The fields of [ViewDepths] that the file reads; the depth samples
    themselves are read through [ED_view3d_depth_read_cached]. *)
Record ViewDepths := {
  depths_w : Z;
  depths_h : Z;
  depth_range : R * R;
}.

(** [cdd->project]. *)
Record Project := {
  use_plane : bool;
  plane : float4;
  use_depth : bool;
  use_offset : bool;
  offset : float3;
  surface_offset : R;
  use_surface_offset_absolute : bool;
}.

(** [cdd->radius]. *)
Record Radius := { radius_min : R; radius_max : R; radius_range : R }.

(** [cdd->prev]; [prev_selem] points at the last committed element of the
    pool, which is not written again while the stroke is captured, so the
    model keeps its value. *)
Record Prev := {
  prev_mval : float2;
  prev_location_world : float3;
  prev_location_world_valid : float3;
  prev_selem : option StrokeElem;
}.

(** The fields of [Curve] ([obedit->data]) that the file uses. *)
Record Curve := {
  cu_is_3d : bool;   (* cu->flag & CU_3D *)
  cu_resolu : Z;
  cu_resolv : Z;
  bevel_radius : R;
  actnu : Z;
  actvert : Z;
}.

(** [cdd->vc.obedit]. *)
Record Object := {
  object_to_world : float4x4;
  world_to_object : float4x4;   (* obedit->runtime->world_to_object *)
  data : Curve;
}.

Record CurveDrawData := {
  curve_type : CurveType;
  project : Project;
  sample_use_substeps : bool;
  radius : Radius;
  prev : Prev;
  obedit : Object;
  depths : option ViewDepths;
}.

Definition set_prev (cdd : CurveDrawData) (p : Prev) : CurveDrawData :=
  {| curve_type := curve_type cdd; project := project cdd;
     sample_use_substeps := sample_use_substeps cdd; radius := radius cdd;
     prev := p; obedit := obedit cdd; depths := depths cdd |}.

Definition set_obedit (cdd : CurveDrawData) (ob : Object) : CurveDrawData :=
  {| curve_type := curve_type cdd; project := project cdd;
     sample_use_substeps := sample_use_substeps cdd; radius := radius cdd;
     prev := prev cdd; obedit := ob; depths := depths cdd |}.

Definition set_world_to_object (ob : Object) (m : float4x4) : Object :=
  {| object_to_world := object_to_world ob; world_to_object := m; data := data ob |}.

Definition set_location_world_valid (p : Prev) (v : float3) : Prev :=
  {| prev_mval := prev_mval p; prev_location_world := prev_location_world p;
     prev_location_world_valid := v; prev_selem := prev_selem p |}.

Definition set_location_world (p : Prev) (v : float3) : Prev :=
  {| prev_mval := prev_mval p; prev_location_world := v;
     prev_location_world_valid := prev_location_world_valid p;
     prev_selem := prev_selem p |}.

Definition set_mval (p : Prev) (m : float2) : Prev :=
  {| prev_mval := m; prev_location_world := prev_location_world p;
     prev_location_world_valid := prev_location_world_valid p;
     prev_selem := prev_selem p |}.

Definition set_selem (p : Prev) (s : option StrokeElem) : Prev :=
  {| prev_mval := prev_mval p; prev_location_world := prev_location_world p;
     prev_location_world_valid := prev_location_world_valid p;
     prev_selem := s |}.

(** Routines of the view and math libraries that the stroke code calls.
    The region and the 3D view are those of the drawing session and are not
    passed.  A routine that fills an output buffer and returns a flag gives
    back the flag and the buffer; its last argument is the buffer as it was. *)
Record ViewOps := {
  ED_view3d_win_to_3d_on_plane : float4 -> float2 -> float3 -> bool * float3;
  (* [ED_view3d_depth_read_cached(depths, mval, margin, &depth)]: the value
     of [depth] afterwards, from its value before. *)
  ED_view3d_depth_read_cached : ViewDepths -> Z * Z -> Z -> R -> R;
  ED_view3d_depth_unproject_v3 : Z * Z -> R -> float3 -> bool * float3;
  ED_view3d_depth_read_cached_normal : ViewDepths -> Z * Z -> option float3;
  ED_view3d_win_to_3d : float3 -> float2 -> float3;
  invert_m4_m4 : float4x4 -> float4x4;
  normalize_v3 : float3 -> float3;
  interpf : R -> R -> R -> R;
}.

Section Stroke.
Context (ops : ViewOps).

Definition stroke_elem_radius_from_pressure (cdd : CurveDrawData) (pressure : R) : R :=
  let cu := data (obedit cdd) in
  ((pressure * radius_range (radius cdd)) + radius_min (radius cdd)) * bevel_radius cu.

Definition stroke_elem_radius (cdd : CurveDrawData) (selem : StrokeElem) : R :=
  stroke_elem_radius_from_pressure cdd (pressure selem).

Definition stroke_elem_pressure_set (cdd : CurveDrawData) (selem : StrokeElem)
    (pressure' : R) : StrokeElem :=
  if bool_decide (surface_offset (project cdd) <> 0)
     && negb (use_surface_offset_absolute (project cdd))
     && negb (is_zero_v3 (normal_local selem))
  then
    let adjust := stroke_elem_radius_from_pressure cdd pressure'
                  - stroke_elem_radius_from_pressure cdd (pressure selem) in
    let location_local' := madd_v3_v3fl (location_local selem) (normal_local selem) adjust in
    {| mval := mval selem;
       location_world := mul_v3_m4v3 (object_to_world (obedit cdd)) location_local';
       location_local := location_local';
       normal_world := normal_world selem;
       normal_local := normal_local selem;
       pressure := pressure' |}
  else
    {| mval := mval selem;
       location_world := location_world selem;
       location_local := location_local selem;
       normal_world := normal_world selem;
       normal_local := normal_local selem;
       pressure := pressure' |}.

(** [selem_out] keeps its normals; the other fields are overwritten. *)
Definition stroke_elem_interp (selem_out selem_a selem_b : StrokeElem) (t : R) : StrokeElem :=
  {| mval := interp_v2_v2v2 (mval selem_a) (mval selem_b) t;
     location_world := interp_v3_v3v3 (location_world selem_a) (location_world selem_b) t;
     location_local := interp_v3_v3v3 (location_local selem_a) (location_local selem_b) t;
     normal_world := normal_world selem_out;
     normal_local := normal_local selem_out;
     pressure := interpf ops (pressure selem_a) (pressure selem_b) t |}.

(** Sets the depth from [StrokeElem.mval].  [r_normal_world] may be a null
    pointer ([None]); the result carries the flag and both output buffers. *)
Definition stroke_elem_project (cdd : CurveDrawData) (mval_i : Z * Z) (mval_fl : float2)
    (surface_offset radius : R) (r_location_world : float3)
    (r_normal_world : option float3) : bool * float3 * option float3 :=
  let '(is_location_world_set, loc, nor) :=
    (* project to 'location_world' *)
    if use_plane (project cdd) then
      (* get the view vector to 'location' *)
      let '(ok, loc) :=
        ED_view3d_win_to_3d_on_plane ops (plane (project cdd)) mval_fl r_location_world in
      if ok then (true, loc, (fun _ => zero_v3) <$> r_normal_world)
      else (false, loc, r_normal_world)
    else
      match depths cdd with
      | Some d =>
        if bool_decide (uint_of_int (fst mval_i) < depths_w d)%Z
           && bool_decide (uint_of_int (snd mval_i) < depths_h d)%Z
        then
          let depth_fl := ED_view3d_depth_read_cached ops d mval_i 0 1 in
          let depth := depth_fl in
          if bool_decide (depth > fst (depth_range d))
             && bool_decide (depth < snd (depth_range d))
          then
            let '(ok, loc) := ED_view3d_depth_unproject_v3 ops mval_i depth r_location_world in
            if ok then
              let nor := (fun _ => zero_v3) <$> r_normal_world in
              if bool_decide (surface_offset <> 0) then
                let offset := if use_surface_offset_absolute (project cdd) then 1 else radius in
                match ED_view3d_depth_read_cached_normal ops d mval_i with
                | Some normal =>
                  (true, madd_v3_v3fl loc normal (offset * surface_offset),
                   (fun _ => normal) <$> nor)
                | None => (true, loc, nor)
                end
              else (true, loc, nor)
            else (false, loc, r_normal_world)
          else (false, r_location_world, r_normal_world)
        else (false, r_location_world, r_normal_world)
      | None => (false, r_location_world, r_normal_world)
      end
  in
  let loc :=
    if is_location_world_set && use_offset (project cdd)
    then add_v3_v3 loc (offset (project cdd)) else loc in
  (is_location_world_set, loc, nor).

(** The outputs: the flag, then [r_location_world], [r_location_local],
    [r_normal_world], [r_normal_local]. *)
Definition stroke_elem_project_fallback (cdd : CurveDrawData) (mval_i : Z * Z)
    (mval_fl : float2) (surface_offset radius : R) (location_fallback_depth : float3)
    (r_location_world r_location_local r_normal_world r_normal_local : float3)
    : bool * float3 * float3 * float3 * float3 :=
  let '(is_depth_found, loc_world, nor) :=
    stroke_elem_project cdd mval_i mval_fl surface_offset radius
      r_location_world (Some r_normal_world) in
  let nor_world := default r_normal_world nor in
  let loc_world :=
    if is_depth_found then loc_world
    else ED_view3d_win_to_3d ops location_fallback_depth mval_fl in
  let loc_local := mul_v3_m4v3 (world_to_object (obedit cdd)) loc_world in
  let nor_local :=
    if negb (is_zero_v3 nor_world)
    then normalize_v3 ops (mul_transposed_mat3_m4_v3 (object_to_world (obedit cdd)) nor_world)
    else zero_v3 in
  (is_depth_found, loc_world, loc_local, nor_world, nor_local).

(** [StrokeElem.mval] and [StrokeElem.pressure] must be set first. *)
Definition stroke_elem_project_fallback_elem (cdd : CurveDrawData)
    (location_fallback_depth : float3) (selem : StrokeElem) : bool * StrokeElem :=
  let mval_i := (int_of_float (x2 (mval selem)), int_of_float (y2 (mval selem))) in
  let radius := stroke_elem_radius cdd selem in
  let '(is_depth_found, loc_world, loc_local, nor_world, nor_local) :=
    stroke_elem_project_fallback cdd mval_i (mval selem)
      (surface_offset (project cdd)) radius location_fallback_depth
      (location_world selem) (location_local selem)
      (normal_world selem) (normal_local selem) in
  (is_depth_found,
   {| mval := mval selem; location_world := loc_world; location_local := loc_local;
      normal_world := nor_world; normal_local := nor_local;
      pressure := pressure selem |}).

(** *** Stroke capture *)

(** The fields of [wmEvent] that [curve_draw_event_add] reads. *)
Record wmEvent := { event_mval : Z * Z; tablet_pressure : R }.

(** One turn of the substep loop of [curve_draw_event_add], for the loop
    index [i].  The state is the session data, the substeps finished so far
    (in pool order) and the contents of the element [selem_new_last] points
    at. *)
Definition curve_draw_event_add_substep (is_depth_found : bool)
    (selem_prev selem_target : StrokeElem) (n : Z)
    (st : CurveDrawData * list StrokeElem * StrokeElem) (i : Z)
    : CurveDrawData * list StrokeElem * StrokeElem :=
  let '(cdd, substeps, selem_new_last) := st in
  let selem_new := stroke_elem_interp selem_new_last selem_prev selem_target (IZR i / IZR n) in
  let '(is_depth_found_substep, selem_new) :=
    stroke_elem_project_fallback_elem cdd (prev_location_world_valid (prev cdd)) selem_new in
  let cdd :=
    if negb is_depth_found && is_depth_found_substep
    then set_prev cdd (set_location_world_valid (prev cdd) (location_world selem_new))
    else cdd in
  (cdd, substeps ++ [selem_new], stroke_elem_calloc).

(** [for (int i = 1; i < n; i++)]. *)
Definition curve_draw_event_add_substeps (is_depth_found : bool)
    (selem_prev selem_target : StrokeElem) (n : Z) (cdd : CurveDrawData)
    (selem : StrokeElem) : CurveDrawData * list StrokeElem * StrokeElem :=
  fold_left (curve_draw_event_add_substep is_depth_found selem_prev selem_target n)
    (seqZ 1 (n - 1)) (cdd, [], selem).

(** The pool is the list of its elements in allocation order, which is the
    order its iterator walks them in; nothing is freed during a stroke. *)
Definition curve_draw_event_add (cdd : CurveDrawData) (pool : list StrokeElem)
    (event : wmEvent) : CurveDrawData * list StrokeElem :=
  let cdd :=
    set_obedit cdd
      (set_world_to_object (obedit cdd) (invert_m4_m4 ops (object_to_world (obedit cdd)))) in
  let selem :=
    {| mval := Float2 (IZR (fst (event_mval event))) (IZR (snd (event_mval event)));
       location_world := zero_v3; location_local := zero_v3;
       normal_world := zero_v3; normal_local := zero_v3;
       (* handle pressure sensitivity (which is supplied by tablets or otherwise 1.0) *)
       pressure := tablet_pressure event |} in
  let '(is_depth_found, selem) :=
    stroke_elem_project_fallback_elem cdd (prev_location_world_valid (prev cdd)) selem in
  let cdd :=
    if is_depth_found
    then (* use the depth if a fallback wasn't used *)
      set_prev cdd (set_location_world_valid (prev cdd) (location_world selem))
    else cdd in
  let cdd := set_prev cdd (set_location_world (prev cdd) (location_world selem)) in
  let len_sq := len_squared_v2v2 (prev_mval (prev cdd)) (mval selem) in
  let cdd := set_prev cdd (set_mval (prev cdd) (mval selem)) in
  let '(cdd, elems) :=
    match sample_use_substeps cdd, prev_selem (prev cdd) with
    | true, Some selem_prev =>
      let selem_target := selem in
      let '(cdd, substeps, _) :=
        if bool_decide (len_sq >= square_f (IZR STROKE_SAMPLE_DIST_MAX_PX)) then
          let n := (Zceil (sqrt len_sq) `quot` STROKE_SAMPLE_DIST_MAX_PX)%Z in
          curve_draw_event_add_substeps is_depth_found selem_prev selem_target n cdd selem
        else (cdd, [], selem) in
      (cdd, substeps ++ [selem_target])
    | _, _ => (cdd, [selem])
    end in
  (set_prev cdd (set_selem (prev cdd) (Some selem)), pool ++ elems).

(** [curve_draw_stroke_from_operator_elem]: an element of the operator's
    "stroke" collection (mouse, location, pressure) read back into the pool. *)
Definition curve_draw_stroke_from_operator_elem (cdd : CurveDrawData)
    (item : float2 * float3 * R) : StrokeElem :=
  let '(mouse, location, item_pressure) := item in
  {| mval := mouse; location_world := location;
     location_local := mul_v3_m4v3 (world_to_object (obedit cdd)) location;
     normal_world := zero_v3; normal_local := zero_v3;
     pressure := item_pressure |}.

Definition curve_draw_stroke_from_operator (cdd : CurveDrawData)
    (stroke : list (float2 * float3 * R)) : list StrokeElem :=
  curve_draw_stroke_from_operator_elem cdd <$> stroke.

(** *** Taper (the last block of [curve_draw_exec_precalc]) *)

(** The fields of [CurvePaintSettings] that the file reads; the bits of
    [cps->flag] that it tests are booleans. *)
Record CurvePaintSettings := {
  cps_curve_type : CurveType;
  cps_radius_min : R;
  cps_radius_max : R;
  cps_surface_offset : R;
  cps_flag_pressure_radius : bool;          (* CURVE_PAINT_FLAG_PRESSURE_RADIUS *)
  cps_flag_depth_stroke_offset_abs : bool;  (* CURVE_PAINT_FLAG_DEPTH_STROKE_OFFSET_ABS *)
  radius_taper_start : R;
  radius_taper_end : R;
}.

(** The loop that fills [lengths[1..]]: [selem_prev] is the element before
    [rest], [len_3d] the length accumulated up to it.  The result is the
    rest of the array and the final [len_3d]. *)
Fixpoint stroke_lengths_from (selem_prev : StrokeElem) (len_3d : R)
    (rest : list StrokeElem) : list R * R :=
  match rest with
  | [] => ([], len_3d)
  | selem :: rest' =>
    let len_3d_segment := len_v3v3 (location_local selem) (location_local selem_prev) in
    let len_3d := len_3d + len_3d_segment in
    let '(lengths, total) := stroke_lengths_from selem len_3d rest' in
    (len_3d :: lengths, total)
  end.

(** [lengths] and the final [len_3d]. *)
Definition stroke_lengths (pool : list StrokeElem) : list R * R :=
  match pool with
  | [] => ([0], 0)
  | selem_first :: rest =>
    let '(lengths, total) := stroke_lengths_from selem_first 0 rest in
    (0 :: lengths, total)
  end.

(** [stroke_elem_pressure_set(cdd, selem_array[i], pressure_new)] on the
    pool, [pressure_new] computed from the element's pressure by [f]. *)
Definition taper_elem (cdd : CurveDrawData) (f : R -> R) (i : nat)
    (pool : list StrokeElem) : list StrokeElem :=
  match pool !! i with
  | Some selem => <[i := stroke_elem_pressure_set cdd selem (f (pressure selem))]> pool
  | None => pool
  end.

(** [for (i = 0; i < stroke_len && lengths[i] < len_taper_max; i++)], at
    most [fuel] turns from index [i]. *)
Fixpoint taper_start_loop (cdd : CurveDrawData) (lengths : list R) (len_taper_max : R)
    (stroke_len : nat) (fuel i : nat) (pool : list StrokeElem) : list StrokeElem :=
  match fuel with
  | O => pool
  | S fuel' =>
    if bool_decide (i < stroke_len)%nat && bool_decide (lengths !!! i < len_taper_max) then
      taper_start_loop cdd lengths len_taper_max stroke_len fuel' (S i)
        (taper_elem cdd (fun p => p * ((lengths !!! i) / len_taper_max)) i pool)
    else pool
  end.

(** [for (i = stroke_len - 1; i > 0 && lengths[i] > len_taper_min; i--)],
    from index [i]. *)
Fixpoint taper_end_loop (cdd : CurveDrawData) (lengths : list R)
    (len_3d len_taper_max len_taper_min : R) (i : nat) (pool : list StrokeElem)
    : list StrokeElem :=
  match i with
  | O => pool
  | S i' =>
    if bool_decide (lengths !!! i > len_taper_min) then
      taper_end_loop cdd lengths len_3d len_taper_max len_taper_min i'
        (taper_elem cdd (fun p => p * ((len_3d - lengths !!! i) / len_taper_max)) i pool)
    else pool
  end.

Definition curve_draw_exec_precalc_taper (cdd : CurveDrawData) (cps : CurvePaintSettings)
    (pool : list StrokeElem) : list StrokeElem :=
  if bool_decide (radius_taper_start cps <> 0) || bool_decide (radius_taper_end cps <> 0) then
    let stroke_len := length pool in
    let '(lengths, len_3d) := stroke_lengths pool in
    let pool :=
      if bool_decide (radius_taper_start cps <> 0) then
        let len_taper_max := radius_taper_start cps * len_3d in
        taper_start_loop cdd lengths len_taper_max stroke_len stroke_len 0%nat pool
      else pool in
    let pool :=
      if bool_decide (radius_taper_end cps <> 0) then
        let len_taper_max := radius_taper_end cps * len_3d in
        let len_taper_min := len_3d - len_taper_max in
        taper_end_loop cdd lengths len_3d len_taper_max len_taper_min (stroke_len - 1) pool
      else pool in
    pool
  else pool.

End Stroke.

(** *** Curve construction ([curve_draw_exec]) *)

(** Modelled from the spec: [SELECT] (DNA_curve_types.h, not among the
    sources), the value of the "selected-flag" of a point. *)
Definition SELECT : Z := 1.

(** [eBezTriple_Handle]; a zeroed [BezTriple] has [HD_FREE]. *)
Inductive eBezTriple_Handle := HD_FREE | HD_AUTO | HD_VECT | HD_ALIGN.

Record BezTriple := {
  vec0 : float3; vec1 : float3; vec2 : float3;
  bezt_radius : R;
  h1 : eBezTriple_Handle; h2 : eBezTriple_Handle;
  f1 : Z; f2 : Z; f3 : Z;
}.

Record BPoint := { bp_vec : float4; bp_radius : R; bp_f1 : Z }.

(** The fields of [Nurb] that [curve_draw_exec] writes.  The bits [CU_SMOOTH]
    of [flag] and [CU_NURB_CYCLIC] of [flagu] are booleans; an array that
    was not allocated is [None].  The type of a zeroed [Nurb] is the first
    of the enumeration; both branches of [curve_draw_exec] overwrite it. *)
Record Nurb := {
  nu_type : CurveType;
  pntsu : Z; pntsv : Z;
  resolu : Z; resolv : Z;
  orderu : Z; orderv : Z;
  flag_smooth : bool;
  flagu_cyclic : bool;
  bezt : option (list BezTriple);
  bp : option (list BPoint);
  knotsu : option (list R);
}.

(** [calc_flag]: the bits [CURVE_FIT_CALC_HIGH_QUALIY] and
    [CURVE_FIT_CALC_CYCLIC]. *)
Record CalcFlag := { calc_high_quality : bool; calc_cyclic : bool }.

(** What a fit call leaves behind: its return value, [cubic_spline] as
    [cubic_spline_len] knots of three [dims]-vectors (left handle, point,
    right handle), and [corners_index] ([None] for a null pointer). *)
Record FitResult := {
  fit_result : Z;
  cubic_spline : list (list R * list R * list R);
  corners_index : option (list nat);
}.

(** The curve fitting library (curve_fit_nd.h) and the spline routines of
    the kernel and the editor that [curve_draw_exec] calls. *)
Record CurveOps := {
  (* coords, stroke_len, dims, radius_min, radius_max, samples_max, corner_angle *)
  curve_fit_corners_detect_fl :
    list (list R) -> Z -> Z -> R -> R -> Z -> R -> option (list nat);
  (* coords, stroke_len, dims, error_threshold, calc_flag, corner_angle *)
  curve_fit_cubic_to_points_refit_fl :
    list (list R) -> Z -> Z -> R -> CalcFlag -> R -> FitResult;
  (* coords, stroke_len, dims, error_threshold, calc_flag, corners *)
  curve_fit_cubic_to_points_fl :
    list (list R) -> Z -> Z -> R -> CalcFlag -> option (list nat) -> FitResult;
  BKE_nurb_handles_calc : Nurb -> Nurb;
  (* the knot array [BKE_nurb_knot_calc_u] stores in [nu->knotsu] *)
  BKE_nurb_knot_calc_u : Nurb -> option (list R);
  (* [ED_curve_deselect_all_multi], on one spline *)
  ED_curve_deselect_all : Nurb -> Nurb;
}.

(** The operator's properties. *)
Record DrawProps := {
  fit_method : FitMethod;
  error_threshold : R;
  corner_angle : R;
  use_cyclic : bool;
  stroke : list (float2 * float3 * R);
}.

Inductive wmOperatorStatus := OPERATOR_CANCELLED | OPERATOR_FINISHED.

(** [curve_draw_init]: the zeroed session data with the settings copied in,
    or [None] where it reports an error and returns false.  [viewport] says
    whether the 3D viewport could be reached (the invoke case). *)
Definition curve_draw_init (viewport : bool) (cps : CurvePaintSettings) (ob : Object)
    (op : DrawProps) (is_invoke : bool) : option CurveDrawData :=
  let cdd :=
    {| curve_type := cps_curve_type cps;
       project :=
         {| use_plane := false; plane := Float4 0 0 0 0; use_depth := false;
            use_offset := false; offset := zero_v3;
            surface_offset := cps_surface_offset cps;
            use_surface_offset_absolute := cps_flag_depth_stroke_offset_abs cps |};
       sample_use_substeps := false;
       radius :=
         {| radius_min := cps_radius_min cps; radius_max := cps_radius_max cps;
            radius_range := cps_radius_max cps - cps_radius_min cps |};
       prev :=
         {| prev_mval := Float2 0 0; prev_location_world := zero_v3;
            prev_location_world_valid := zero_v3; prev_selem := None |};
       obedit := ob;
       depths := None |} in
  if is_invoke then (if viewport then Some cdd else None)
  else
    (* Using an empty stroke complicates logic later,
       it's simplest to disallow early on (see: #94085). *)
    match stroke op with
    | [] => None
    | _ :: _ => Some cdd
    end.

Section Exec.
Context (ops : ViewOps) (cops : CurveOps).

Definition nurb_calloc : Nurb :=
  {| nu_type := CU_POLY; pntsu := 0; pntsv := 0; resolu := 0; resolv := 0;
     orderu := 0; orderv := 0; flag_smooth := false; flagu_cyclic := false;
     bezt := None; bp := None; knotsu := None |}.

(** One row of [coords]: the local position and, when the radius channel is
    present, the pressure. *)
Definition stroke_coords_row (use_pressure_radius : bool) (selem : StrokeElem) : list R :=
  [x3 (location_local selem); y3 (location_local selem); z3 (location_local selem)]
  ++ (if use_pressure_radius then [pressure selem] else []).

(** One turn of the loop that fills [coords].  The state is the rows before
    [co] and [stroke_len].  The row is written at [co]; when it compares
    equal to the row before it, [co] steps back and [stroke_len] drops, so
    that the next row overwrites it. *)
Definition remove_doubles_step {A : Type} `{EqDecision A}
    (st : list A * Z) (row : A) : list A * Z :=
  let '(coords, stroke_len) := st in
  match last coords with
  | Some row_prev =>
    if bool_decide (row = row_prev) then (coords, (stroke_len - 1)%Z)
    else (coords ++ [row], stroke_len)
  | None => (coords ++ [row], stroke_len)
  end.

Definition remove_doubles {A : Type} `{EqDecision A}
    (rows : list A) (stroke_len : Z) : list A * Z :=
  fold_left remove_doubles_step rows ([], stroke_len).

(** The first [stroke_len] rows of [coords] and [stroke_len], after the
    loop. *)
Definition stroke_coords (use_pressure_radius : bool) (pool : list StrokeElem)
    (stroke_len : Z) : list (list R) * Z :=
  remove_doubles (stroke_coords_row use_pressure_radius <$> pool) stroke_len.

Definition v3_of_row (co : list R) : float3 := Float3 (co !!! 0%nat) (co !!! 1%nat) (co !!! 2%nat).

(** The body of the loop over [cubic_spline]. *)
Definition bezt_of_knot (cdd : CurveDrawData) (coords_indices_radius : option nat)
    (radius_max : R) (knot : list R * list R * list R) : BezTriple :=
  let '(handle_l, pt, handle_r) := knot in
  {| vec0 := v3_of_row handle_l;
     vec1 := v3_of_row pt;
     vec2 := v3_of_row handle_r;
     bezt_radius :=
       match coords_indices_radius with
       | Some k => ((pt !!! k) * radius_range (radius cdd)) + radius_min (radius cdd)
       | None => radius_max
       end;
     (* will set to free in second pass *)
     h1 := HD_ALIGN; h2 := HD_ALIGN;
     f1 := SELECT; f2 := SELECT; f3 := SELECT |}.

Definition bezt_set_free (b : BezTriple) : BezTriple :=
  {| vec0 := vec0 b; vec1 := vec1 b; vec2 := vec2 b; bezt_radius := bezt_radius b;
     h1 := HD_FREE; h2 := HD_FREE; f1 := f1 b; f2 := f2 b; f3 := f3 b |}.

(** The bounds [i_start], [i_end] of the second pass. *)
Definition corner_range (corners_index_len : nat) (calc_flag : CalcFlag) : nat * nat :=
  (* ignore the first and last *)
  if bool_decide (2 <= corners_index_len)%nat && negb (calc_cyclic calc_flag)
  then (1, corners_index_len - 1)%nat
  else (0, corners_index_len)%nat.

(** [for (uint i = i_start; i < i_end; i++)]: the point [corners_index[i]]
    gets free handles.  An index outside the array, which the source does
    not guard against, changes nothing here. *)
Definition bezt_free_corners (corners_index : list nat) (i_start i_end : nat)
    (bezt : list BezTriple) : list BezTriple :=
  fold_left
    (fun bezt i =>
       match corners_index !! i with
       | Some k => alter bezt_set_free k bezt
       | None => bezt
       end)
    (seq i_start (i_end - i_start)) bezt.

(** The block run when the fit returns zero. *)
Definition curve_draw_exec_fit_to_nurb (cdd : CurveDrawData)
    (coords_indices_radius : option nat) (radius_max : R) (calc_flag : CalcFlag)
    (fit : FitResult) (nu : Nurb) : Nurb :=
  let bezt := bezt_of_knot cdd coords_indices_radius radius_max <$> cubic_spline fit in
  let bezt :=
    match corners_index fit with
    | Some corners =>
      let '(i_start, i_end) := corner_range (length corners) calc_flag in
      bezt_free_corners corners i_start i_end bezt
    | None => bezt
    end in
  {| nu_type := nu_type nu;
     pntsu := Z.of_nat (length (cubic_spline fit)); pntsv := pntsv nu;
     resolu := resolu nu; resolv := resolv nu; orderu := orderu nu; orderv := orderv nu;
     flag_smooth := flag_smooth nu;
     flagu_cyclic := if calc_cyclic calc_flag then true else flagu_cyclic nu;
     bezt := Some bezt; bp := bp nu; knotsu := knotsu nu |}.

(** The fit of the Bezier branch: [calc_flag] and what the fit call leaves
    behind, from the pool and the initial [stroke_len]. *)
Definition curve_draw_exec_fit (op : DrawProps) (use_pressure_radius : bool)
    (pool : list StrokeElem) (stroke_len : Z) : CalcFlag * FitResult :=
  (* Allow to interpolate multiple channels *)
  let dims := if use_pressure_radius then 4%Z else 3%Z in
  let '(coords, stroke_len) := stroke_coords use_pressure_radius pool stroke_len in
  let corners :=
    if bool_decide (fit_method op = CURVE_PAINT_FIT_METHOD_SPLIT)
       && bool_decide (corner_angle op < PI)
    then
      (* this could be configurable... *)
      let corner_radius_min := error_threshold op / 8 in
      let corner_radius_max := error_threshold op * 2 in
      let samples_max := 16%Z in
      curve_fit_corners_detect_fl cops coords stroke_len dims
        corner_radius_min corner_radius_max samples_max (corner_angle op)
    else None in
  let calc_flag :=
    {| calc_high_quality := true;
       calc_cyclic := bool_decide (stroke_len > 2)%Z && use_cyclic op |} in
  let fit :=
    if bool_decide (fit_method op = CURVE_PAINT_FIT_METHOD_REFIT) then
      curve_fit_cubic_to_points_refit_fl cops coords stroke_len dims
        (error_threshold op) calc_flag (corner_angle op)
    else
      curve_fit_cubic_to_points_fl cops coords stroke_len dims
        (error_threshold op) calc_flag corners in
  (calc_flag, fit).

(** The Bezier branch up to, and not including, [BKE_nurb_handles_calc]. *)
Definition curve_draw_exec_bezier (cdd : CurveDrawData) (op : DrawProps)
    (use_pressure_radius : bool) (radius_max : R) (pool : list StrokeElem)
    (stroke_len : Z) (nu : Nurb) : Nurb :=
  let nu :=
    {| nu_type := CU_BEZIER; pntsu := pntsu nu; pntsv := pntsv nu;
       resolu := resolu nu; resolv := resolv nu; orderu := orderu nu; orderv := orderv nu;
       flag_smooth := flag_smooth nu; flagu_cyclic := flagu_cyclic nu;
       bezt := bezt nu; bp := bp nu; knotsu := knotsu nu |} in
  let coords_indices_radius := if use_pressure_radius then Some 3%nat else None in
  let '(calc_flag, fit) := curve_draw_exec_fit op use_pressure_radius pool stroke_len in
  if bool_decide (fit_result fit = 0%Z)
  then curve_draw_exec_fit_to_nurb cdd coords_indices_radius radius_max calc_flag fit nu
  else nu.

(** The body of the loop of the poly branch. *)
Definition bpoint_of_elem (cps : CurvePaintSettings) (is_3d use_pressure_radius : bool)
    (selem : StrokeElem) : BPoint :=
  let radius_min := cps_radius_min cps in
  let radius_range := cps_radius_max cps - cps_radius_min cps in
  {| bp_vec :=
       Float4 (x3 (location_local selem)) (y3 (location_local selem))
         (if is_3d then z3 (location_local selem) else 0) 1;
     bp_radius :=
       if use_pressure_radius then (pressure selem * radius_range) + radius_min
       else cps_radius_max cps;
     bp_f1 := SELECT |}.

(** The poly branch up to, and not including, [BKE_nurb_knot_calc_u]. *)
Definition curve_draw_exec_poly (cps : CurvePaintSettings) (cu : Curve)
    (use_pressure_radius : bool) (pool : list StrokeElem) (stroke_len : Z)
    (nu : Nurb) : Nurb :=
  {| nu_type := CU_POLY;
     pntsu := stroke_len; pntsv := 1;
     (* Misc settings. *)
     resolu := cu_resolu cu; resolv := 1;
     orderu := 4; orderv := 1;
     flag_smooth := flag_smooth nu; flagu_cyclic := flagu_cyclic nu;
     bezt := bezt nu;
     bp := Some (bpoint_of_elem cps (cu_is_3d cu) use_pressure_radius <$> pool);
     knotsu := knotsu nu |}.

Definition set_knotsu (nu : Nurb) (knots : option (list R)) : Nurb :=
  {| nu_type := nu_type nu; pntsu := pntsu nu; pntsv := pntsv nu;
     resolu := resolu nu; resolv := resolv nu; orderu := orderu nu; orderv := orderv nu;
     flag_smooth := flag_smooth nu; flagu_cyclic := flagu_cyclic nu;
     bezt := bezt nu; bp := bp nu; knotsu := knots |}.

(** [use_pressure_radius]. *)
Definition use_pressure_radius (cps : CurvePaintSettings) : bool :=
  cps_flag_pressure_radius cps
  || (bool_decide (radius_taper_start cps <> 0) || bool_decide (radius_taper_end cps <> 0)).

(** The spline [curve_draw_exec] appends: [nu] at [BLI_addtail]. *)
Definition curve_draw_exec_nurb (cdd : CurveDrawData) (cps : CurvePaintSettings)
    (op : DrawProps) (pool : list StrokeElem) : Nurb :=
  let cu := data (obedit cdd) in
  let stroke_len := Z.of_nat (length pool) in
  let radius_max := cps_radius_max cps in
  let nu :=
    {| nu_type := CU_POLY; pntsu := 0; pntsv := 0;
       resolu := cu_resolu cu; resolv := cu_resolv cu;
       orderu := 0; orderv := 0; flag_smooth := true; flagu_cyclic := false;
       bezt := None; bp := None; knotsu := None |} in
  let use_pressure_radius := use_pressure_radius cps in
  if bool_decide (curve_type cdd = CU_BEZIER) then
    let nu := curve_draw_exec_bezier cdd op use_pressure_radius radius_max pool stroke_len nu in
    BKE_nurb_handles_calc cops nu
  else (* CU_POLY *)
    let nu := curve_draw_exec_poly cps cu use_pressure_radius pool stroke_len nu in
    set_knotsu nu (BKE_nurb_knot_calc_u cops nu).

(** The head of [curve_draw_exec]: the session data and the element pool
    the curve is built from, or [None] where the function returns
    [OPERATOR_CANCELLED].  [customdata] is [op->customdata] with the pool
    [cdd->stroke_elem_pool]; [ob] is the edit object of the context, used
    when the session data has to be made. *)
Definition curve_draw_exec_session (cps : CurvePaintSettings) (ob : Object)
    (customdata : option (CurveDrawData * list StrokeElem)) (op : DrawProps)
    : option (CurveDrawData * list StrokeElem) :=
  let customdata :=
    match customdata with
    | Some c => Some c
    | None => (fun cdd => (cdd, [])) <$> curve_draw_init false cps ob op false
    end in
  match customdata with
  | None => None
  | Some (cdd, pool) =>
    let cdd :=
      set_obedit cdd
        (set_world_to_object (obedit cdd)
           (invert_m4_m4 ops (object_to_world (obedit cdd)))) in
    let pool :=
      match pool with
      | [] => curve_draw_stroke_from_operator cdd (stroke op)
      | _ :: _ => pool
      end in
    Some (cdd, pool)
  end.

(** [curve_draw_exec]; [nurblist] is the spline list of the edit object.
    The result is the status, the spline list and the curve afterwards. *)
Definition curve_draw_exec (cps : CurvePaintSettings) (ob : Object)
    (customdata : option (CurveDrawData * list StrokeElem)) (op : DrawProps)
    (nurblist : list Nurb) : wmOperatorStatus * list Nurb * Curve :=
  match curve_draw_exec_session cps ob customdata op with
  | None => (OPERATOR_CANCELLED, nurblist, data ob)
  | Some (cdd, pool) =>
    let cu := data (obedit cdd) in
    (* Deselect all existing curves. *)
    let nurblist := ED_curve_deselect_all cops <$> nurblist in
    let nu := curve_draw_exec_nurb cdd cps op pool in
    let nurblist := nurblist ++ [nu] in
    let cu :=
      {| cu_is_3d := cu_is_3d cu; cu_resolu := cu_resolu cu; cu_resolv := cu_resolv cu;
         bevel_radius := bevel_radius cu;
         (* BKE_curve_nurb_active_set: the index of [nu] in the list *)
         actnu := (Z.of_nat (length nurblist) - 1)%Z;
         actvert := (pntsu nu - 1)%Z |} in
    (OPERATOR_FINISHED, nurblist, cu)
  end.

End Exec.

End CurvePaint.

(** ** transform.cc *)

Module GeoTransform.
Import BLI.

(** The matrix types and routines below are those of BLI_math_matrix.hh and
    BLI_math_vector.hh, which are not among the sources. *)

Record float3x3 := Float3x3 { m3_col0 : float3; m3_col1 : float3; m3_col2 : float3 }.

(** Modelled from the spec: the product of a [float3x3] and a vector
    (BLI_math_matrix.hh). *)
Definition mul_m3_v3 (M : float3x3) (v : float3) : float3 :=
  Float3
    (x3 (m3_col0 M) * x3 v + x3 (m3_col1 M) * y3 v + x3 (m3_col2 M) * z3 v)
    (y3 (m3_col0 M) * x3 v + y3 (m3_col1 M) * y3 v + y3 (m3_col2 M) * z3 v)
    (z3 (m3_col0 M) * x3 v + z3 (m3_col1 M) * y3 v + z3 (m3_col2 M) * z3 v).

(** Modelled from the spec: [A * B] for [float3x3] (BLI_math_matrix.hh), the
    matrix product. *)
Definition mul_m3 (A B : float3x3) : float3x3 :=
  Float3x3 (mul_m3_v3 A (m3_col0 B)) (mul_m3_v3 A (m3_col1 B)) (mul_m3_v3 A (m3_col2 B)).

(** Modelled from the spec: the product of a [float4x4] and a [float4]
    (BLI_math_matrix.hh). *)
Definition mul_m4_v4 (M : float4x4) (v : float4) : float4 :=
  Float4
    (x4 (col0 M) * x4 v + x4 (col1 M) * y4 v + x4 (col2 M) * z4 v + x4 (col3 M) * w4 v)
    (y4 (col0 M) * x4 v + y4 (col1 M) * y4 v + y4 (col2 M) * z4 v + y4 (col3 M) * w4 v)
    (z4 (col0 M) * x4 v + z4 (col1 M) * y4 v + z4 (col2 M) * z4 v + z4 (col3 M) * w4 v)
    (w4 (col0 M) * x4 v + w4 (col1 M) * y4 v + w4 (col2 M) * z4 v + w4 (col3 M) * w4 v).

(** Modelled from the spec: [A * B] for [float4x4] (BLI_math_matrix.hh), the
    matrix product, "applied transform times existing grid matrix". *)
Definition mul_m4 (A B : float4x4) : float4x4 :=
  Float4x4 (mul_m4_v4 A (col0 B)) (mul_m4_v4 A (col1 B))
           (mul_m4_v4 A (col2 B)) (mul_m4_v4 A (col3 B)).

(** Modelled from the spec: [float4x4::identity()] (BLI_math_matrix.hh), the
    identity matrix. *)
Definition identity : float4x4 :=
  Float4x4 (Float4 1 0 0 0) (Float4 0 1 0 0) (Float4 0 0 1 0) (Float4 0 0 0 1).

(** Modelled from the spec: [math::is_zero] (BLI_math_vector.hh), the test
    for the zero vector. *)
Definition is_zero (v : float3) : bool :=
  bool_decide (x3 v = 0) && bool_decide (y3 v = 0) && bool_decide (z3 v = 0).

(** Modelled from the spec: [math::from_location<float4x4>] (BLI_math_matrix.hh),
    the translation matrix of a vector. *)
Definition from_location (v : float3) : float4x4 :=
  Float4x4 (Float4 1 0 0 0) (Float4 0 1 0 0) (Float4 0 0 1 0) (Float4 (x3 v) (y3 v) (z3 v) 1).

(** Modelled from the spec: [x_axis()], [y_axis()], [z_axis()] and
    [location()] (BLI_math_matrix_types.hh), the first three entries of a
    column, read and assigned. *)
Definition axis (c : float4) : float3 := Float3 (x4 c) (y4 c) (z4 c).
Definition set_axis (c : float4) (v : float3) : float4 := Float4 (x3 v) (y3 v) (z3 v) (w4 c).

(** [m.location() += translation], and [add_v3_v3(m.ptr()[3], translation)]. *)
Definition translate_m4 (m : float4x4) (translation : float3) : float4x4 :=
  Float4x4 (col0 m) (col1 m) (col2 m)
    (set_axis (col3 m) (add_v3_v3 (axis (col3 m)) translation)).

(** Modelled from the spec: [copy_m3_m4] and [view<3, 3>()]
    (BLI_math_matrix), the upper left block. *)
Definition m3_of_m4 (m : float4x4) : float3x3 :=
  Float3x3 (axis (col0 m)) (axis (col1 m)) (axis (col2 m)).

Record Bounds := { bounds_min : float3; bounds_max : float3 }.

Record PointCloud := {
  pointcloud_positions : list float3;
  bounds_cache : option Bounds;   (* [None]: not cached *)
}.

(** A grease pencil object is the list of its layers, a layer its local
    transform. *)
Record Layer := { local_transform : float4x4 }.

Record CurvesEditHints := {
  hint_positions : option (list float3);
  deform_mats : option (list float3x3);
  curves_orig_point_num : nat;   (* curves_id_orig.geometry.point_num *)
}.

Record GreasePencilDrawingEditHints := {
  drawing_positions : option (list float3);
  drawing_deform_mats : option (list float3x3);
  drawing_orig_points_num : nat;   (* drawing_orig->strokes().points_num() *)
}.

Record TransformGeometryErrors := {
  volume_too_small : bool;
  bad_volume_transform : bool;
}.

Definition no_errors : TransformGeometryErrors :=
  {| volume_too_small := false; bad_volume_transform := false |}.

Section Geometry.
(** Curves, meshes and the voxel trees of volume grids belong to the kernel. *)
Context {Curves Mesh Tree : Type}.

Record VolumeGridData := { grid_transform_matrix : float4x4; grid_tree : Tree }.

Record GeometrySet := {
  gs_curves : option Curves;
  gs_mesh : option Mesh;
  gs_pointcloud : option PointCloud;
  gs_grease_pencil : option (list Layer);
  gs_volume : option (list VolumeGridData);
  gs_instances : option (list float4x4);
  gs_curve_edit_hints : option CurvesEditHints;
  gs_grease_pencil_edit_hints : option (option (list GreasePencilDrawingEditHints));
  gs_gizmo_edit_hints : option (list float4x4);   (* gizmo_transforms.values() *)
}.

(** The kernel and math routines the file calls. *)
Record GeoOps := {
  curves_translate : Curves -> float3 -> Curves;
  curves_transform : Curves -> float4x4 -> Curves;
  mesh_translate : Mesh -> float3 -> Mesh;
  mesh_transform : Mesh -> float4x4 -> Mesh;
  determinant : float4x4 -> R;
  normalize : float3 -> float3;
  BKE_volume_grid_determinant_valid : R -> bool;
  clear_tree : Tree -> Tree;
  (* whether [set_transform_matrix] throws for this matrix *)
  set_transform_matrix_throws : float4x4 -> bool;
}.

(** Whether the file is built with OpenVDB. *)
Context (WITH_OPENVDB : bool) (ops : GeoOps).

Definition translate_positions (positions : list float3) (translation : float3) : list float3 :=
  (fun position => add_v3_v3 position translation) <$> positions.

Definition transform_positions (positions : list float3) (matrix : float4x4) : list float3 :=
  mul_v3_m4v3 matrix <$> positions.

(** Writing the position attribute leaves the bounds cache dirty; the bounds
    saved before are moved and cached again. *)
Definition translate_pointcloud (pointcloud : PointCloud) (translation : float3) : PointCloud :=
  if is_zero translation then pointcloud
  else
    let bounds := bounds_cache pointcloud in
    {| pointcloud_positions := translate_positions (pointcloud_positions pointcloud) translation;
       bounds_cache :=
         (fun b => {| bounds_min := add_v3_v3 (bounds_min b) translation;
                      bounds_max := add_v3_v3 (bounds_max b) translation |}) <$> bounds |}.

Definition transform_pointcloud (pointcloud : PointCloud) (transform : float4x4) : PointCloud :=
  {| pointcloud_positions := transform_positions (pointcloud_positions pointcloud) transform;
     bounds_cache := None |}.

Definition translate_greasepencil (grease_pencil : list Layer) (translation : float3)
    : list Layer :=
  (fun layer => {| local_transform := translate_m4 (local_transform layer) translation |})
    <$> grease_pencil.

Definition transform_greasepencil (grease_pencil : list Layer) (transform : float4x4)
    : list Layer :=
  (fun layer => {| local_transform := mul_m4 transform (local_transform layer) |})
    <$> grease_pencil.

Definition translate_instances (instances : list float4x4) (translation : float3)
    : list float4x4 :=
  (fun instance_transform => translate_m4 instance_transform translation) <$> instances.

Definition transform_instances (instances : list float4x4) (transform : float4x4)
    : list float4x4 :=
  mul_m4 transform <$> instances.

(** The matrix of a grid with an invalid determinant, reset. *)
Definition reset_grid_matrix (grid_matrix : float4x4) (det : R) : float4x4 :=
  if bool_decide (det = 0) then
    (* Reset rotation and scale. *)
    Float4x4 (set_axis (col0 grid_matrix) (Float3 1 0 0))
             (set_axis (col1 grid_matrix) (Float3 0 1 0))
             (set_axis (col2 grid_matrix) (Float3 0 0 1))
             (col3 grid_matrix)
  else
    (* Keep rotation but reset scale. *)
    Float4x4 (set_axis (col0 grid_matrix) (normalize ops (axis (col0 grid_matrix))))
             (set_axis (col1 grid_matrix) (normalize ops (axis (col1 grid_matrix))))
             (set_axis (col2 grid_matrix) (normalize ops (axis (col2 grid_matrix))))
             (col3 grid_matrix).

(** The body of the loop over the grids. *)
Definition transform_volume_grid (transform : float4x4) (volume_grid : VolumeGridData)
    (r_errors : TransformGeometryErrors) : VolumeGridData * TransformGeometryErrors :=
  let grid_matrix := grid_transform_matrix volume_grid in
  let grid_matrix := mul_m4 transform grid_matrix in
  let det := determinant ops grid_matrix in
  let '(volume_grid, grid_matrix, r_errors) :=
    if negb (BKE_volume_grid_determinant_valid ops det) then
      (* Clear the tree because it is too small. *)
      ({| grid_transform_matrix := grid_transform_matrix volume_grid;
          grid_tree := clear_tree ops (grid_tree volume_grid) |},
       reset_grid_matrix grid_matrix det,
       {| volume_too_small := true;
          bad_volume_transform := bad_volume_transform r_errors |})
    else (volume_grid, grid_matrix, r_errors) in
  if set_transform_matrix_throws ops grid_matrix then
    (volume_grid,
     {| volume_too_small := volume_too_small r_errors; bad_volume_transform := true |})
  else
    ({| grid_transform_matrix := grid_matrix; grid_tree := grid_tree volume_grid |},
     r_errors).

Fixpoint transform_volume_grids (transform : float4x4) (grids : list VolumeGridData)
    (r_errors : TransformGeometryErrors)
    : list VolumeGridData * TransformGeometryErrors :=
  match grids with
  | [] => ([], r_errors)
  | volume_grid :: rest =>
    let '(volume_grid, r_errors) := transform_volume_grid transform volume_grid r_errors in
    let '(rest, r_errors) := transform_volume_grids transform rest r_errors in
    (volume_grid :: rest, r_errors)
  end.

Definition transform_volume (volume : list VolumeGridData) (transform : float4x4)
    (r_errors : TransformGeometryErrors)
    : list VolumeGridData * TransformGeometryErrors :=
  if WITH_OPENVDB then transform_volume_grids transform volume r_errors
  else (volume, r_errors).

Definition translate_volume (volume : list VolumeGridData) (translation : float3)
    : list VolumeGridData :=
  fst (transform_volume volume (from_location translation) no_errors).

Definition transform_deform_mats (deform_mats : option (list float3x3)) (point_num : nat)
    (deform_mat : float3x3) : option (list float3x3) :=
  match deform_mats with
  | Some mats => Some (mul_m3 deform_mat <$> mats)
  | None => Some (replicate point_num deform_mat)
  end.

Definition transform_curve_edit_hints (edit_hints : CurvesEditHints) (transform : float4x4)
    : CurvesEditHints :=
  {| hint_positions :=
       (fun positions => transform_positions positions transform) <$> hint_positions edit_hints;
     deform_mats :=
       transform_deform_mats (deform_mats edit_hints) (curves_orig_point_num edit_hints)
         (m3_of_m4 transform);
     curves_orig_point_num := curves_orig_point_num edit_hints |}.

Definition transform_grease_pencil_edit_hints
    (edit_hints : option (list GreasePencilDrawingEditHints)) (transform : float4x4)
    : option (list GreasePencilDrawingEditHints) :=
  match edit_hints with
  | None => None
  | Some hints =>
    Some ((fun drawing_hints =>
             {| drawing_positions :=
                  (fun positions => transform_positions positions transform)
                    <$> drawing_positions drawing_hints;
                drawing_deform_mats :=
                  transform_deform_mats (drawing_deform_mats drawing_hints)
                    (drawing_orig_points_num drawing_hints) (m3_of_m4 transform);
                drawing_orig_points_num := drawing_orig_points_num drawing_hints |})
          <$> hints)
  end.

Definition transform_gizmo_edit_hints (gizmo_transforms : list float4x4)
    (transform : float4x4) : list float4x4 :=
  mul_m4 transform <$> gizmo_transforms.

Definition translate_curve_edit_hints (edit_hints : CurvesEditHints) (translation : float3)
    : CurvesEditHints :=
  {| hint_positions :=
       (fun positions => translate_positions positions translation)
         <$> hint_positions edit_hints;
     deform_mats := deform_mats edit_hints;
     curves_orig_point_num := curves_orig_point_num edit_hints |}.

Definition translate_gizmos_edit_hints (gizmo_transforms : list float4x4)
    (translation : float3) : list float4x4 :=
  (fun m => translate_m4 m translation) <$> gizmo_transforms.

Definition translate_geometry (geometry : GeometrySet) (translation : float3) : GeometrySet :=
  if is_zero translation then geometry
  else
    {| gs_curves := (fun curves => curves_translate ops curves translation) <$> gs_curves geometry;
       gs_mesh := (fun mesh => mesh_translate ops mesh translation) <$> gs_mesh geometry;
       gs_pointcloud :=
         (fun pointcloud => translate_pointcloud pointcloud translation)
           <$> gs_pointcloud geometry;
       gs_grease_pencil :=
         (fun grease_pencil => translate_greasepencil grease_pencil translation)
           <$> gs_grease_pencil geometry;
       gs_volume := (fun volume => translate_volume volume translation) <$> gs_volume geometry;
       gs_instances :=
         (fun instances => translate_instances instances translation)
           <$> gs_instances geometry;
       gs_curve_edit_hints :=
         (fun hints => translate_curve_edit_hints hints translation)
           <$> gs_curve_edit_hints geometry;
       gs_grease_pencil_edit_hints := gs_grease_pencil_edit_hints geometry;
       gs_gizmo_edit_hints :=
         (fun hints => translate_gizmos_edit_hints hints translation)
           <$> gs_gizmo_edit_hints geometry |}.

(** The geometry afterwards and the returned [std::optional]. *)
Definition transform_geometry (geometry : GeometrySet) (transform : float4x4)
    : GeometrySet * option TransformGeometryErrors :=
  if bool_decide (transform = identity) then (geometry, None)
  else
    let errors := no_errors in
    let '(volume, errors) :=
      match gs_volume geometry with
      | Some volume =>
        let '(volume, errors) := transform_volume volume transform errors in
        (Some volume, errors)
      | None => (None, errors)
      end in
    let geometry :=
      {| gs_curves := (fun curves => curves_transform ops curves transform) <$> gs_curves geometry;
         gs_mesh := (fun mesh => mesh_transform ops mesh transform) <$> gs_mesh geometry;
         gs_pointcloud :=
           (fun pointcloud => transform_pointcloud pointcloud transform)
             <$> gs_pointcloud geometry;
         gs_grease_pencil :=
           (fun grease_pencil => transform_greasepencil grease_pencil transform)
             <$> gs_grease_pencil geometry;
         gs_volume := volume;
         gs_instances :=
           (fun instances => transform_instances instances transform)
             <$> gs_instances geometry;
         gs_curve_edit_hints :=
           (fun hints => transform_curve_edit_hints hints transform)
             <$> gs_curve_edit_hints geometry;
         gs_grease_pencil_edit_hints :=
           (fun hints => transform_grease_pencil_edit_hints hints transform)
             <$> gs_grease_pencil_edit_hints geometry;
         gs_gizmo_edit_hints :=
           (fun hints => transform_gizmo_edit_hints hints transform)
             <$> gs_gizmo_edit_hints geometry |} in
    if volume_too_small errors then (geometry, Some errors) else (geometry, None).

End Geometry.

Arguments VolumeGridData : clear implicits.
Arguments GeometrySet : clear implicits.
Arguments GeoOps : clear implicits.

End GeoTransform.

(** ** Concrete sessions

    Closed instances of the operation records and of the session data, on
    which the properties below are run. *)

Module Example.
Import BLI CurvePaint GeoTransform.

(** A view looking down the z axis: a pixel is the point under it. *)
Definition view_ops : ViewOps :=
  {| ED_view3d_win_to_3d_on_plane := fun _ mval_fl _ => (true, Float3 (x2 mval_fl) (y2 mval_fl) 0);
     ED_view3d_depth_read_cached := fun _ _ _ _ => 1 / 2;
     ED_view3d_depth_unproject_v3 :=
       fun mval_i depth _ => (true, Float3 (IZR (fst mval_i)) (IZR (snd mval_i)) depth);
     ED_view3d_depth_read_cached_normal := fun _ _ => Some (Float3 0 0 1);
     ED_view3d_win_to_3d :=
       fun depth_pt mval_fl => Float3 (x2 mval_fl) (y2 mval_fl) (z3 depth_pt);
     (* the inverse of a scaling followed by a translation *)
     invert_m4_m4 := fun m =>
       Float4x4 (Float4 (/ x4 (col0 m)) 0 0 0) (Float4 0 (/ y4 (col1 m)) 0 0)
                (Float4 0 0 (/ z4 (col2 m)) 0)
                (Float4 (- x4 (col3 m) / x4 (col0 m)) (- y4 (col3 m) / y4 (col1 m))
                        (- z4 (col3 m) / z4 (col2 m)) 1);
     normalize_v3 := fun v =>
       let d := sqrt (x3 v * x3 v + y3 v * y3 v + z3 v * z3 v) in
       Float3 (x3 v / d) (y3 v / d) (z3 v / d);
     interpf := fun target origin fac => (fac * target) + (1 - fac) * origin |}.

(** Scaling by two and a translation by (1, 0, 0), and its inverse. *)
Definition ob_matrix : float4x4 :=
  Float4x4 (Float4 2 0 0 0) (Float4 0 2 0 0) (Float4 0 0 2 0) (Float4 1 0 0 1).

Definition curve : Curve :=
  {| cu_is_3d := true; cu_resolu := 12; cu_resolv := 12; bevel_radius := 2;
     actnu := 0; actvert := 0 |}.

Definition object : Object :=
  {| object_to_world := ob_matrix;
     world_to_object := invert_m4_m4 view_ops ob_matrix;
     data := curve |}.

Definition settings (type : CurveType) (taper_start taper_end : R) : CurvePaintSettings :=
  {| cps_curve_type := type; cps_radius_min := 1; cps_radius_max := 3;
     cps_surface_offset := 0; cps_flag_pressure_radius := true;
     cps_flag_depth_stroke_offset_abs := false;
     radius_taper_start := taper_start; radius_taper_end := taper_end |}.

Definition view_depths : ViewDepths :=
  {| depths_w := 640; depths_h := 480; depth_range := (0, 1) |}.

(** A session projecting onto the depth buffer, with substeps. *)
Definition session (type : CurveType) (prev_elem : option StrokeElem) : CurveDrawData :=
  {| curve_type := type;
     project :=
       {| use_plane := false; plane := Float4 0 0 0 0; use_depth := true;
          use_offset := false; offset := zero_v3; surface_offset := 0;
          use_surface_offset_absolute := false |};
     sample_use_substeps := true;
     radius := {| radius_min := 1; radius_max := 3; radius_range := 3 - 1 |};
     prev :=
       {| prev_mval := Float2 0 0; prev_location_world := zero_v3;
          prev_location_world_valid := zero_v3; prev_selem := prev_elem |};
     obedit := object;
     depths := Some view_depths |}.

(** A sample at a point of the line y = z = 0. *)
Definition elem_at (x : R) (p : R) : StrokeElem :=
  {| mval := Float2 x 0; location_world := Float3 (2 * x + 1) 0 0;
     location_local := Float3 x 0 0;
     normal_world := zero_v3; normal_local := zero_v3; pressure := p |}.

Definition props : DrawProps :=
  {| fit_method := CURVE_PAINT_FIT_METHOD_REFIT; error_threshold := 1;
     corner_angle := 1; use_cyclic := false;
     stroke := [(Float2 0 0, Float3 1 0 0, 1 / 2); (Float2 4 0, Float3 9 0 0, 1 / 2)] |}.

Definition knot_at (x : R) : list R * list R * list R :=
  ([x - 1; 0; 0; 1], [x; 0; 0; 1], [x + 1; 0; 0; 1]).

(** A fitting library whose fit calls return [status] and, with it, three
    knots with corners reported at each of them. *)
Definition curve_ops (status : Z) : CurveOps :=
  let fit :=
    {| fit_result := status;
       cubic_spline := [knot_at 0; knot_at 2; knot_at 4];
       corners_index := Some [0; 1; 2]%nat |} in
  {| curve_fit_corners_detect_fl := fun _ _ _ _ _ _ _ => None;
     curve_fit_cubic_to_points_refit_fl := fun _ _ _ _ _ _ => fit;
     curve_fit_cubic_to_points_fl := fun _ _ _ _ _ _ => fit;
     BKE_nurb_handles_calc := fun nu => nu;
     BKE_nurb_knot_calc_u := fun _ => None;
     ED_curve_deselect_all := fun nu => nu |}.

(** The determinant of a [float4x4], expanded along its last row. *)
Definition det3 (a b c : float3) : R :=
  x3 a * (y3 b * z3 c - z3 b * y3 c) - x3 b * (y3 a * z3 c - z3 a * y3 c)
  + x3 c * (y3 a * z3 b - z3 a * y3 b).

Definition det4 (m : float4x4) : R :=
  - w4 (col0 m) * det3 (axis (col1 m)) (axis (col2 m)) (axis (col3 m))
  + w4 (col1 m) * det3 (axis (col0 m)) (axis (col2 m)) (axis (col3 m))
  - w4 (col2 m) * det3 (axis (col0 m)) (axis (col1 m)) (axis (col3 m))
  + w4 (col3 m) * det3 (axis (col0 m)) (axis (col1 m)) (axis (col2 m)).

(** Volume grids whose tree is the number of its active voxels; a
    determinant is valid when it is not close to zero. *)
Definition geo_ops : GeoOps unit unit nat :=
  {| curves_translate := fun c _ => c; curves_transform := fun c _ => c;
     mesh_translate := fun m _ => m; mesh_transform := fun m _ => m;
     determinant := det4;
     normalize := normalize_v3 view_ops;
     BKE_volume_grid_determinant_valid := fun det => bool_decide (3 / 10 ^ 15 <= Rabs det);
     clear_tree := fun _ => 0%nat;
     set_transform_matrix_throws := fun m => bool_decide (Rabs (det4 m) < 3 / 10 ^ 15) |}.

(** A grid with the identity matrix and the scaling by zero along x. *)
Definition grid : VolumeGridData nat :=
  {| grid_transform_matrix := identity; grid_tree := 8%nat |}.

Definition flatten_x : float4x4 :=
  Float4x4 (Float4 0 0 0 0) (Float4 0 1 0 0) (Float4 0 0 1 0) (Float4 0 0 0 1).

(** The matrix that sends everything to zero, and a grid scaled by two. *)
Definition zero_m4 : float4x4 :=
  Float4x4 (Float4 0 0 0 0) (Float4 0 0 0 0) (Float4 0 0 0 0) (Float4 0 0 0 0).

Definition scale_two : float4x4 :=
  Float4x4 (Float4 2 0 0 0) (Float4 0 2 0 0) (Float4 0 0 2 0) (Float4 0 0 0 1).

Definition grid_scaled : VolumeGridData nat :=
  {| grid_transform_matrix := scale_two; grid_tree := 8%nat |}.

(** A fitting library whose fit calls succeed and return one knot for each
    row of the coordinates they are given, so that the spline shows which
    rows the fit was called with. *)
Definition curve_ops_echo : CurveOps :=
  let fit (coords : list (list R)) :=
    {| fit_result := 0;
       cubic_spline := (fun row => (row, row, row)) <$> coords;
       corners_index := None |} in
  {| curve_fit_corners_detect_fl := fun _ _ _ _ _ _ _ => None;
     curve_fit_cubic_to_points_refit_fl := fun coords _ _ _ _ _ => fit coords;
     curve_fit_cubic_to_points_fl := fun coords _ _ _ _ _ => fit coords;
     BKE_nurb_handles_calc := fun nu => nu;
     BKE_nurb_knot_calc_u := fun _ => None;
     ED_curve_deselect_all := fun nu => nu |}.

End Example.

(** ** The specification's notions *)

Module Spec.
Import BLI CurvePaint.

(** Local/world consistency of a sample: its world position is its local
    position through the object-to-world transform. *)
Definition local_world_consistent (cdd : CurveDrawData) (selem : StrokeElem) : Prop :=
  location_world selem = mul_v3_m4v3 (object_to_world (obedit cdd)) (location_local selem).

(** [Minv] undoes [M] on points. *)
Definition inverts (Minv M : float4x4) : Prop :=
  forall v, mul_v3_m4v3 M (mul_v3_m4v3 Minv v) = v.

(** No row equals the row after it. *)
Definition no_adjacent_doubles {A : Type} (rows : list A) : Prop :=
  forall i a b, rows !! i = Some a -> rows !! S i = Some b -> a <> b.

(** The feature vector of a sample: its position and, when the pressure
    channel is there, its pressure. *)
Definition feature_vector (pressure_channel : bool) (selem : StrokeElem) : list R :=
  [x3 (location_local selem); y3 (location_local selem); z3 (location_local selem)]
  ++ (if pressure_channel then [pressure selem] else []).

(** Consecutive identical rows coalesced: of the rows after [row_prev], the
    ones kept, where a row identical to the row kept before it is dropped. *)
Fixpoint coalesce_after {A : Type} `{EqDecision A} (row_prev : A) (rows : list A) : list A :=
  match rows with
  | [] => []
  | row :: rest =>
    if bool_decide (row = row_prev) then coalesce_after row_prev rest
    else row :: coalesce_after row rest
  end.

Definition coalesce {A : Type} `{EqDecision A} (rows : list A) : list A :=
  match rows with
  | [] => []
  | row :: rest => row :: coalesce_after row rest
  end.

(** The corner indices whose points get free handles: those returned by the
    fit, without the first and the last one when the fit was not cyclic and
    at least two were returned. *)
Definition free_corner_indices (corners : list nat) (cyclic : bool) : list nat :=
  if bool_decide (2 <= length corners)%nat && negb cyclic
  then drop 1 (take (length corners - 1) corners)
  else corners.

(** The factor the start taper [s] puts on the pressure of a sample at
    cumulative length [L] of a stroke of length [T]. *)
Definition taper_start_factor (s T L : R) : R :=
  if bool_decide (s <> 0) && bool_decide (L < s * T) then L / (s * T) else 1.

(** The factor of the end taper [e]. *)
Definition taper_end_factor (e T L : R) : R :=
  if bool_decide (e <> 0) && bool_decide (L > T - e * T) then (T - L) / (e * T) else 1.


(** The raw sample of an event, as [curve_draw_event_add] projects it: the
    element it appends last. *)
Definition event_target (ops : ViewOps) (cdd : CurveDrawData) (event : wmEvent) : StrokeElem :=
  (stroke_elem_project_fallback_elem ops
     (set_obedit cdd
        (set_world_to_object (obedit cdd) (invert_m4_m4 ops (object_to_world (obedit cdd)))))
     (prev_location_world_valid (prev cdd))
     {| mval := Float2 (IZR (event_mval event).1) (IZR (event_mval event).2);
        location_world := zero_v3; location_local := zero_v3;
        normal_world := zero_v3; normal_local := zero_v3;
        pressure := tablet_pressure event |}).2.


End Spec.

(** ** editcurve_paint.cc: the operator around the stroke *)

Module CurvePaintOp.
Import BLI CurvePaint.

(** Distance between start/end points to consider cyclic. *)
Definition STROKE_CYCLIC_DIST_PX : Z := 8.

(** Modelled from the spec: [dot_v3v3] (BLI_math_vector, not among the
    sources), the inner product of the plane's "normal + signed offset". *)
Definition dot_v3v3 (a b : float3) : R := x3 a * x3 b + y3 a * y3 b + z3 a * z3 b.

(** Modelled from the spec: [cross_v3_v3v3] (BLI_math_vector, not among the
    sources), the vector product [a x b]. *)
Definition cross_v3_v3v3 (a b : float3) : float3 :=
  Float3 (y3 a * z3 b - z3 a * y3 b) (z3 a * x3 b - x3 a * z3 b)
         (x3 a * y3 b - y3 a * x3 b).

(** Modelled from the spec: [sub_v3_v3v3] (BLI_math_vector, not among the
    sources), [r = a - b], the "world-space translation offset" between two
    positions. *)
Definition sub_v3_v3v3 (a b : float3) : float3 :=
  Float3 (x3 a - x3 b) (y3 a - y3 b) (z3 a - z3 b).


(** Modelled from the spec: [len_v2v2] (BLI_math_vector, not among the
    sources), the screen distance of two positions. *)
Definition len_v2v2 (a b : float2) : R := sqrt (len_squared_v2v2 a b).

Inductive eCurvePaint_Project := CURVE_PAINT_PROJECT_CURSOR | CURVE_PAINT_PROJECT_SURFACE.

Inductive eCurvePaint_SurfacePlane :=
  | CURVE_PAINT_SURFACE_PLANE_NORMAL_VIEW
  | CURVE_PAINT_SURFACE_PLANE_NORMAL_SURFACE
  | CURVE_PAINT_SURFACE_PLANE_VIEW.

#[global] Instance eCurvePaint_Project_eq_dec : EqDecision eCurvePaint_Project.
Proof. solve_decision. Defined.
#[global] Instance eCurvePaint_SurfacePlane_eq_dec : EqDecision eCurvePaint_SurfacePlane.
Proof. solve_decision. Defined.

(** The fields of [CurvePaintSettings] that the operator reads besides those
    of the curve construction. *)
Record CurvePaintSettingsOp := {
  cps_fit_method : FitMethod;
  cps_flag_corners_detect : bool;          (* CURVE_PAINT_FLAG_CORNERS_DETECT *)
  cps_corner_angle : R;
  cps_error_threshold : R;
  cps_depth_mode : eCurvePaint_Project;
  cps_surface_plane : eCurvePaint_SurfacePlane;
  cps_flag_depth_stroke_endpoints : bool;  (* CURVE_PAINT_FLAG_DEPTH_STROKE_ENDPOINTS *)
  cps_flag_depth_only_selected : bool;     (* CURVE_PAINT_FLAG_DEPTH_ONLY_SELECTED *)
}.

(** The operator's properties as RNA stores them: [None] for a property that
    is not set. *)
Record OperatorProps := {
  op_error_threshold : option R;
  op_fit_method : option FitMethod;
  op_corner_angle : option R;
  op_use_cyclic : option bool;
  op_stroke : option (list (float2 * float3 * R));
  op_wait_for_input : option bool;
}.

(** [RNA_*_get]: the value of a property, or the default [CURVE_OT_draw]
    defines for it. *)
Definition props_get (op : OperatorProps) : DrawProps :=
  {| fit_method := default CURVE_PAINT_FIT_METHOD_REFIT (op_fit_method op);
     error_threshold := default 0 (op_error_threshold op);
     corner_angle := default (70 * (PI / 180)) (op_corner_angle op);
     use_cyclic := default true (op_use_cyclic op);
     stroke := default [] (op_stroke op) |}.

Definition set_op_fit_method (op : OperatorProps) (v : FitMethod) : OperatorProps :=
  {| op_error_threshold := op_error_threshold op; op_fit_method := Some v;
     op_corner_angle := op_corner_angle op; op_use_cyclic := op_use_cyclic op;
     op_stroke := op_stroke op; op_wait_for_input := op_wait_for_input op |}.

Definition set_op_corner_angle (op : OperatorProps) (v : R) : OperatorProps :=
  {| op_error_threshold := op_error_threshold op; op_fit_method := op_fit_method op;
     op_corner_angle := Some v; op_use_cyclic := op_use_cyclic op;
     op_stroke := op_stroke op; op_wait_for_input := op_wait_for_input op |}.

Definition set_op_error_threshold (op : OperatorProps) (v : R) : OperatorProps :=
  {| op_error_threshold := Some v; op_fit_method := op_fit_method op;
     op_corner_angle := op_corner_angle op; op_use_cyclic := op_use_cyclic op;
     op_stroke := op_stroke op; op_wait_for_input := op_wait_for_input op |}.

Definition set_op_use_cyclic (op : OperatorProps) (v : bool) : OperatorProps :=
  {| op_error_threshold := op_error_threshold op; op_fit_method := op_fit_method op;
     op_corner_angle := op_corner_angle op; op_use_cyclic := Some v;
     op_stroke := op_stroke op; op_wait_for_input := op_wait_for_input op |}.

(** [RNA_collection_add(op->ptr, "stroke", ...)] with the three values set. *)
Definition stroke_collection_add (op : OperatorProps) (item : float2 * float3 * R)
    : OperatorProps :=
  {| op_error_threshold := op_error_threshold op; op_fit_method := op_fit_method op;
     op_corner_angle := op_corner_angle op; op_use_cyclic := op_use_cyclic op;
     op_stroke := Some (default [] (op_stroke op) ++ [item]);
     op_wait_for_input := op_wait_for_input op |}.

Definition curve_draw_stroke_to_operator_elem (op : OperatorProps) (selem : StrokeElem)
    : OperatorProps :=
  stroke_collection_add op (mval selem, location_world selem, pressure selem).

Definition curve_draw_stroke_to_operator (op : OperatorProps) (pool : list StrokeElem)
    : OperatorProps :=
  fold_left curve_draw_stroke_to_operator_elem pool op.

(** The loop of [curve_draw_exec_precalc] that sums the 3D and the 2D length
    of the stroke. *)
Fixpoint stroke_len_3d_2d (selem_prev : StrokeElem) (len_3d len_2d : R)
    (rest : list StrokeElem) : R * R :=
  match rest with
  | [] => (len_3d, len_2d)
  | selem :: rest' =>
    stroke_len_3d_2d selem
      (len_3d + len_v3v3 (location_local selem) (location_local selem_prev))
      (len_2d + len_v2v2 (mval selem) (mval selem_prev)) rest'
  end.

(** The error threshold computed from the pixel value of the settings.
    [ui_scale_fac] is [UI_SCALE_FAC]. *)
Definition precalc_error_threshold (ui_scale_fac : R) (cpso : CurvePaintSettingsOp)
    (pool : list StrokeElem) : R :=
  let '(len_3d, len_2d) :=
    match pool with
    | [] => (0, 0)
    | selem_first :: rest => stroke_len_3d_2d selem_first 0 0 rest
    end in
  (* pixel to local space scale *)
  let scale_px :=
    if bool_decide (len_3d > 0) && bool_decide (len_2d > 0) then len_3d / len_2d else 0 in
  (cps_error_threshold cpso * ui_scale_fac) * scale_px.

Definition precalc_use_cyclic (ui_scale_fac : R) (pool : list StrokeElem) : bool :=
  if bool_decide (2 < length pool)%nat then
    match head pool, last pool with
    | Some selem_first, Some selem_last =>
      bool_decide (len_squared_v2v2 (mval selem_first) (mval selem_last)
                   <= square_f (IZR STROKE_CYCLIC_DIST_PX * ui_scale_fac))
    | _, _ => false
    end
  else false.

(** Initialize values before calling 'exec' (when running interactively):
    the properties and the pool afterwards. *)
Definition curve_draw_exec_precalc (ui_scale_fac : R) (cdd : CurveDrawData)
    (cps : CurvePaintSettings) (cpso : CurvePaintSettingsOp) (pool : list StrokeElem)
    (op : OperatorProps) : OperatorProps * list StrokeElem :=
  let op :=
    match op_fit_method op with
    | Some _ => op
    | None => set_op_fit_method op (cps_fit_method cpso)
    end in
  let op :=
    match op_corner_angle op with
    | Some _ => op
    | None =>
      set_op_corner_angle op
        (if cps_flag_corners_detect cpso then cps_corner_angle cpso else PI)
    end in
  let op :=
    match op_error_threshold op with
    | Some _ => op
    | None =>
      (* Error isn't set so we'll have to calculate it from the pixel values. *)
      set_op_error_threshold op (precalc_error_threshold ui_scale_fac cpso pool)
    end in
  let op :=
    match op_use_cyclic op with
    | Some _ => op
    | None => set_op_use_cyclic op (precalc_use_cyclic ui_scale_fac pool)
    end in
  (op, curve_draw_exec_precalc_taper cdd cps pool).

(** [curve_draw_exec] on the operator: the properties are read through
    [RNA_*_get]; [curve_draw_exit] leaves no session data behind. *)
Definition curve_draw_exec_op (ops : ViewOps) (cops : CurveOps) (cps : CurvePaintSettings)
    (ob : Object) (customdata : option (CurveDrawData * list StrokeElem))
    (op : OperatorProps) (nurblist : list Nurb) : wmOperatorStatus * list Nurb * Curve :=
  curve_draw_exec ops cops cps ob customdata (props_get op) nurblist.

(** *** The modal operator *)

Inductive CurveDrawState := CURVE_DRAW_IDLE | CURVE_DRAW_PAINTING.

#[global] Instance CurveDrawState_eq_dec : EqDecision CurveDrawState.
Proof. solve_decision. Defined.

(** The session of a modal stroke: [op->customdata] with its element pool,
    [cdd->state] and [cdd->init_event_type]. *)
Record Session := {
  session_cdd : CurveDrawData;
  session_pool : list StrokeElem;
  state : CurveDrawState;
  init_event_type : Z;
}.

(** An event: the fields [curve_draw_event_add] reads, and its type and
    value. *)
Record ModalEvent := { event : wmEvent; event_type : Z; event_val : Z }.

(** The event codes of WM_types.hh and wm_event_types.hh, which are not
    among the sources. *)
Record EventCodes := {
  EVT_ESCKEY : Z;
  RIGHTMOUSE : Z;
  LEFTMOUSE : Z;
  KM_PRESS : Z;
  KM_RELEASE : Z;
  ISMOUSE_MOTION : Z -> bool;
}.

(** What [curve_draw_invoke] and [curve_draw_event_add_first] read from the
    view, besides the projection routines. *)
Record ViewData := {
  viewinv_z : float3;            (* rv3d->viewinv[2] *)
  rv3d_ofs : float3;             (* rv3d->ofs *)
  cursor_location : float3;      (* scene->cursor.location *)
  shading_above_wire : bool;     (* v3d->shading.type > OB_WIRE *)
  (* the depths [ED_view3d_depth_override] returns; the argument says
     whether only the selection is drawn *)
  ED_view3d_depth_override : bool -> option ViewDepths;
}.

Definition set_project (cdd : CurveDrawData) (p : Project) : CurveDrawData :=
  {| curve_type := curve_type cdd; project := p;
     sample_use_substeps := sample_use_substeps cdd; radius := radius cdd;
     prev := prev cdd; obedit := obedit cdd; depths := depths cdd |}.



(** [normalize_v3_v3(plane, no); plane[3] = -dot_v3v3(plane, co)]. *)
Definition plane_from_normal_point (ops : ViewOps) (no co : float3) : float4 :=
  let n := normalize_v3 ops no in
  Float4 (x3 n) (y3 n) (z3 n) (- dot_v3v3 n co).

Section Modal.
Context (ops : ViewOps) (cops : CurveOps) (codes : EventCodes) (view : ViewData).
Context (ui_scale_fac : R).

(** The block of [curve_draw_event_add_first] that replaces the projection
    onto the surface by the projection onto a plane through the first
    point. *)
Definition event_add_first_plane (cpso : CurvePaintSettingsOp) (cdd : CurveDrawData)
    (mval_i : Z * Z) : CurveDrawData :=
  let normal :=
    if bool_decide (cps_surface_plane cpso = CURVE_PAINT_SURFACE_PLANE_NORMAL_VIEW)
       || bool_decide (cps_surface_plane cpso = CURVE_PAINT_SURFACE_PLANE_NORMAL_SURFACE)
    then
      match depths cdd with
      | Some d =>
        match ED_view3d_depth_read_cached_normal ops d mval_i with
        | Some normal =>
          if bool_decide (cps_surface_plane cpso = CURVE_PAINT_SURFACE_PLANE_NORMAL_VIEW)
          then
            let cross_a := cross_v3_v3v3 (viewinv_z view) normal in
            let cross_b := cross_v3_v3v3 normal cross_a in
            cross_b
          else normal
        | None => zero_v3
        end
      | None => zero_v3
      end
    else zero_v3 in
  (* CURVE_PAINT_SURFACE_PLANE_VIEW or fallback *)
  let normal := if is_zero_v3 normal then viewinv_z view else normal in
  let cdd :=
    set_project cdd
      {| use_plane := true;
         plane := plane_from_normal_point ops normal (prev_location_world_valid (prev cdd));
         use_depth := false;
         use_offset := use_offset (project cdd); offset := offset (project cdd);
         surface_offset := surface_offset (project cdd);
         use_surface_offset_absolute := use_surface_offset_absolute (project cdd) |} in
  (* Special case for when we only have offset applied on the first-hit,
     the remaining stroke must be offset too. *)
  if bool_decide (surface_offset (project cdd) <> 0) then
    let mval_fl := Float2 (IZR mval_i.1) (IZR mval_i.2) in
    (* [location_no_offset] is not initialized; the call fills it *)
    let '(found, location_no_offset, _) :=
      stroke_elem_project ops cdd mval_i mval_fl 0 0 zero_v3 None in
    if found then
      let offset' := sub_v3_v3v3 (prev_location_world_valid (prev cdd)) location_no_offset in
      set_project cdd
        {| use_plane := use_plane (project cdd); plane := plane (project cdd);
           use_depth := use_depth (project cdd);
           use_offset := if negb (is_zero_v3 offset') then true else use_offset (project cdd);
           offset := offset';
           surface_offset := surface_offset (project cdd);
           use_surface_offset_absolute := use_surface_offset_absolute (project cdd) |}
    else cdd
  else cdd.

Definition curve_draw_event_add_first (cpso : CurvePaintSettingsOp) (s : Session)
    (e : ModalEvent) : Session :=
  (* add first point *)
  let '(cdd, pool) := curve_draw_event_add ops (session_cdd s) (session_pool s) (event e) in
  let cdd :=
    if bool_decide (cps_depth_mode cpso = CURVE_PAINT_PROJECT_SURFACE)
       && use_depth (project cdd) && cps_flag_depth_stroke_endpoints cpso
    then event_add_first_plane cpso cdd (event_mval (event e))
    else cdd in
  {| session_cdd := cdd; session_pool := pool;
     state := CURVE_DRAW_PAINTING; init_event_type := event_type e |}.

(** What an operator callback returns. *)
Inductive ModalStatus := OPERATOR_RUNNING_MODAL | OPERATOR_DONE (status : wmOperatorStatus).

(** The operator between two callbacks: the session data, if any, its
    properties, and the spline list and curve of the edit object. *)
Record OperatorState := {
  customdata : option Session;
  properties : OperatorProps;
  nurblist : list Nurb;
  curve : Curve;
}.

(** [curve_draw_exec] as a callback: it leaves no session data. *)
Definition curve_draw_exec_callback (cps : CurvePaintSettings) (ob : Object)
    (st : OperatorState) : ModalStatus * OperatorState :=
  let '(status, nurblist', cu) :=
    curve_draw_exec_op ops cops cps ob
      ((fun s => (session_cdd s, session_pool s)) <$> customdata st)
      (properties st) (nurblist st) in
  (OPERATOR_DONE status,
   {| customdata := None; properties := properties st; nurblist := nurblist';
      curve := match status with OPERATOR_FINISHED => cu | OPERATOR_CANCELLED => curve st end |}).



(** Modal event handling of frame changing.  The session data is there
    while the operator runs. *)
Definition curve_draw_modal (cps : CurvePaintSettings) (cpso : CurvePaintSettingsOp)
    (ob : Object) (st : OperatorState) (s : Session) (e : ModalEvent)
    : ModalStatus * OperatorState :=
  let running (s : Session) :=
    (OPERATOR_RUNNING_MODAL,
     {| customdata := Some s; properties := properties st;
        nurblist := nurblist st; curve := curve st |}) in
  if bool_decide (event_type e = init_event_type s) then
    if bool_decide (event_val e = KM_RELEASE codes) then
      let '(op, pool) :=
        curve_draw_exec_precalc ui_scale_fac (session_cdd s) cps cpso (session_pool s)
          (properties st) in
      let op := curve_draw_stroke_to_operator op pool in
      let '(_, st') :=
        curve_draw_exec_callback cps ob
          {| customdata :=
               Some {| session_cdd := session_cdd s; session_pool := pool;
                       state := state s; init_event_type := init_event_type s |};
             properties := op; nurblist := nurblist st; curve := curve st |} in
      (OPERATOR_DONE OPERATOR_FINISHED, st')
    else running s
  else if bool_decide (event_type e = EVT_ESCKEY codes)
          || bool_decide (event_type e = RIGHTMOUSE codes) then
    (OPERATOR_DONE OPERATOR_CANCELLED,
     {| customdata := None; properties := properties st;
        nurblist := nurblist st; curve := curve st |})
  else if bool_decide (event_type e = LEFTMOUSE codes) then
    if bool_decide (event_val e = KM_PRESS codes)
    then running (curve_draw_event_add_first cpso s e)
    else running s
  else if ISMOUSE_MOTION codes (event_type e) then
    if bool_decide (state s = CURVE_DRAW_PAINTING) then
      let mval_fl :=
        Float2 (IZR (event_mval (event e)).1) (IZR (event_mval (event e)).2) in
      if bool_decide (len_squared_v2v2 mval_fl (prev_mval (prev (session_cdd s)))
                      > square_f (IZR STROKE_SAMPLE_DIST_MIN_PX))
      then
        let '(cdd, pool) :=
          curve_draw_event_add ops (session_cdd s) (session_pool s) (event e) in
        running {| session_cdd := cdd; session_pool := pool;
                   state := state s; init_event_type := init_event_type s |}
      else running s
    else running s
  else running s.

End Modal.

End CurvePaintOp.

(** ** Notions for the further properties *)

Module Notions.
Import BLI CurvePaint CurvePaintOp GeoTransform.

(** A matrix whose last row is (0, 0, 0, 1). *)
Definition affine (m : float4x4) : Prop :=
  w4 (col0 m) = 0 /\ w4 (col1 m) = 0 /\ w4 (col2 m) = 0 /\ w4 (col3 m) = 1.

(** Whether the combined matrix of a grid has a valid determinant. *)
Definition grid_determinant_valid {Curves Mesh Tree : Type} (ops : GeoOps Curves Mesh Tree)
    (transform : float4x4) (grid : VolumeGridData Tree) : bool :=
  BKE_volume_grid_determinant_valid ops
    (determinant ops (mul_m4 transform (grid_transform_matrix grid))).

(** The matrix [transform_volume] hands to [set_transform_matrix] for a
    grid: the combined matrix, with its basis reset when the determinant is
    not valid. *)
Definition grid_matrix_to_store {Curves Mesh Tree : Type} (ops : GeoOps Curves Mesh Tree)
    (transform : float4x4) (grid : VolumeGridData Tree) : float4x4 :=
  let grid_matrix := mul_m4 transform (grid_transform_matrix grid) in
  if grid_determinant_valid ops transform grid then grid_matrix
  else reset_grid_matrix ops grid_matrix (determinant ops grid_matrix).

(** A point inside a box, bounds included. *)
Definition within_bounds (b : Bounds) (p : float3) : Prop :=
  (x3 (bounds_min b) <= x3 p <= x3 (bounds_max b))
  /\ (y3 (bounds_min b) <= y3 p <= y3 (bounds_max b))
  /\ (z3 (bounds_min b) <= z3 p <= z3 (bounds_max b)).

(** [-v]. *)
Definition negate (v : float3) : float3 := Float3 (- x3 v) (- y3 v) (- z3 v).

(** A run of [curve_draw_event_add] over a list of events. *)
Definition curve_draw_events_add (ops : ViewOps) (cdd : CurveDrawData)
    (pool : list StrokeElem) (events : list wmEvent) : CurveDrawData * list StrokeElem :=
  fold_left (fun st e => curve_draw_event_add ops st.1 st.2 e) events (cdd, pool).

(** Whether the projection of the raw sample of an event finds a depth:
    [is_depth_found] of [curve_draw_event_add]. *)
Definition event_depth_found (ops : ViewOps) (cdd : CurveDrawData) (e : wmEvent) : bool :=
  (stroke_elem_project_fallback_elem ops
     (set_obedit cdd
        (set_world_to_object (obedit cdd) (invert_m4_m4 ops (object_to_world (obedit cdd)))))
     (prev_location_world_valid (prev cdd))
     {| mval := Float2 (IZR (event_mval e).1) (IZR (event_mval e).2);
        location_world := zero_v3; location_local := zero_v3;
        normal_world := zero_v3; normal_local := zero_v3;
        pressure := tablet_pressure e |}).1.

(** Two samples that differ at most in what a pressure edit writes: the
    screen position and the normals are the same. *)
Definition same_sample_place (selem selem' : StrokeElem) : Prop :=
  mval selem' = mval selem
  /\ normal_world selem' = normal_world selem
  /\ normal_local selem' = normal_local selem.

(** The session data agrees with what [curve_draw_init] makes of the
    settings and the edit object. *)
Definition session_of_settings (cdd : CurveDrawData) (cps : CurvePaintSettings)
    (ob : Object) : Prop :=
  curve_type cdd = cps_curve_type cps
  /\ radius_min (radius cdd) = cps_radius_min cps
  /\ radius_range (radius cdd) = cps_radius_max cps - cps_radius_min cps
  /\ obedit cdd = ob.

(** The settings of a session that adding samples does not change. *)
Definition same_settings (cdd cdd' : CurveDrawData) : Prop :=
  curve_type cdd' = curve_type cdd /\ project cdd' = project cdd
  /\ sample_use_substeps cdd' = sample_use_substeps cdd /\ radius cdd' = radius cdd
  /\ depths cdd' = depths cdd
  /\ object_to_world (obedit cdd') = object_to_world (obedit cdd)
  /\ data (obedit cdd') = data (obedit cdd).

(** The projection onto a plane and the one onto the depth buffer exclude
    each other, and one of them is on. *)
Definition one_projection (cdd : CurveDrawData) : Prop :=
  use_plane (project cdd) = negb (use_depth (project cdd)).

(** A sample as the operator's "stroke" property gives it back: the local
    position is computed again and the normals are gone. *)
Definition restored (world_to_object : float4x4) (selem : StrokeElem) : StrokeElem :=
  {| mval := mval selem; location_world := location_world selem;
     location_local := mul_v3_m4v3 world_to_object (location_world selem);
     normal_world := zero_v3; normal_local := zero_v3; pressure := pressure selem |}.

(** The point [p] lies on the plane [normal . p + d = 0]. *)
Definition on_plane (plane : float4) (p : float3) : Prop :=
  dot_v3v3 (Float3 (x4 plane) (y4 plane) (z4 plane)) p + w4 plane = 0.

End Notions.

(** ** Concrete data for the further properties *)

Module ExampleOp.
Import BLI CurvePaint CurvePaintOp GeoTransform Example.

Definition settings_op (detect : bool) : CurvePaintSettingsOp :=
  {| cps_fit_method := CURVE_PAINT_FIT_METHOD_SPLIT; cps_flag_corners_detect := detect;
     cps_corner_angle := 1; cps_error_threshold := 8;
     cps_depth_mode := CURVE_PAINT_PROJECT_SURFACE;
     cps_surface_plane := CURVE_PAINT_SURFACE_PLANE_VIEW;
     cps_flag_depth_stroke_endpoints := true;
     cps_flag_depth_only_selected := false |}.

Definition unset_props : OperatorProps :=
  {| op_error_threshold := None; op_fit_method := None; op_corner_angle := None;
     op_use_cyclic := None; op_stroke := None; op_wait_for_input := None |}.

Definition event_codes : EventCodes :=
  {| EVT_ESCKEY := 208; RIGHTMOUSE := 3; LEFTMOUSE := 1; KM_PRESS := 1; KM_RELEASE := 2;
     ISMOUSE_MOTION := fun t => bool_decide (t = 4)%Z |}.

Definition view_data : ViewData :=
  {| viewinv_z := Float3 0 0 1; rv3d_ofs := zero_v3; cursor_location := zero_v3;
     shading_above_wire := true;
     ED_view3d_depth_override := fun _ => Some view_depths |}.

Definition event_at (x y : Z) : wmEvent := {| event_mval := (x, y); tablet_pressure := 1 |}.

Definition modal_event (x y : Z) (type val : Z) : ModalEvent :=
  {| event := event_at x y; event_type := type; event_val := val |}.

(** A painting session started with the left mouse button. *)
Definition painting (pool : list StrokeElem) : Session :=
  {| session_cdd := session CU_BEZIER (last pool); session_pool := pool;
     state := CURVE_DRAW_PAINTING; init_event_type := 1 |}.

Definition operator_state (s : option Session) : OperatorState :=
  {| customdata := s; properties := unset_props; nurblist := [];
     CurvePaintOp.curve := Example.curve |}.

Definition point_cloud : PointCloud :=
  {| pointcloud_positions := [Float3 0 0 0; Float3 1 2 3];
     bounds_cache := Some {| bounds_min := Float3 0 0 0; bounds_max := Float3 1 2 3 |} |}.

Definition edit_hints : CurvesEditHints :=
  {| hint_positions := Some [Float3 1 0 0]; deform_mats := None;
     curves_orig_point_num := 1 |}.

Definition drawing_hints : GreasePencilDrawingEditHints :=
  {| drawing_positions := Some [Float3 1 0 0]; drawing_deform_mats := None;
     drawing_orig_points_num := 1 |}.

(** A geometry set of a point cloud, a volume of one grid and edit hints. *)
Definition geometry : GeometrySet unit unit nat :=
  {| gs_curves := None; gs_mesh := None; gs_pointcloud := Some point_cloud;
     gs_grease_pencil := None; gs_volume := Some [grid]; gs_instances := Some [ob_matrix];
     gs_curve_edit_hints := Some edit_hints;
     gs_grease_pencil_edit_hints := Some (Some [drawing_hints]);
     gs_gizmo_edit_hints := None |}.

End ExampleOp.

(** * Properties *)

(** ** Geometry transforms *)

Section GeometryFacts.
Import BLI GeoTransform.
Context {Curves Mesh Tree : Type}.
Context (WITH_OPENVDB : bool) (ops : GeoOps Curves Mesh Tree).

Abbreviation VolumeGrid := (VolumeGridData Tree).
Abbreviation Geometry := (GeometrySet Curves Mesh Tree).

Lemma is_zero_zero : is_zero (Float3 0 0 0) = true.
Proof. unfold is_zero. simpl. by rewrite !bool_decide_eq_true_2. Qed.

Lemma axis_set_axis (c : float4) (v : float3) : axis (set_axis c v) = v.
Proof. by destruct v. Qed.

Lemma transform_volume_grid_too_small_mono transform (grid : VolumeGrid) r_errors :
  volume_too_small r_errors = true ->
  volume_too_small (transform_volume_grid ops transform grid r_errors).2 = true.
Proof.
  intros H. unfold transform_volume_grid.
  destruct (BKE_volume_grid_determinant_valid ops _); simpl;
    destruct (set_transform_matrix_throws ops _); simpl; auto.
Qed.

Lemma transform_volume_grids_too_small_mono transform (grids : list VolumeGrid) r_errors :
  volume_too_small r_errors = true ->
  volume_too_small (transform_volume_grids ops transform grids r_errors).2 = true.
Proof.
  revert r_errors. induction grids as [|g grids IH]; intros e H; simpl; [done|].
  destruct (transform_volume_grid ops transform g e) as [g' e'] eqn:Eg.
  destruct (transform_volume_grids ops transform grids e') as [gs' e''] eqn:Egs.
  simpl. replace e'' with (transform_volume_grids ops transform grids e').2
    by (by rewrite Egs).
  apply IH. replace e' with (transform_volume_grid ops transform g e).2 by (by rewrite Eg).
  by apply transform_volume_grid_too_small_mono.
Qed.

(** The grid at index [i] afterwards is the loop body run on the grid at
    index [i] before, with the errors accumulated up to it; an error flagged
    there is still flagged at the end. *)
Lemma transform_volume_grids_lookup transform (grids : list VolumeGrid) r_errors i grid :
  grids !! i = Some grid ->
  exists e,
    (transform_volume_grids ops transform grids r_errors).1 !! i
      = Some (transform_volume_grid ops transform grid e).1
    /\ (volume_too_small (transform_volume_grid ops transform grid e).2 = true ->
        volume_too_small (transform_volume_grids ops transform grids r_errors).2 = true).
Proof.
  revert r_errors i. induction grids as [|g grids IH]; intros e i Hi; [done|].
  simpl.
  destruct (transform_volume_grid ops transform g e) as [g' e'] eqn:Eg.
  destruct (transform_volume_grids ops transform grids e') as [gs' e''] eqn:Egs.
  destruct i as [|i]; simpl in *.
  - inversion Hi; subst g. exists e. rewrite Eg. simpl. split; [done|].
    intros H. replace e'' with (transform_volume_grids ops transform grids e').2
      by (by rewrite Egs).
    by apply transform_volume_grids_too_small_mono.
  - destruct (IH e' i Hi) as [e0 [H1 H2]]. exists e0.
    rewrite Egs in H1, H2. simpl in *. done.
Qed.

Lemma transform_volume_grid_invalid transform (grid : VolumeGrid) r_errors :
  let grid_matrix := mul_m4 transform (grid_transform_matrix grid) in
  let det := determinant ops grid_matrix in
  BKE_volume_grid_determinant_valid ops det = false ->
  let grid' := (transform_volume_grid ops transform grid r_errors).1 in
  let errors' := (transform_volume_grid ops transform grid r_errors).2 in
  volume_too_small errors' = true
  /\ grid_tree grid' = clear_tree ops (grid_tree grid)
  /\ (set_transform_matrix_throws ops (reset_grid_matrix ops grid_matrix det) = false ->
      grid_transform_matrix grid' = reset_grid_matrix ops grid_matrix det)
  /\ (set_transform_matrix_throws ops (reset_grid_matrix ops grid_matrix det) = true ->
      grid_transform_matrix grid' = grid_transform_matrix grid
      /\ bad_volume_transform errors' = true).
Proof.
  intros grid_matrix det Hinv. unfold transform_volume_grid.
  fold grid_matrix. fold det. rewrite Hinv. simpl.
  destruct (set_transform_matrix_throws ops _); simpl; repeat split; intros; done.
Qed.

(** The loop body on one grid, and the loop, in closed form: a grid is
    changed according to its own matrix only, and an error flag is set
    when it was set before or a grid sets it. *)
Lemma transform_volume_grid_closed transform (grid : VolumeGrid) r_errors :
  transform_volume_grid ops transform grid r_errors
  = ({| grid_transform_matrix :=
          if set_transform_matrix_throws ops (Notions.grid_matrix_to_store ops transform grid)
          then grid_transform_matrix grid
          else Notions.grid_matrix_to_store ops transform grid;
        grid_tree :=
          if Notions.grid_determinant_valid ops transform grid then grid_tree grid
          else clear_tree ops (grid_tree grid) |},
     {| volume_too_small :=
          volume_too_small r_errors || negb (Notions.grid_determinant_valid ops transform grid);
        bad_volume_transform :=
          bad_volume_transform r_errors
          || set_transform_matrix_throws ops
               (Notions.grid_matrix_to_store ops transform grid) |}).
Proof.
  unfold transform_volume_grid, Notions.grid_matrix_to_store, Notions.grid_determinant_valid.
  destruct grid as [m t], r_errors as [ts bad]. cbn [grid_transform_matrix grid_tree
    volume_too_small bad_volume_transform].
  destruct (BKE_volume_grid_determinant_valid ops _); cbn;
    destruct (set_transform_matrix_throws ops _); cbn;
    by rewrite ?orb_true_r, ?orb_false_r.
Qed.

Lemma transform_volume_grids_closed transform (grids : list VolumeGrid) r_errors :
  transform_volume_grids ops transform grids r_errors
  = ((fun grid =>
        {| grid_transform_matrix :=
             if set_transform_matrix_throws ops
                  (Notions.grid_matrix_to_store ops transform grid)
             then grid_transform_matrix grid
             else Notions.grid_matrix_to_store ops transform grid;
           grid_tree :=
             if Notions.grid_determinant_valid ops transform grid then grid_tree grid
             else clear_tree ops (grid_tree grid) |}) <$> grids,
     {| volume_too_small :=
          volume_too_small r_errors
          || existsb (fun grid => negb (Notions.grid_determinant_valid ops transform grid))
               grids;
        bad_volume_transform :=
          bad_volume_transform r_errors
          || existsb (fun grid =>
                        set_transform_matrix_throws ops
                          (Notions.grid_matrix_to_store ops transform grid)) grids |}).
Proof.
  revert r_errors. induction grids as [|g grids IH]; intros e.
  - destruct e. cbn. by rewrite !orb_false_r.
  - cbn [transform_volume_grids]. rewrite transform_volume_grid_closed, IH.
    cbn. by rewrite !orb_assoc.
Qed.

(** C10: [translate_geometry] with the zero vector and [transform_geometry]
    with the identity matrix return at once: the geometry set, with all its
    components (curves, mesh, point cloud, grease pencil, volume, instances,
    edit hints), is the one passed in, and [transform_geometry] returns no
    error record. *)
Theorem translate_zero_transform_identity_noop (geometry : Geometry) :
  translate_geometry WITH_OPENVDB ops geometry (Float3 0 0 0) = geometry
  /\ transform_geometry WITH_OPENVDB ops geometry identity = (geometry, None).
Proof.
  split.
  - unfold translate_geometry. by rewrite is_zero_zero.
  - unfold transform_geometry. by rewrite bool_decide_eq_true_2.
Qed.

(** C9: with OpenVDB, for every grid of the volume whose combined matrix
    [transform * grid_matrix] has an invalid determinant, [transform_volume]
    sets [volume_too_small] in the caller's error record, clears the tree,
    and resets the basis of the matrix before storing it: the axes are
    (1,0,0), (0,1,0), (0,0,1) when the determinant is zero, and the
    normalized axes of the combined matrix otherwise; the location column is
    kept.  The grid gets the reset matrix when storing it does not throw;
    when it throws, the grid keeps the matrix it had, basis included, and
    [bad_volume_transform] is set as well.  [transform_geometry], for a
    transform other than the identity, returns the error record with
    [volume_too_small] set. *)
Theorem transform_volume_invalid_determinant_reset
    (volume : list VolumeGrid) (transform : float4x4)
    (r_errors : TransformGeometryErrors) (i : nat) (grid : VolumeGrid) :
  let grid_matrix := mul_m4 transform (grid_transform_matrix grid) in
  let det := determinant ops grid_matrix in
  let reset := reset_grid_matrix ops grid_matrix det in
  volume !! i = Some grid ->
  BKE_volume_grid_determinant_valid ops det = false ->
  (* the flag and the grid afterwards *)
  (volume_too_small (transform_volume true ops volume transform r_errors).2 = true
   /\ exists grid',
       (transform_volume true ops volume transform r_errors).1 !! i = Some grid'
       /\ grid_tree grid' = clear_tree ops (grid_tree grid)
       /\ (set_transform_matrix_throws ops reset = false ->
           grid_transform_matrix grid' = reset)
       /\ (set_transform_matrix_throws ops reset = true ->
           grid_transform_matrix grid' = grid_transform_matrix grid
           /\ bad_volume_transform (transform_volume true ops volume transform r_errors).2
              = true))
  (* the reset basis *)
  /\ (det = 0 ->
      axis (col0 reset) = Float3 1 0 0 /\ axis (col1 reset) = Float3 0 1 0
      /\ axis (col2 reset) = Float3 0 0 1)
  /\ (det <> 0 ->
      axis (col0 reset) = normalize ops (axis (col0 grid_matrix))
      /\ axis (col1 reset) = normalize ops (axis (col1 grid_matrix))
      /\ axis (col2 reset) = normalize ops (axis (col2 grid_matrix)))
  /\ col3 reset = col3 grid_matrix
  (* the caller *)
  /\ (forall geometry : Geometry,
        gs_volume geometry = Some volume -> transform <> identity ->
        exists errors,
          (transform_geometry true ops geometry transform).2 = Some errors
          /\ volume_too_small errors = true).
Proof.
  intros grid_matrix det reset Hi Hinv.
  assert (Hflag : forall e,
    volume_too_small (transform_volume true ops volume transform e).2 = true).
  { intros e. unfold transform_volume.
    destruct (transform_volume_grids_lookup transform volume e i grid Hi) as [e0 [_ H2]].
    apply H2. by apply transform_volume_grid_invalid. }
  split; [|split; [|split; [|split]]].
  - split; [apply Hflag|].
    unfold transform_volume.
    destruct (transform_volume_grids_lookup transform volume r_errors i grid Hi)
      as [e0 [H1 _]].
    eexists. split; [exact H1|].
    destruct (transform_volume_grid_invalid transform grid e0 Hinv) as (_ & Ht & Hm & Hk).
    split; [exact Ht|]. split; [exact Hm|].
    intros Hthrow. split; [by apply Hk|].
    rewrite transform_volume_grids_closed. cbn [snd bad_volume_transform].
    apply orb_true_iff. right. apply existsb_exists. exists grid.
    split; [apply list_elem_of_In; by eapply list_elem_of_lookup_2|].
    unfold Notions.grid_matrix_to_store, Notions.grid_determinant_valid.
    fold grid_matrix. fold det. rewrite Hinv. exact Hthrow.
  - intros Hz. unfold reset, reset_grid_matrix. rewrite bool_decide_eq_true_2 by done.
    simpl. by rewrite !axis_set_axis.
  - intros Hnz. unfold reset, reset_grid_matrix. rewrite bool_decide_eq_false_2 by done.
    simpl. by rewrite !axis_set_axis.
  - unfold reset, reset_grid_matrix. by case_bool_decide.
  - intros geometry Hvol Hne. unfold transform_geometry.
    rewrite bool_decide_eq_false_2 by done. rewrite Hvol.
    specialize (Hflag no_errors).
    destruct (transform_volume true ops volume transform no_errors) as [v' e'].
    simpl in *. rewrite Hflag. simpl. eauto.
Qed.

End GeometryFacts.

(** ** Removing doubles *)

Section RemoveDoubles.
Import CurvePaint Spec.
Context {A : Type} `{EqDecision A}.

Lemma remove_doubles_step_last (st : list A * Z) (row : A) :
  last (remove_doubles_step st row).1 = Some row.
Proof.
  destruct st as [coords n]. unfold remove_doubles_step.
  destruct (last coords) as [p|] eqn:El.
  - case_bool_decide; simpl; [by subst|by rewrite last_snoc].
  - simpl. by rewrite last_snoc.
Qed.

Lemma remove_doubles_step_double (coords : list A) (n : Z) (row : A) :
  last coords = Some row -> remove_doubles_step (coords, n) row = (coords, (n - 1)%Z).
Proof. intros El. unfold remove_doubles_step. rewrite El. by rewrite bool_decide_eq_true_2. Qed.

Lemma remove_doubles_step_shift (coords : list A) (n : Z) (row : A) (k : Z) :
  remove_doubles_step (coords, (n + k)%Z) row
  = ((remove_doubles_step (coords, n) row).1,
     ((remove_doubles_step (coords, n) row).2 + k)%Z).
Proof.
  unfold remove_doubles_step.
  destruct (last coords); [case_bool_decide|]; simpl; f_equal; lia.
Qed.

Lemma remove_doubles_fold_shift (rows : list A) (coords : list A) (n : Z) (k : Z) :
  fold_left remove_doubles_step rows (coords, (n + k)%Z)
  = ((fold_left remove_doubles_step rows (coords, n)).1,
     ((fold_left remove_doubles_step rows (coords, n)).2 + k)%Z).
Proof.
  revert coords n. induction rows as [|row rows IH]; intros coords n.
  - done.
  - cbn [fold_left]. rewrite remove_doubles_step_shift.
    destruct (remove_doubles_step (coords, n) row) as [coords' n'].
    cbn [fst snd]. apply IH.
Qed.

Lemma remove_doubles_fold_last (rows : list A) (row : A) (st : list A * Z) :
  last (fold_left remove_doubles_step (rows ++ [row]) st).1 = Some row.
Proof. rewrite fold_left_app. simpl. apply remove_doubles_step_last. Qed.

Lemma no_adjacent_doubles_snoc (coords : list A) (row : A) :
  no_adjacent_doubles coords ->
  (forall p, last coords = Some p -> p <> row) ->
  no_adjacent_doubles (coords ++ [row]).
Proof.
  intros Hc Hl i a b Ha Hb.
  destruct (decide (S i < length coords)%nat) as [Hlt|Hge].
  - rewrite lookup_app_l in Ha by lia. rewrite lookup_app_l in Hb by lia. eauto.
  - destruct (decide (S i = length coords)) as [Heq|Hne].
    + rewrite lookup_app_l in Ha by lia.
      rewrite lookup_app_r in Hb by lia.
      replace (S i - length coords)%nat with 0%nat in Hb by lia.
      simpl in Hb. inversion Hb; subst b.
      apply Hl. rewrite last_lookup. rewrite <- Heq. done.
    + apply lookup_lt_Some in Hb. rewrite length_app in Hb. simpl in Hb. lia.
Qed.

Lemma remove_doubles_step_no_adjacent (st : list A * Z) (row : A) :
  no_adjacent_doubles st.1 -> no_adjacent_doubles (remove_doubles_step st row).1.
Proof.
  destruct st as [coords n]. simpl. intros Hc. unfold remove_doubles_step.
  destruct (last coords) as [p|] eqn:El.
  - case_bool_decide as Hd; simpl; [done|].
    apply no_adjacent_doubles_snoc; [done|]. intros q Hq. congruence.
  - simpl. apply no_adjacent_doubles_snoc; [done|]. intros q Hq. congruence.
Qed.

Lemma remove_doubles_fold_no_adjacent (rows : list A) (st : list A * Z) :
  no_adjacent_doubles st.1 ->
  no_adjacent_doubles (fold_left remove_doubles_step rows st).1.
Proof.
  revert st. induction rows as [|row rows IH]; intros st Hst; simpl; [done|].
  apply IH. by apply remove_doubles_step_no_adjacent.
Qed.

Lemma remove_doubles_no_adjacent (rows : list A) (stroke_len : Z) :
  no_adjacent_doubles (remove_doubles rows stroke_len).1.
Proof.
  unfold remove_doubles. apply remove_doubles_fold_no_adjacent.
  intros i a b Ha. done.
Qed.

(** A row repeated next to itself, with [stroke_len] one larger, leaves the
    same rows and the same [stroke_len]. *)
Lemma remove_doubles_insert_double (rows1 rows2 : list A) (row : A) (stroke_len : Z) :
  remove_doubles (rows1 ++ row :: row :: rows2) (stroke_len + 1)
  = remove_doubles (rows1 ++ row :: rows2) stroke_len.
Proof.
  unfold remove_doubles.
  replace (rows1 ++ row :: row :: rows2) with ((rows1 ++ [row]) ++ row :: rows2)
    by (by rewrite <- app_assoc).
  replace (rows1 ++ row :: rows2) with ((rows1 ++ [row]) ++ rows2)
    by (by rewrite <- app_assoc).
  rewrite (fold_left_app _ (rows1 ++ [row]) (row :: rows2)).
  rewrite (fold_left_app _ (rows1 ++ [row]) rows2).
  rewrite (remove_doubles_fold_shift (rows1 ++ [row]) [] stroke_len 1).
  pose proof (remove_doubles_fold_last rows1 row ([], stroke_len)) as Hl.
  destruct (fold_left remove_doubles_step (rows1 ++ [row]) ([], stroke_len))
    as [coords n] eqn:E.
  cbn [fst snd fold_left] in *. rewrite remove_doubles_step_double by done.
  do 2 f_equal. lia.
Qed.

(** [stroke_len] counts the rows that are kept. *)
Lemma remove_doubles_fold_len (rows : list A) (st : list A * Z) :
  ((fold_left remove_doubles_step rows st).2
   = st.2 - Z.of_nat (length rows)
     + (Z.of_nat (length (fold_left remove_doubles_step rows st).1)
        - Z.of_nat (length st.1)))%Z.
Proof.
  revert st. induction rows as [|row rows IH]; intros st; simpl; [lia|].
  rewrite IH. destruct st as [coords n]. unfold remove_doubles_step.
  destruct (last coords); [case_bool_decide|]; simpl; rewrite ?length_app; simpl; lia.
Qed.

Lemma remove_doubles_len (rows : list A) :
  (remove_doubles rows (Z.of_nat (length rows))).2
  = Z.of_nat (length (remove_doubles rows (Z.of_nat (length rows))).1).
Proof. unfold remove_doubles. rewrite remove_doubles_fold_len. simpl. lia. Qed.

(** The loop keeps a row exactly when it differs from the row kept before
    it: the rows and [stroke_len] afterwards, from those given. *)
Lemma remove_doubles_fold_coalesce (rows : list A) :
  forall (coords : list A) (row_prev : A) (n : Z),
    fold_left remove_doubles_step rows (coords ++ [row_prev], n)
    = (coords ++ [row_prev] ++ coalesce_after row_prev rows,
       (n - Z.of_nat (length rows) + Z.of_nat (length (coalesce_after row_prev rows)))%Z).
Proof.
  induction rows as [|row rows IH]; intros coords row_prev n.
  - cbn. f_equal. lia.
  - cbn [fold_left coalesce_after]. unfold remove_doubles_step at 2.
    rewrite last_snoc. case_bool_decide as Heq.
    + rewrite IH. f_equal. cbn [length]. lia.
    + rewrite (IH (coords ++ [row_prev]) row n). f_equal.
      * by rewrite <- app_assoc.
      * cbn [length]. lia.
Qed.

Lemma remove_doubles_coalesce (rows : list A) :
  remove_doubles rows (Z.of_nat (length rows))
  = (coalesce rows, Z.of_nat (length (coalesce rows))).
Proof.
  destruct rows as [|row rows]; [done|].
  unfold remove_doubles. cbn [fold_left]. unfold remove_doubles_step at 2. cbn [last].
  rewrite (remove_doubles_fold_coalesce rows [] row). cbn [app coalesce length].
  f_equal. lia.
Qed.

Lemma coalesce_after_split (rows1 rows2 : list A) (a b : A) :
  a <> b ->
  forall row_prev,
    coalesce_after row_prev (rows1 ++ a :: b :: rows2)
    = coalesce_after row_prev (rows1 ++ [a]) ++ b :: coalesce_after b rows2.
Proof.
  intros Hab. induction rows1 as [|row rows1 IH]; intros row_prev.
  - cbn. case_bool_decide as Ha.
    + subst row_prev. by rewrite bool_decide_eq_false_2 by (by intros ->).
    + by rewrite bool_decide_eq_false_2 by (by intros ->).
  - cbn. case_bool_decide; cbn; by rewrite IH.
Qed.

(** Two neighbours that differ are both kept: the rows split between
    them. *)
Lemma coalesce_split (rows1 rows2 : list A) (a b : A) :
  a <> b ->
  coalesce (rows1 ++ a :: b :: rows2) = coalesce (rows1 ++ [a]) ++ coalesce (b :: rows2).
Proof.
  intros Hab. destruct rows1 as [|row rows1]; cbn.
  - by rewrite bool_decide_eq_false_2 by (by intros ->).
  - by rewrite coalesce_after_split.
Qed.

Lemma coalesce_after_elem (rows : list A) :
  forall (row_prev row : A),
    row ∈ rows -> row = row_prev \/ row ∈ coalesce_after row_prev rows.
Proof.
  induction rows as [|r rows IH]; intros row_prev row Hin; [by apply elem_of_nil in Hin|].
  cbn. apply elem_of_cons in Hin as [->|Hin].
  - case_bool_decide; [by left|]. right. by left.
  - case_bool_decide as Heq.
    + by apply IH.
    + destruct (IH r row Hin) as [->|Hr]; right; [by left|by right].
Qed.

(** No row is lost but as the double of a row that is kept. *)
Lemma coalesce_elem (rows : list A) (row : A) : row ∈ rows -> row ∈ coalesce rows.
Proof.
  destruct rows as [|r rows]; [done|]. cbn. intros Hin.
  apply elem_of_cons in Hin as [->|Hin]; [by left|].
  destruct (coalesce_after_elem rows r row Hin) as [->|Hr]; [by left|by right].
Qed.

End RemoveDoubles.

(** ** Curve construction *)

Section ExecFacts.
Import BLI CurvePaint Spec.
Context (ops : ViewOps) (cops : CurveOps).

Lemma bezt_free_corners_sublist (corners : list nat) (i_start n : nat)
    (bezt : list BezTriple) :
  bezt_free_corners corners i_start (i_start + n) bezt
  = fold_left (fun bezt k => alter bezt_set_free k bezt)
      (take n (drop i_start corners)) bezt.
Proof.
  unfold bezt_free_corners. replace (i_start + n - i_start)%nat with n by lia.
  revert i_start bezt. induction n as [|n IH]; intros i_start bz; [done|].
  cbn [seq fold_left].
  destruct (corners !! i_start) as [k|] eqn:Ek.
  - rewrite (drop_S _ _ _ Ek). cbn [take fold_left]. apply IH.
  - rewrite drop_ge by (by apply lookup_ge_None). cbn [take fold_left].
    rewrite IH. rewrite drop_ge; [by rewrite take_nil|].
    apply lookup_ge_None in Ek. lia.
Qed.

Lemma fold_alter_set_free_lookup (ks : list nat) (bezt : list BezTriple) (j : nat) :
  fold_left (fun bezt k => alter bezt_set_free k bezt) ks bezt !! j
  = if bool_decide (j ∈ ks) then bezt_set_free <$> bezt !! j else bezt !! j.
Proof.
  revert bezt. induction ks as [|k ks IH]; intros bz; cbn [fold_left].
  - rewrite bool_decide_eq_false_2; [done|]. apply not_elem_of_nil.
  - rewrite IH. destruct (decide (j = k)) as [->|Hne].
    + rewrite list_lookup_alter_eq.
      rewrite (bool_decide_eq_true_2 (k ∈ k :: ks)) by (apply elem_of_cons; auto).
      case_bool_decide; destruct (bz !! k) as [[]|]; done.
    + rewrite list_lookup_alter_ne by done.
      case_bool_decide as H1; case_bool_decide as H2; try done.
      * exfalso. apply H2. by apply elem_of_cons; right.
      * exfalso. apply elem_of_cons in H2 as [?|?]; done.
Qed.

Lemma corner_range_sublist (corners : list nat) (calc_flag : CalcFlag) :
  let '(i_start, i_end) := corner_range (length corners) calc_flag in
  (i_start <= i_end)%nat
  /\ take (i_end - i_start) (drop i_start corners)
     = free_corner_indices corners (calc_cyclic calc_flag).
Proof.
  unfold corner_range, free_corner_indices.
  destruct (bool_decide (2 <= length corners)%nat && negb (calc_cyclic calc_flag)) eqn:E.
  - apply andb_true_iff in E as [E _]. apply bool_decide_eq_true in E.
    split; [lia|]. rewrite take_drop_commute. f_equal. f_equal. lia.
  - split; [lia|]. rewrite drop_0. rewrite Nat.sub_0_r. by rewrite take_ge.
Qed.

(** The handle types the block after a successful fit leaves behind. *)
Lemma curve_draw_exec_fit_to_nurb_handles (cdd : CurveDrawData) (radius_index : option nat)
    (radius_max : R) (calc_flag : CalcFlag) (fit : FitResult) (nu : Nurb) :
  exists bz,
    bezt (curve_draw_exec_fit_to_nurb cdd radius_index radius_max calc_flag fit nu) = Some bz
    /\ length bz = length (cubic_spline fit)
    /\ forall j b, bz !! j = Some b ->
        h1 b = h2 b
        /\ h1 b =
           if bool_decide (j ∈ free_corner_indices (default [] (corners_index fit))
                                 (calc_cyclic calc_flag))
           then HD_FREE else HD_ALIGN.
Proof.
  unfold curve_draw_exec_fit_to_nurb. cbn [bezt].
  set (bz0 := bezt_of_knot cdd radius_index radius_max <$> cubic_spline fit).
  assert (H0 : forall j b, bz0 !! j = Some b -> h1 b = HD_ALIGN /\ h2 b = HD_ALIGN).
  { intros j b Hj. unfold bz0 in Hj. rewrite list_lookup_fmap in Hj.
    destruct (cubic_spline fit !! j) as [[[hl pt] hr]|]; inversion Hj. done. }
  destruct (corners_index fit) as [corners|]; unfold default, from_option, Datatypes.id.
  - pose proof (corner_range_sublist corners calc_flag) as Hr.
    destruct (corner_range (length corners) calc_flag) as [i_start i_end].
    destruct Hr as [Hle Hsub].
    replace i_end with (i_start + (i_end - i_start))%nat by lia.
    rewrite bezt_free_corners_sublist.
    replace (i_start + (i_end - i_start) - i_start)%nat
      with (i_end - i_start)%nat in Hsub by lia.
    rewrite Hsub. eexists. split; [done|]. split.
    + assert (Hlen : forall ks (l : list BezTriple),
        length (fold_left (fun bezt k => alter bezt_set_free k bezt) ks l) = length l).
      { induction ks as [|k ks IH]; intros l; cbn [fold_left]; [done|].
        rewrite IH. apply length_alter. }
      rewrite Hlen. unfold bz0. apply length_fmap.
    + intros j b Hj. rewrite fold_alter_set_free_lookup in Hj.
      destruct (bool_decide (j ∈ free_corner_indices corners (calc_cyclic calc_flag))).
      * destruct (bz0 !! j) as [b0|]; inversion Hj. done.
      * destruct (H0 j b Hj) as [-> ->]. done.
  - exists bz0. split; [done|]. split; [apply length_fmap|].
    intros j b Hj. destruct (H0 j b Hj) as [-> ->].
    rewrite bool_decide_eq_false_2; [done|].
    unfold free_corner_indices. simpl. apply not_elem_of_nil.
Qed.

(** C4: after a successful fit every fitted point has both handle types
    equal, [HD_FREE] for the points whose index is among the corner indices
    returned by the fit and [HD_ALIGN] for all others; the first and the
    last corner index are left out exactly when the fit was not cyclic and
    at least two corner indices were returned. *)
Theorem fitted_points_handle_types (cdd : CurveDrawData) (op : DrawProps)
    (use_radius : bool) (radius_max : R) (pool : list StrokeElem) (stroke_len : Z)
    (nu : Nurb) :
  let calc_flag := (curve_draw_exec_fit cops op use_radius pool stroke_len).1 in
  let fit := (curve_draw_exec_fit cops op use_radius pool stroke_len).2 in
  let corners := default [] (corners_index fit) in
  fit_result fit = 0%Z ->
  (exists bz,
     bezt (curve_draw_exec_bezier cops cdd op use_radius radius_max pool stroke_len nu)
       = Some bz
     /\ length bz = length (cubic_spline fit)
     /\ forall j b, bz !! j = Some b ->
         h1 b = h2 b
         /\ h1 b =
            if bool_decide (j ∈ free_corner_indices corners (calc_cyclic calc_flag))
            then HD_FREE else HD_ALIGN)
  /\ (calc_cyclic calc_flag = false -> (2 <= length corners)%nat ->
      free_corner_indices corners (calc_cyclic calc_flag)
      = drop 1 (take (length corners - 1) corners))
  /\ (calc_cyclic calc_flag = true \/ (length corners < 2)%nat ->
      free_corner_indices corners (calc_cyclic calc_flag) = corners)
  /\ calc_cyclic calc_flag
     = bool_decide ((stroke_coords use_radius pool stroke_len).2 > 2)%Z && use_cyclic op.
Proof.
  intros calc_flag fit corners Hres. split; [|split; [|split]];
    [| | |subst calc_flag; unfold curve_draw_exec_fit;
          by destruct (stroke_coords use_radius pool stroke_len)].
  - unfold curve_draw_exec_bezier.
    subst calc_flag fit corners.
    destruct (curve_draw_exec_fit cops op use_radius pool stroke_len) as [cf ft].
    cbn [fst snd] in *. rewrite bool_decide_eq_true_2 by done.
    apply curve_draw_exec_fit_to_nurb_handles.
  - intros Hc Hl. unfold free_corner_indices. rewrite Hc.
    by rewrite bool_decide_eq_true_2.
  - intros [Hc|Hl]; unfold free_corner_indices.
    + rewrite Hc. by rewrite andb_false_r.
    + rewrite bool_decide_eq_false_2; [done|lia].
Qed.

(** What [curve_draw_exec] returns once the session data is there. *)
Lemma curve_draw_exec_finished (cps : CurvePaintSettings) (ob : Object)
    (customdata : option (CurveDrawData * list StrokeElem)) (op : DrawProps)
    (nurblist : list Nurb) (cdd : CurveDrawData) (pool : list StrokeElem) :
  curve_draw_exec_session ops cps ob customdata op = Some (cdd, pool) ->
  (curve_draw_exec ops cops cps ob customdata op nurblist).1
  = (OPERATOR_FINISHED,
     (ED_curve_deselect_all cops <$> nurblist) ++ [curve_draw_exec_nurb cops cdd cps op pool]).
Proof. intros Hs. unfold curve_draw_exec. by rewrite Hs. Qed.

(** The spline of the Bezier branch when the fit call fails. *)
Lemma curve_draw_exec_nurb_fit_failure (cdd : CurveDrawData) (cps : CurvePaintSettings)
    (op : DrawProps) (pool : list StrokeElem) :
  curve_type cdd = CU_BEZIER ->
  fit_result (curve_draw_exec_fit cops op (use_pressure_radius cps) pool
                (Z.of_nat (length pool))).2 <> 0%Z ->
  exists nu,
    curve_draw_exec_nurb cops cdd cps op pool = BKE_nurb_handles_calc cops nu
    /\ nu_type nu = CU_BEZIER /\ pntsu nu = 0%Z /\ bezt nu = None /\ bp nu = None.
Proof.
  intros Ht Hf. unfold curve_draw_exec_nurb.
  rewrite bool_decide_eq_true_2 by done.
  unfold curve_draw_exec_bezier.
  destruct (curve_draw_exec_fit cops op (use_pressure_radius cps) pool
              (Z.of_nat (length pool))) as [cf ft].
  cbn [snd] in Hf. rewrite bool_decide_eq_false_2 by done.
  eexists. split; [reflexivity|]. done.
Qed.

(** C1, as the code has it: in Bezier mode, when the fit call returns a
    non-zero status, no control point is made, but the spline is appended
    all the same: the spline list afterwards is the list before (its
    splines deselected) followed by one spline without points ([pntsu] is
    zero and no point array is allocated), so its count grows by one. *)
Theorem fit_failure_appends_empty_spline (cps : CurvePaintSettings) (ob : Object)
    (customdata : option (CurveDrawData * list StrokeElem)) (op : DrawProps)
    (nurblist : list Nurb) (cdd : CurveDrawData) (pool : list StrokeElem) :
  curve_draw_exec_session ops cps ob customdata op = Some (cdd, pool) ->
  curve_type cdd = CU_BEZIER ->
  fit_result (curve_draw_exec_fit cops op (use_pressure_radius cps) pool
                (Z.of_nat (length pool))).2 <> 0%Z ->
  exists nu,
    (curve_draw_exec ops cops cps ob customdata op nurblist).1
    = (OPERATOR_FINISHED,
       (ED_curve_deselect_all cops <$> nurblist) ++ [BKE_nurb_handles_calc cops nu])
    /\ pntsu nu = 0%Z /\ bezt nu = None /\ bp nu = None
    /\ length (curve_draw_exec ops cops cps ob customdata op nurblist).1.2
       = S (length nurblist).
Proof.
  intros Hs Ht Hf.
  destruct (curve_draw_exec_nurb_fit_failure cdd cps op pool Ht Hf)
    as (nu & Hnu & _ & Hp & Hb & Hbp).
  exists nu. rewrite (curve_draw_exec_finished _ _ _ _ _ _ _ Hs). rewrite Hnu.
  repeat split; try done.
  cbn [snd]. rewrite length_app, length_fmap. simpl. lia.
Qed.

(** The points of the poly branch. *)
Lemma curve_draw_exec_nurb_poly (cdd : CurveDrawData) (cps : CurvePaintSettings)
    (op : DrawProps) (pool : list StrokeElem) :
  curve_type cdd <> CU_BEZIER ->
  let nu := curve_draw_exec_nurb cops cdd cps op pool in
  nu_type nu = CU_POLY
  /\ pntsu nu = Z.of_nat (length pool)
  /\ bp nu = Some (bpoint_of_elem cps (cu_is_3d (data (obedit cdd)))
                     (use_pressure_radius cps) <$> pool).
Proof.
  intros Ht. unfold curve_draw_exec_nurb. by rewrite bool_decide_eq_false_2.
Qed.

(** C2, as the code has it: in poly mode the spline has exactly one control
    point per sample of the pool, in the order of the pool, and the radius
    of a point is [pressure * (max - min) + min] of its sample when the
    pressure radius is in use (the flag of the settings, or a taper), and
    [max] otherwise; the bevel radius of the curve does not enter. *)
Theorem poly_points_per_sample (cdd : CurveDrawData) (cps : CurvePaintSettings)
    (op : DrawProps) (pool : list StrokeElem) :
  curve_type cdd <> CU_BEZIER ->
  exists points,
    bp (curve_draw_exec_nurb cops cdd cps op pool) = Some points
    /\ pntsu (curve_draw_exec_nurb cops cdd cps op pool) = Z.of_nat (length pool)
    /\ length points = length pool
    /\ forall i selem, pool !! i = Some selem ->
        exists point,
          points !! i = Some point
          /\ bp_vec point
             = Float4 (x3 (location_local selem)) (y3 (location_local selem))
                 (if cu_is_3d (data (obedit cdd)) then z3 (location_local selem) else 0) 1
          /\ bp_radius point
             = if use_pressure_radius cps
               then pressure selem * (cps_radius_max cps - cps_radius_min cps)
                    + cps_radius_min cps
               else cps_radius_max cps.
Proof.
  intros Ht. destruct (curve_draw_exec_nurb_poly cdd cps op pool Ht) as (_ & Hn & Hb).
  eexists. split; [exact Hb|]. split; [exact Hn|]. split; [apply length_fmap|].
  intros i selem Hi. eexists. rewrite list_lookup_fmap, Hi. split; [reflexivity|].
  done.
Qed.

(** C6: the coordinates handed to the fit call are the feature vectors of
    the samples (local position and, with the pressure channel, pressure)
    with consecutive identical vectors coalesced, and [stroke_len] is their
    number: no two neighbours are equal, no vector is lost but as the double
    of the one kept before it, and two neighbours that differ, be it in the
    pressure alone when it is a channel, are both kept.  A sample with the
    position and pressure of the sample before it changes neither the
    coordinates nor [stroke_len], and so neither the fit nor the spline that
    is made, nor anything else [curve_draw_exec] returns. *)
Theorem remove_doubles_before_fit (use_radius : bool) (pool1 pool2 : list StrokeElem)
    (selem selem' : StrokeElem) (cdd : CurveDrawData) (cps : CurvePaintSettings)
    (ob : Object) (op : DrawProps) (nurblist : list Nurb) :
  let pool := pool1 ++ selem :: pool2 in
  let pool' := pool1 ++ selem :: selem' :: pool2 in
  let coords := coalesce (feature_vector use_radius <$> pool) in
  let stroke_len := Z.of_nat (length coords) in
  let dims := if use_radius then 4%Z else 3%Z in
  let calc_flag :=
    {| calc_high_quality := true;
       calc_cyclic := bool_decide (stroke_len > 2)%Z && use_cyclic op |} in
  location_local selem' = location_local selem ->
  pressure selem' = pressure selem ->
  curve_type cdd = CU_BEZIER ->
  (* the coordinates of a stroke *)
  (forall samples : list StrokeElem,
     stroke_coords use_radius samples (Z.of_nat (length samples))
     = (coalesce (feature_vector use_radius <$> samples),
        Z.of_nat (length (coalesce (feature_vector use_radius <$> samples)))))
  /\ no_adjacent_doubles coords
  /\ (forall sample, sample ∈ pool -> feature_vector use_radius sample ∈ coords)
  /\ (forall (samples1 samples2 : list StrokeElem) (a b : StrokeElem),
        feature_vector use_radius a <> feature_vector use_radius b ->
        (stroke_coords use_radius (samples1 ++ a :: b :: samples2)
           (Z.of_nat (length (samples1 ++ a :: b :: samples2)))).1
        = (stroke_coords use_radius (samples1 ++ [a])
             (Z.of_nat (length (samples1 ++ [a])))).1
          ++ (stroke_coords use_radius (b :: samples2)
                (Z.of_nat (length (b :: samples2)))).1)
  /\ (forall a b : StrokeElem,
        pressure a <> pressure b -> feature_vector true a <> feature_vector true b)
  (* what the fit is called with *)
  /\ (curve_draw_exec_fit cops op use_radius pool (Z.of_nat (length pool))).2
     = (if bool_decide (fit_method op = CURVE_PAINT_FIT_METHOD_REFIT)
        then curve_fit_cubic_to_points_refit_fl cops coords stroke_len dims
               (error_threshold op) calc_flag (corner_angle op)
        else curve_fit_cubic_to_points_fl cops coords stroke_len dims
               (error_threshold op) calc_flag
               (if bool_decide (fit_method op = CURVE_PAINT_FIT_METHOD_SPLIT)
                   && bool_decide (corner_angle op < PI)
                then curve_fit_corners_detect_fl cops coords stroke_len dims
                       (error_threshold op / 8) (error_threshold op * 2) 16
                       (corner_angle op)
                else None))
  (* the double changes nothing *)
  /\ stroke_coords use_radius pool' (Z.of_nat (length pool'))
     = stroke_coords use_radius pool (Z.of_nat (length pool))
  /\ curve_draw_exec_fit cops op use_radius pool' (Z.of_nat (length pool'))
     = curve_draw_exec_fit cops op use_radius pool (Z.of_nat (length pool))
  /\ curve_draw_exec ops cops cps ob (Some (cdd, pool')) op nurblist
     = curve_draw_exec ops cops cps ob (Some (cdd, pool)) op nurblist.
Proof.
  intros pool pool' coords stroke_len dims calc_flag Hl Hp Ht.
  assert (Hrow : forall u, stroke_coords_row u selem' = stroke_coords_row u selem).
  { intros u. unfold stroke_coords_row. by rewrite Hl, Hp. }
  assert (Hc : forall u, stroke_coords u pool' (Z.of_nat (length pool'))
                         = stroke_coords u pool (Z.of_nat (length pool))).
  { intros u. unfold stroke_coords, pool, pool'. rewrite !fmap_app, !fmap_cons, Hrow.
    replace (Z.of_nat (length (pool1 ++ selem :: selem' :: pool2)))
      with (Z.of_nat (length (pool1 ++ selem :: pool2)) + 1)%Z
      by (rewrite !length_app; simpl; lia).
    apply remove_doubles_insert_double. }
  assert (Hf : forall u, curve_draw_exec_fit cops op u pool' (Z.of_nat (length pool'))
                         = curve_draw_exec_fit cops op u pool (Z.of_nat (length pool))).
  { intros u. unfold curve_draw_exec_fit. by rewrite Hc. }
  assert (Hspec : forall samples : list StrokeElem,
            stroke_coords use_radius samples (Z.of_nat (length samples))
            = (coalesce (feature_vector use_radius <$> samples),
               Z.of_nat (length (coalesce (feature_vector use_radius <$> samples))))).
  { intros samples. unfold stroke_coords.
    change (stroke_coords_row use_radius <$> samples)
      with (feature_vector use_radius <$> samples).
    rewrite <- (length_fmap (feature_vector use_radius) samples).
    apply remove_doubles_coalesce. }
  split; [exact Hspec|]. split.
  { pose proof (remove_doubles_no_adjacent (feature_vector use_radius <$> pool)
                  (Z.of_nat (length (feature_vector use_radius <$> pool)))) as Hn.
    by rewrite remove_doubles_coalesce in Hn. }
  split.
  { intros sample Hin. apply coalesce_elem. by apply list_elem_of_fmap_2. }
  split.
  { intros samples1 samples2 a b Hab. rewrite !Hspec. cbn [fst].
    rewrite !fmap_app, !fmap_cons. by apply coalesce_split. }
  split.
  { intros a b Hab. unfold feature_vector. cbn. intros [= _ _ _ Hpr]. by apply Hab. }
  split.
  { unfold curve_draw_exec_fit. rewrite Hspec. fold coords stroke_len. cbn [snd].
    fold dims. fold calc_flag. done. }
  split; [apply Hc|]. split; [apply Hf|].
  unfold curve_draw_exec, curve_draw_exec_session.
  assert (Hn : curve_draw_exec_nurb cops
                 (set_obedit cdd (set_world_to_object (obedit cdd)
                    (invert_m4_m4 ops (object_to_world (obedit cdd))))) cps op pool'
               = curve_draw_exec_nurb cops
                 (set_obedit cdd (set_world_to_object (obedit cdd)
                    (invert_m4_m4 ops (object_to_world (obedit cdd))))) cps op pool).
  { unfold curve_draw_exec_nurb. cbn [curve_type set_obedit].
    rewrite !bool_decide_eq_true_2 by done.
    unfold curve_draw_exec_bezier. by rewrite Hf. }
  unfold pool, pool' in *.
  destruct pool1; cbn [app]; cbn [app] in Hn; by rewrite Hn.
Qed.

End ExecFacts.

(** ** Projection and local/world consistency *)

Section ProjectFacts.
Import BLI CurvePaint Spec.
Context (ops : ViewOps).

Lemma uint_of_int_lt (i w : Z) :
  (- 2 ^ 31 <= i < 2 ^ 31)%Z -> (0 <= w <= 2 ^ 31)%Z ->
  (uint_of_int i < w)%Z -> (0 <= i < w)%Z.
Proof.
  unfold uint_of_int. intros Hi Hw Hlt.
  destruct (Z_lt_le_dec i 0) as [Hneg|Hpos].
  - replace (i mod 2 ^ 32)%Z with (i + 2 ^ 32)%Z in Hlt; [lia|].
    apply Z.mod_unique with (q := (-1)%Z); lia.
  - rewrite Z.mod_small in Hlt; lia.
Qed.

(** What a successful projection onto the depth buffer went through. *)
Lemma stroke_elem_project_depth_found (cdd : CurveDrawData) (mval_i : Z * Z)
    (mval_fl : float2) (surface_offset radius : R) (loc : float3) (nor : option float3) :
  use_plane (project cdd) = false ->
  (stroke_elem_project ops cdd mval_i mval_fl surface_offset radius loc nor).1.1 = true ->
  exists d,
    depths cdd = Some d
    /\ (uint_of_int mval_i.1 < depths_w d)%Z
    /\ (uint_of_int mval_i.2 < depths_h d)%Z
    /\ (depth_range d).1 < ED_view3d_depth_read_cached ops d mval_i 0 1
       < (depth_range d).2.
Proof.
  intros Hp. unfold stroke_elem_project. rewrite Hp.
  destruct (depths cdd) as [d|]; [|done].
  destruct (bool_decide (uint_of_int mval_i.1 < depths_w d)%Z) eqn:E1; [|done].
  destruct (bool_decide (uint_of_int mval_i.2 < depths_h d)%Z) eqn:E2; [|done].
  cbn [andb].
  destruct (bool_decide (ED_view3d_depth_read_cached ops d mval_i 0 1 > (depth_range d).1))
    eqn:E3; [|done].
  destruct (bool_decide (ED_view3d_depth_read_cached ops d mval_i 0 1 < (depth_range d).2))
    eqn:E4; [|done].
  intros _. exists d.
  apply bool_decide_eq_true in E1, E2, E3, E4. repeat split; try done; lra.
Qed.

(** The outputs of [stroke_elem_project_fallback]. *)
Lemma stroke_elem_project_fallback_outputs (cdd : CurveDrawData) (mval_i : Z * Z)
    (mval_fl : float2) (surface_offset radius : R) (fallback_depth : float3)
    (loc_world loc_local nor_world nor_local : float3) :
  let found :=
    (stroke_elem_project ops cdd mval_i mval_fl surface_offset radius loc_world
       (Some nor_world)).1.1 in
  let r :=
    stroke_elem_project_fallback ops cdd mval_i mval_fl surface_offset radius
      fallback_depth loc_world loc_local nor_world nor_local in
  r.1.1.1.1 = found
  /\ (found = false -> r.1.1.1.2 = ED_view3d_win_to_3d ops fallback_depth mval_fl)
  /\ r.1.1.2 = mul_v3_m4v3 (world_to_object (obedit cdd)) r.1.1.1.2.
Proof.
  unfold stroke_elem_project_fallback.
  destruct (stroke_elem_project ops cdd mval_i mval_fl surface_offset radius loc_world
              (Some nor_world)) as [[found lw] nw].
  cbn [fst snd]. repeat split. by intros ->.
Qed.

Lemma stroke_elem_project_fallback_elem_fields (cdd : CurveDrawData)
    (fallback_depth : float3) (selem : StrokeElem) :
  let selem' := (stroke_elem_project_fallback_elem ops cdd fallback_depth selem).2 in
  mval selem' = mval selem
  /\ pressure selem' = pressure selem
  /\ location_local selem'
     = mul_v3_m4v3 (world_to_object (obedit cdd)) (location_world selem').
Proof.
  unfold stroke_elem_project_fallback_elem.
  match goal with |- context [stroke_elem_project_fallback ?a ?b ?c ?d ?e ?f ?g ?h ?i ?j ?k] =>
    pose proof (stroke_elem_project_fallback_outputs b c d e f g h i j k) as Ho;
    destruct (stroke_elem_project_fallback a b c d e f g h i j k)
      as [[[[found lw] ll] nw] nl] end.
  cbn [fst snd] in *. destruct Ho as (_ & _ & Hl). done.
Qed.

(** C7: in depth-buffer mode [stroke_elem_project] reports success only if
    the pixel lies inside the width and height of the cached depth buffer
    and the depth read there lies strictly between the two bounds of the
    depth range; and whenever the projection fails,
    [stroke_elem_project_fallback] sets the world position to the 2D point
    re-projected at the fallback depth, and the local position from it, so
    that a sample always gets a world and a local position. *)
Theorem depth_projection_or_fallback (cdd : CurveDrawData) (mval_i : Z * Z)
    (mval_fl : float2) (surface_offset radius : R) (fallback_depth : float3)
    (loc_world loc_local nor_world nor_local : float3) :
  let found :=
    (stroke_elem_project ops cdd mval_i mval_fl surface_offset radius loc_world
       (Some nor_world)).1.1 in
  let r :=
    stroke_elem_project_fallback ops cdd mval_i mval_fl surface_offset radius
      fallback_depth loc_world loc_local nor_world nor_local in
  use_plane (project cdd) = false ->
  (- 2 ^ 31 <= mval_i.1 < 2 ^ 31)%Z -> (- 2 ^ 31 <= mval_i.2 < 2 ^ 31)%Z ->
  (forall d, depths cdd = Some d ->
     (0 <= depths_w d < 2 ^ 16)%Z /\ (0 <= depths_h d < 2 ^ 16)%Z) ->
  (found = true ->
   exists d,
     depths cdd = Some d
     /\ (0 <= mval_i.1 < depths_w d)%Z /\ (0 <= mval_i.2 < depths_h d)%Z
     /\ (depth_range d).1 < ED_view3d_depth_read_cached ops d mval_i 0 1
        < (depth_range d).2)
  /\ r.1.1.1.1 = found
  /\ (found = false -> r.1.1.1.2 = ED_view3d_win_to_3d ops fallback_depth mval_fl)
  /\ r.1.1.2 = mul_v3_m4v3 (world_to_object (obedit cdd)) r.1.1.1.2.
Proof.
  intros found r Hp Hx Hy Hd. split.
  - intros Hf.
    destruct (stroke_elem_project_depth_found cdd mval_i mval_fl surface_offset radius
                loc_world (Some nor_world) Hp Hf) as (d & Hsome & Hw & Hh & Hr).
    exists d. destruct (Hd d Hsome) as [Hdw Hdh].
    repeat split; try done; try (eapply uint_of_int_lt; [eassumption| |eassumption]; lia);
      apply Hr.
  - apply stroke_elem_project_fallback_outputs.
Qed.

Lemma stroke_elem_project_fallback_elem_consistent (cdd : CurveDrawData)
    (fallback_depth : float3) (selem : StrokeElem) :
  inverts (world_to_object (obedit cdd)) (object_to_world (obedit cdd)) ->
  local_world_consistent cdd
    (stroke_elem_project_fallback_elem ops cdd fallback_depth selem).2.
Proof.
  intros Hinv. unfold local_world_consistent.
  destruct (stroke_elem_project_fallback_elem_fields cdd fallback_depth selem)
    as (_ & _ & Hl).
  rewrite Hl. by rewrite Hinv.
Qed.

Lemma stroke_elem_pressure_set_consistent (cdd : CurveDrawData) (selem : StrokeElem)
    (pressure' : R) :
  local_world_consistent cdd selem ->
  local_world_consistent cdd (stroke_elem_pressure_set cdd selem pressure').
Proof.
  unfold local_world_consistent, stroke_elem_pressure_set. intros Hc.
  destruct (_ && _); done.
Qed.

Lemma stroke_elem_pressure_set_pressure (cdd : CurveDrawData) (selem : StrokeElem)
    (pressure' : R) :
  pressure (stroke_elem_pressure_set cdd selem pressure') = pressure'.
Proof. unfold stroke_elem_pressure_set. by destruct (_ && _). Qed.

End ProjectFacts.

(** ** Substeps *)

Section EventFacts.
Import BLI CurvePaint Spec.
Context (ops : ViewOps).

(** One turn of the substep loop, with the projection named. *)
Lemma curve_draw_event_add_substep_eq (is_depth_found : bool)
    (selem_prev selem_target : StrokeElem) (n : Z) (cdd : CurveDrawData)
    (substeps : list StrokeElem) (slot : StrokeElem) (i : Z) :
  let projected :=
    stroke_elem_project_fallback_elem ops cdd (prev_location_world_valid (prev cdd))
      (stroke_elem_interp ops slot selem_prev selem_target (IZR i / IZR n)) in
  curve_draw_event_add_substep ops is_depth_found selem_prev selem_target n
    (cdd, substeps, slot) i
  = (if negb is_depth_found && projected.1
     then set_prev cdd (set_location_world_valid (prev cdd) (location_world projected.2))
     else cdd,
     substeps ++ [projected.2], stroke_elem_calloc).
Proof.
  cbv zeta. unfold curve_draw_event_add_substep.
  by destruct (stroke_elem_project_fallback_elem ops cdd _ _).
Qed.

(** The substep loop: one element per index, interpolated at [i / n] on the
    screen; the edit object is not touched. *)
Lemma curve_draw_event_add_substeps_fold (is_depth_found : bool)
    (selem_prev selem_target : StrokeElem) (n : Z) (indices : list Z)
    (cdd : CurveDrawData) (substeps : list StrokeElem) (slot : StrokeElem) :
  obedit (fold_left
            (curve_draw_event_add_substep ops is_depth_found selem_prev selem_target n)
            indices (cdd, substeps, slot)).1.1 = obedit cdd
  /\ exists new,
      (fold_left
         (curve_draw_event_add_substep ops is_depth_found selem_prev selem_target n)
         indices (cdd, substeps, slot)).1.2 = substeps ++ new
      /\ length new = length indices
      /\ (forall k i s, indices !! k = Some i -> new !! k = Some s ->
            mval s = interp_v2_v2v2 (mval selem_prev) (mval selem_target) (IZR i / IZR n))
      /\ (inverts (world_to_object (obedit cdd)) (object_to_world (obedit cdd)) ->
          Forall (local_world_consistent cdd) new).
Proof.
  revert cdd substeps slot.
  induction indices as [|i indices IH]; intros cdd substeps slot; cbn [fold_left].
  - split; [done|]. exists []. rewrite app_nil_r. repeat split; try done.
  - rewrite curve_draw_event_add_substep_eq.
    pose proof (stroke_elem_project_fallback_elem_fields ops cdd
      (prev_location_world_valid (prev cdd))
      (stroke_elem_interp ops slot selem_prev selem_target (IZR i / IZR n))) as Hfields.
    pose proof (stroke_elem_project_fallback_elem_consistent ops cdd
      (prev_location_world_valid (prev cdd))
      (stroke_elem_interp ops slot selem_prev selem_target (IZR i / IZR n))) as Hcons.
    destruct (stroke_elem_project_fallback_elem ops cdd
      (prev_location_world_valid (prev cdd))
      (stroke_elem_interp ops slot selem_prev selem_target (IZR i / IZR n)))
      as [found_substep selem_new].
    cbn [fst snd] in *. destruct Hfields as (Hm & _ & _).
    match goal with |- context [fold_left _ indices (?c, _, _)] => set (cdd' := c) end.
    assert (Hob : obedit cdd' = obedit cdd).
    { unfold cdd'. by destruct (negb is_depth_found && found_substep). }
    destruct (IH cdd' (substeps ++ [selem_new]) stroke_elem_calloc)
      as (Hob' & new & Hnew & Hlen & Hmval & Hc).
    split; [by rewrite Hob'|].
    exists (selem_new :: new). split; [by rewrite Hnew, <- app_assoc|].
    split; [simpl; by rewrite Hlen|]. split.
    + intros [|k] i' s Hi Hs; simpl in Hi, Hs.
      * inversion Hi; inversion Hs; subst. exact Hm.
      * eauto.
    + intros Hinv. constructor; [by apply Hcons|].
      unfold local_world_consistent in *. rewrite Hob in Hc.
      eapply Forall_impl; [by apply Hc|]. intros s Hs. exact Hs.
Qed.

Lemma event_target_mval (cdd : CurveDrawData) (event : wmEvent) :
  mval (event_target ops cdd event)
  = Float2 (IZR (event_mval event).1) (IZR (event_mval event).2).
Proof.
  unfold event_target.
  match goal with |- context [stroke_elem_project_fallback_elem ops ?c ?f ?s] =>
    by destruct (stroke_elem_project_fallback_elem_fields ops c f s) as (-> & _) end.
Qed.

(** The elements [curve_draw_event_add] appends: the substeps, if any, and
    the raw sample. *)
Lemma curve_draw_event_add_pool (cdd : CurveDrawData) (pool : list StrokeElem)
    (event : wmEvent) :
  let target := event_target ops cdd event in
  let len_sq := len_squared_v2v2 (prev_mval (prev cdd)) (mval target) in
  let n := (Zceil (sqrt len_sq) `quot` STROKE_SAMPLE_DIST_MAX_PX)%Z in
  exists substeps,
    (curve_draw_event_add ops cdd pool event).2 = pool ++ substeps ++ [target]
    /\ (forall selem_prev,
          sample_use_substeps cdd = true -> prev_selem (prev cdd) = Some selem_prev ->
          length substeps
          = (if bool_decide (len_sq >= 9) then Z.to_nat (n - 1) else 0%nat)
          /\ (forall k s, substeps !! k = Some s ->
                mval s = interp_v2_v2v2 (mval selem_prev) (mval target)
                           (IZR (Z.of_nat k + 1) / IZR n)))
    /\ (inverts (invert_m4_m4 ops (object_to_world (obedit cdd)))
                (object_to_world (obedit cdd)) ->
        Forall (local_world_consistent cdd) (substeps ++ [target])).
Proof.
  intros target len_sq n.
  unfold curve_draw_event_add.
  set (cdd0 := set_obedit cdd
    (set_world_to_object (obedit cdd) (invert_m4_m4 ops (object_to_world (obedit cdd))))).
  assert (Htgt : target = (stroke_elem_project_fallback_elem ops cdd0
    (prev_location_world_valid (prev cdd0))
    {| mval := Float2 (IZR (event_mval event).1) (IZR (event_mval event).2);
       location_world := zero_v3; location_local := zero_v3;
       normal_world := zero_v3; normal_local := zero_v3;
       pressure := tablet_pressure event |}).2) by done.
  pose proof (stroke_elem_project_fallback_elem_consistent ops cdd0
    (prev_location_world_valid (prev cdd0))
    {| mval := Float2 (IZR (event_mval event).1) (IZR (event_mval event).2);
       location_world := zero_v3; location_local := zero_v3;
       normal_world := zero_v3; normal_local := zero_v3;
       pressure := tablet_pressure event |}) as Hcons.
  destruct (stroke_elem_project_fallback_elem ops cdd0
    (prev_location_world_valid (prev cdd0)) _) as [is_depth_found selem].
  cbn [snd] in Htgt, Hcons. subst selem.
  match goal with |- context [len_squared_v2v2 (prev_mval (prev ?c)) _] => set (cdd1 := c) end.
  assert (Hm1 : prev_mval (prev cdd1) = prev_mval (prev cdd)).
  { unfold cdd1. by destruct is_depth_found. }
  rewrite Hm1. fold len_sq.
  match goal with |- context [sample_use_substeps ?c] => set (cdd2 := c) end.
  assert (Hs2 : sample_use_substeps cdd2 = sample_use_substeps cdd).
  { unfold cdd2, cdd1. by destruct is_depth_found. }
  assert (Hp2 : prev_selem (prev cdd2) = prev_selem (prev cdd)).
  { unfold cdd2, cdd1. by destruct is_depth_found. }
  assert (Ho2 : obedit cdd2 = obedit cdd0).
  { unfold cdd2, cdd1. by destruct is_depth_found. }
  rewrite Hs2, Hp2.
  assert (Hcons' : inverts (invert_m4_m4 ops (object_to_world (obedit cdd)))
                     (object_to_world (obedit cdd)) -> local_world_consistent cdd target).
  { intros Hinv. by apply Hcons. }
  change (square_f (IZR STROKE_SAMPLE_DIST_MAX_PX)) with (3 * 3).
  replace (3 * 3) with 9 by lra.
  destruct (sample_use_substeps cdd) eqn:Hsub;
    [destruct (prev_selem (prev cdd)) as [selem_prev|] eqn:Hprev|].
  - destruct (bool_decide (len_sq >= 9)) eqn:Hge.
    + fold n. unfold curve_draw_event_add_substeps.
      destruct (curve_draw_event_add_substeps_fold is_depth_found selem_prev target n
                  (seqZ 1 (n - 1)) cdd2 [] target)
        as (Hob & new & Hnew & Hlen & Hmval & Hc).
      destruct (fold_left _ (seqZ 1 (n - 1)) (cdd2, [], target)) as [[cdd3 substeps] slot].
      cbn [fst snd] in *. subst substeps. cbn [app].
      exists new. split; [done|]. split.
      * intros selem_prev' _ [= <-]. split; [by rewrite Hlen, length_seqZ|].
        intros k s Hs. replace (Z.of_nat k + 1)%Z with (1 + Z.of_nat k)%Z by lia.
        apply (Hmval k (1 + Z.of_nat k)%Z s); [|done].
        apply lookup_seqZ_lt. apply lookup_lt_Some in Hs.
        rewrite Hlen, length_seqZ in Hs. lia.
      * intros Hinv. apply Forall_app. split; [|by constructor; auto].
        rewrite Ho2 in Hc. specialize (Hc Hinv).
        eapply Forall_impl; [exact Hc|]. intros s Hs.
        unfold local_world_consistent in *. by rewrite Ho2 in Hs.
    + exists []. split; [done|]. split; [by intros selem_prev' _ [= <-]|].
      intros Hinv. constructor; auto.
  - exists []. split; [done|]. split; [done|]. intros Hinv. constructor; auto.
  - exists []. split; [done|]. split; [done|]. intros Hinv. constructor; auto.
Qed.






End EventFacts.

(** ** Taper *)

Section TaperFacts.
Import BLI CurvePaint Spec.

Lemma stroke_lengths_from_props (rest : list StrokeElem) :
  forall (selem_prev : StrokeElem) (len_3d : R),
    let r := stroke_lengths_from selem_prev len_3d rest in
    length r.1 = length rest
    /\ len_3d <= r.2
    /\ (forall i li, r.1 !! i = Some li -> len_3d <= li <= r.2)
    /\ (forall i j li lj, (i <= j)%nat -> r.1 !! i = Some li -> r.1 !! j = Some lj ->
          li <= lj).
Proof.
  induction rest as [|selem rest IH]; intros selem_prev len_3d; cbn [stroke_lengths_from].
  - cbv zeta. cbn [fst snd]. repeat split; try done; lra.
  - assert (Hn : 0 <= len_v3v3 (location_local selem) (location_local selem_prev))
      by apply sqrt_pos.
    set (len' := len_3d + len_v3v3 (location_local selem) (location_local selem_prev)) in *.
    specialize (IH selem len'). cbv zeta in IH.
    destruct (stroke_lengths_from selem len' rest) as [ls total].
    cbv zeta. cbn [fst snd] in *. destruct IH as (Hlen & Hle & Hbound & Hmono).
    assert (Hl' : len_3d <= len') by (unfold len'; lra). clearbody len'.
    split; [simpl; by rewrite Hlen|]. split; [lra|]. split.
    + intros [|i] li Hi; simpl in Hi.
      * inversion Hi; subst. lra.
      * destruct (Hbound i li Hi). lra.
    + intros [|i] [|j] li lj Hij Hi Hj; simpl in Hi, Hj.
      * inversion Hi; inversion Hj; subst. lra.
      * inversion Hi; subst. destruct (Hbound j lj Hj). lra.
      * lia.
      * apply (Hmono i j); [lia|done|done].
Qed.

(** [lengths[k + 1]] is [lengths[k]] plus the distance between the local
    positions of the elements [k] and [k + 1] of the pool. *)
Lemma stroke_lengths_from_step (rest : list StrokeElem) :
  forall (selem_prev : StrokeElem) (len_3d : R) (k : nat) (se se' : StrokeElem) (lk : R),
    (selem_prev :: rest) !! k = Some se -> (selem_prev :: rest) !! S k = Some se' ->
    (len_3d :: (stroke_lengths_from selem_prev len_3d rest).1) !! k = Some lk ->
    (len_3d :: (stroke_lengths_from selem_prev len_3d rest).1) !! S k
    = Some (lk + len_v3v3 (location_local se') (location_local se)).
Proof.
  induction rest as [|selem rest IH]; intros selem_prev len_3d k se se' lk Hk Hk' Hl.
  - destruct k; done.
  - cbn [stroke_lengths_from]. cbn [stroke_lengths_from] in Hl.
    set (len' := len_3d + len_v3v3 (location_local selem) (location_local selem_prev)) in *.
    specialize (IH selem len').
    destruct (stroke_lengths_from selem len' rest) as [ls total]. cbn [fst snd] in *.
    destruct k as [|k]; simpl in Hk, Hk', Hl |- *.
    + inversion Hk; inversion Hk'; inversion Hl; subst. done.
    + by apply (IH k se se' lk).
Qed.

Section Loops.
Context (cdd : CurveDrawData) (lengths : list R).
Hypothesis lengths_mono :
  forall i j li lj, (i <= j)%nat -> lengths !! i = Some li -> lengths !! j = Some lj ->
    li <= lj.

Lemma taper_elem_lookup (f : R -> R) (i : nat) (pool : list StrokeElem) (j : nat) :
  taper_elem cdd f i pool !! j
  = if bool_decide (i = j)
    then (fun selem => stroke_elem_pressure_set cdd selem (f (pressure selem))) <$> pool !! j
    else pool !! j.
Proof.
  unfold taper_elem. case_bool_decide as Hij.
  - subst j. destruct (pool !! i) as [selem|] eqn:Ei.
    + rewrite list_lookup_insert_eq; [done|]. by eapply lookup_lt_Some.
    + by rewrite Ei.
  - destruct (pool !! i); [by rewrite list_lookup_insert_ne|done].
Qed.

Lemma lengths_total_mono (i j : nat) :
  (i <= j < length lengths)%nat -> lengths !!! i <= lengths !!! j.
Proof.
  intros Hij.
  destruct (lookup_lt_is_Some_2 lengths i) as [li Hi]; [lia|].
  destruct (lookup_lt_is_Some_2 lengths j) as [lj Hj]; [lia|].
  rewrite (list_lookup_total_correct _ _ _ Hi), (list_lookup_total_correct _ _ _ Hj).
  apply (lengths_mono i j); [lia|done|done].
Qed.

(** The start pass: exactly the elements whose length is below
    [len_taper_max] are set, each once. *)
Lemma taper_start_loop_lookup (len_taper_max : R) (stroke_len : nat) :
  (stroke_len <= length lengths)%nat ->
  forall (fuel i : nat) (pool : list StrokeElem) (j : nat),
    length pool = stroke_len -> (stroke_len <= i + fuel)%nat ->
    taper_start_loop cdd lengths len_taper_max stroke_len fuel i pool !! j
    = if bool_decide (i <= j)%nat && bool_decide (lengths !!! j < len_taper_max)
      then (fun selem =>
              stroke_elem_pressure_set cdd selem
                (pressure selem * ((lengths !!! j) / len_taper_max))) <$> pool !! j
      else pool !! j.
Proof.
  intros Hlen fuel. induction fuel as [|fuel IH]; intros i pool j Hpool Hfuel.
  - cbn [taper_start_loop]. case_bool_decide as Hij; [|done]. cbn [andb].
    rewrite (lookup_ge_None_2 pool j) by lia. by destruct (bool_decide _).
  - cbn [taper_start_loop].
    destruct (bool_decide (i < stroke_len)%nat) eqn:Hi; cbn [andb].
    + apply bool_decide_eq_true in Hi.
      destruct (bool_decide (lengths !!! i < len_taper_max)) eqn:Hl.
      * rewrite IH; [|unfold taper_elem; destruct (pool !! i);
                       [by rewrite length_insert|done]|lia].
        rewrite taper_elem_lookup.
        destruct (decide (i = j)) as [->|Hne].
        -- rewrite (bool_decide_eq_false_2 (S j <= j)%nat) by lia.
           rewrite (bool_decide_eq_true_2 (j = j)) by done.
           rewrite (bool_decide_eq_true_2 (j <= j)%nat) by lia.
           cbn [andb]. by rewrite Hl.
        -- rewrite (bool_decide_eq_false_2 (i = j)) by done.
           destruct (bool_decide (lengths !!! j < len_taper_max)); rewrite ?andb_false_r;
             [|done].
           rewrite !andb_true_r.
           destruct (decide (i <= j)%nat).
           ++ by rewrite !bool_decide_eq_true_2 by lia.
           ++ by rewrite !bool_decide_eq_false_2 by lia.
      * apply bool_decide_eq_false in Hl.
        case_bool_decide as Hij; [|done]. cbn [andb].
        destruct (decide (j < stroke_len)%nat) as [Hj|Hj].
        -- rewrite bool_decide_eq_false_2; [done|].
           pose proof (lengths_total_mono i j ltac:(lia)). lra.
        -- rewrite (lookup_ge_None_2 pool j) by lia. by destruct (bool_decide _).
    + apply bool_decide_eq_false in Hi.
      case_bool_decide as Hij; [|done]. cbn [andb].
      rewrite (lookup_ge_None_2 pool j) by lia. by destruct (bool_decide _).
Qed.

(** The end pass: exactly the elements after the first whose length is
    above [len_taper_min] are set, each once. *)
Lemma taper_end_loop_lookup (len_3d len_taper_max len_taper_min : R) :
  forall (i : nat) (pool : list StrokeElem) (j : nat),
    (i < length lengths)%nat ->
    taper_end_loop cdd lengths len_3d len_taper_max len_taper_min i pool !! j
    = if bool_decide (1 <= j <= i)%nat && bool_decide (lengths !!! j > len_taper_min)
      then (fun selem =>
              stroke_elem_pressure_set cdd selem
                (pressure selem * ((len_3d - lengths !!! j) / len_taper_max))) <$> pool !! j
      else pool !! j.
Proof.
  induction i as [|i IH]; intros pool j Hi.
  - cbn [taper_end_loop]. by rewrite bool_decide_eq_false_2 by lia.
  - cbn [taper_end_loop].
    destruct (bool_decide (lengths !!! S i > len_taper_min)) eqn:Hl.
    + rewrite IH by lia. rewrite taper_elem_lookup.
      destruct (decide (S i = j)) as [<-|Hne].
      * rewrite (bool_decide_eq_false_2 (1 <= S i <= i)%nat) by lia.
        rewrite (bool_decide_eq_true_2 (S i = S i)) by done.
        rewrite (bool_decide_eq_true_2 (1 <= S i <= S i)%nat) by lia.
        cbn [andb]. by rewrite Hl.
      * rewrite (bool_decide_eq_false_2 (S i = j)) by done.
        destruct (bool_decide (lengths !!! j > len_taper_min)); rewrite ?andb_false_r;
          [|done].
        rewrite !andb_true_r.
        destruct (decide (1 <= j <= i)%nat).
        -- by rewrite !bool_decide_eq_true_2 by lia.
        -- by rewrite !bool_decide_eq_false_2 by lia.
    + apply bool_decide_eq_false in Hl.
      case_bool_decide as Hij; [|done]. cbn [andb].
      rewrite bool_decide_eq_false_2; [done|].
      pose proof (lengths_total_mono j (S i) ltac:(lia)). lra.
Qed.

End Loops.

Lemma stroke_lengths_props (pool : list StrokeElem) :
  pool <> [] ->
  let lengths := (stroke_lengths pool).1 in
  let total := (stroke_lengths pool).2 in
  length lengths = length pool
  /\ lengths !! 0%nat = Some 0
  /\ (forall i li, lengths !! i = Some li -> 0 <= li <= total)
  /\ (forall i j li lj, (i <= j)%nat -> lengths !! i = Some li -> lengths !! j = Some lj ->
        li <= lj)
  /\ (forall k se se' lk, pool !! k = Some se -> pool !! S k = Some se' ->
        lengths !! k = Some lk ->
        lengths !! S k = Some (lk + len_v3v3 (location_local se') (location_local se))).
Proof.
  destruct pool as [|selem_first rest]; [done|]. intros _.
  unfold stroke_lengths.
  pose proof (stroke_lengths_from_props rest selem_first 0) as Hp.
  pose proof (stroke_lengths_from_step rest selem_first 0) as Hs.
  destruct (stroke_lengths_from selem_first 0 rest) as [ls total].
  cbv zeta in *. cbn [fst snd] in *. destruct Hp as (Hlen & Hle & Hbound & Hmono).
  split; [simpl; by rewrite Hlen|]. split; [done|]. split; [|split].
  - intros [|i] li Hi; simpl in Hi.
    + inversion Hi; subst. lra.
    + by apply (Hbound i).
  - intros [|i] [|j] li lj Hij Hi Hj; simpl in Hi, Hj.
    + inversion Hi; inversion Hj; subst. lra.
    + inversion Hi; subst. by destruct (Hbound j lj Hj).
    + lia.
    + apply (Hmono i j); [lia|done|done].
  - exact Hs.
Qed.

(** C5: the arc lengths are accumulated once, over the pool as it is before
    either pass ([lengths[0]] is zero and each further entry adds the
    distance between the local positions of two neighbours).  With them,
    the pressure of the sample at cumulative length [L] of a stroke of
    length [T] is multiplied by [L / (s * T)] when the start taper [s] is
    not zero and [L < s * T], and by [(T - L) / (e * T)] when the end taper
    [e] is not zero and [L > T - e * T]; a sample in neither zone keeps its
    pressure.  For [s] = 0.5 a sample at a quarter of the length gets the
    start factor 0.5, and one at 60% the factor 1.  The taper fractions are
    those of the settings, at most 1. *)
Theorem taper_scales_pressure (cdd : CurveDrawData) (cps : CurvePaintSettings)
    (pool : list StrokeElem) (i : nat) (selem : StrokeElem) :
  let lengths := (stroke_lengths pool).1 in
  let T := (stroke_lengths pool).2 in
  let s := radius_taper_start cps in
  let e := radius_taper_end cps in
  e <= 1 ->
  pool !! i = Some selem ->
  (lengths !! 0%nat = Some 0
   /\ forall k se se' lk, pool !! k = Some se -> pool !! S k = Some se' ->
        lengths !! k = Some lk ->
        lengths !! S k = Some (lk + len_v3v3 (location_local se') (location_local se)))
  /\ (exists L selem',
        lengths !! i = Some L /\ 0 <= L <= T
        /\ curve_draw_exec_precalc_taper cdd cps pool !! i = Some selem'
        /\ pressure selem'
           = pressure selem * taper_start_factor s T L * taper_end_factor e T L)
  /\ (0 < T ->
      taper_start_factor (1 / 2) T (T / 4) = 1 / 2
      /\ taper_start_factor (1 / 2) T (T * (6 / 10)) = 1).
Proof.
  intros lengths T s e He Hi.
  assert (Hne : pool <> []) by (intros ->; done).
  destruct (stroke_lengths_props pool Hne) as (Hlen & H0 & Hbound & Hmono & Hstep).
  fold lengths in Hlen, H0, Hbound, Hmono, Hstep. fold T in Hbound.
  split; [by split|]. split.
  - destruct (lookup_lt_is_Some_2 lengths i) as [L HL].
    { rewrite Hlen. by eapply lookup_lt_Some. }
    pose proof (list_lookup_total_correct _ _ _ HL) as HLt.
    exists L. destruct (Hbound i L HL) as [HL0 HLT].
    unfold curve_draw_exec_precalc_taper.
    replace (stroke_lengths pool) with (lengths, T) by (unfold lengths, T; by destruct (stroke_lengths pool)).
    fold s e.
    (* the start pass *)
    set (pool1 :=
      if bool_decide (s <> 0)
      then taper_start_loop cdd lengths (s * T) (length pool) (length pool) 0 pool
      else pool).
    assert (H1 : exists selem1, pool1 !! i = Some selem1
                 /\ pressure selem1 = pressure selem * taper_start_factor s T L).
    { unfold pool1, taper_start_factor.
      destruct (bool_decide (s <> 0)); cbn [andb].
      - rewrite (taper_start_loop_lookup cdd lengths Hmono (s * T) (length pool))
          by (done || lia).
        rewrite bool_decide_eq_true_2 by lia. cbn [andb]. rewrite HLt, Hi.
        destruct (bool_decide (L < s * T)); eexists; (split; [reflexivity|]).
        + by rewrite stroke_elem_pressure_set_pressure.
        + lra.
      - exists selem. split; [done|lra]. }
    destruct H1 as (selem1 & Hs1 & Hp1).
    (* the end pass *)
    set (pool2 :=
      if bool_decide (e <> 0)
      then taper_end_loop cdd lengths T (e * T) (T - e * T) (length pool - 1) pool1
      else pool1).
    assert (H2 : exists selem2, pool2 !! i = Some selem2
                 /\ pressure selem2 = pressure selem1 * taper_end_factor e T L).
    { unfold pool2, taper_end_factor.
      destruct (bool_decide (e <> 0)) eqn:Ee; cbn [andb].
      - rewrite (taper_end_loop_lookup cdd lengths Hmono T (e * T) (T - e * T))
          by (apply lookup_lt_Some in Hi; lia).
        rewrite HLt, Hs1.
        destruct i as [|i].
        + rewrite (bool_decide_eq_false_2 (1 <= 0 <= _)%nat) by lia. cbn [andb].
          exists selem1. split; [done|].
          rewrite H0 in HL. inversion HL; subst L.
          rewrite bool_decide_eq_false_2; [lra|]. nra.
        + rewrite (bool_decide_eq_true_2 (1 <= S i <= _)%nat)
            by (apply lookup_lt_Some in Hi; lia).
          cbn [andb].
          destruct (bool_decide (L > T - e * T)); eexists; (split; [reflexivity|]).
          * by rewrite stroke_elem_pressure_set_pressure.
          * lra.
      - exists selem1. split; [done|lra]. }
    destruct H2 as (selem2 & Hs2 & Hp2).
    exists selem2. split; [done|]. split; [done|].
    split; [|rewrite Hp2, Hp1; lra].
    unfold pool2, pool1 in Hs2.
    destruct (bool_decide (s <> 0)) eqn:Es; destruct (bool_decide (e <> 0)) eqn:Ee;
      cbn [orb]; done.
  - intros HT. unfold taper_start_factor.
    rewrite (bool_decide_eq_true_2 (1 / 2 <> 0)) by lra. cbn [andb].
    rewrite (bool_decide_eq_true_2 (T / 4 < 1 / 2 * T)) by lra.
    rewrite (bool_decide_eq_false_2 (T * (6 / 10) < 1 / 2 * T)) by lra.
    split; [field; lra|done].
Qed.

End TaperFacts.

(** ** Local/world consistency of the stored samples *)

Section ConsistencyFacts.
Import BLI CurvePaint Spec.
Context (ops : ViewOps).

Lemma taper_elem_consistent (cdd : CurveDrawData) (f : R -> R) (i : nat)
    (pool : list StrokeElem) :
  Forall (local_world_consistent cdd) pool ->
  Forall (local_world_consistent cdd) (taper_elem cdd f i pool).
Proof.
  intros Hp. unfold taper_elem. destruct (pool !! i) as [selem|] eqn:Ei; [|done].
  apply Forall_insert; [done|]. apply stroke_elem_pressure_set_consistent.
  by eapply Forall_lookup_1.
Qed.

Lemma taper_start_loop_consistent (cdd : CurveDrawData) (lengths : list R)
    (len_taper_max : R) (stroke_len fuel : nat) :
  forall (i : nat) (pool : list StrokeElem),
    Forall (local_world_consistent cdd) pool ->
    Forall (local_world_consistent cdd)
      (taper_start_loop cdd lengths len_taper_max stroke_len fuel i pool).
Proof.
  induction fuel as [|fuel IH]; intros i pool Hp; cbn [taper_start_loop]; [done|].
  destruct (_ && _); [|done]. apply IH. by apply taper_elem_consistent.
Qed.

Lemma taper_end_loop_consistent (cdd : CurveDrawData) (lengths : list R)
    (len_3d len_taper_max len_taper_min : R) (i : nat) :
  forall pool : list StrokeElem,
    Forall (local_world_consistent cdd) pool ->
    Forall (local_world_consistent cdd)
      (taper_end_loop cdd lengths len_3d len_taper_max len_taper_min i pool).
Proof.
  induction i as [|i IH]; intros pool Hp; cbn [taper_end_loop]; [done|].
  destruct (bool_decide _); [|done]. apply IH. by apply taper_elem_consistent.
Qed.

(** C8: where the world-to-object matrix that [invert_m4_m4] computes
    undoes the object-to-world matrix, the operations that write a stored
    sample keep its world position equal to the object-to-world transform
    of its local position: the projection with fallback establishes it,
    [stroke_elem_pressure_set] preserves it (it moves the local position
    along the stored normal by the change in radius and recomputes the
    world position from it), and so do reading a sample back from the
    operator, the interpolation of two samples, a whole
    [curve_draw_event_add] with its substeps, and the taper pass over the
    pool. *)
Theorem local_world_consistency_preserved (cdd : CurveDrawData) :
  inverts (invert_m4_m4 ops (object_to_world (obedit cdd))) (object_to_world (obedit cdd)) ->
  (world_to_object (obedit cdd) = invert_m4_m4 ops (object_to_world (obedit cdd)) ->
   forall fallback_depth selem,
     local_world_consistent cdd
       (stroke_elem_project_fallback_elem ops cdd fallback_depth selem).2)
  /\ (forall selem pressure',
        local_world_consistent cdd selem ->
        local_world_consistent cdd (stroke_elem_pressure_set cdd selem pressure')
        /\ pressure (stroke_elem_pressure_set cdd selem pressure') = pressure'
        /\ location_local (stroke_elem_pressure_set cdd selem pressure')
           = (if bool_decide (surface_offset (project cdd) <> 0)
                 && negb (use_surface_offset_absolute (project cdd))
                 && negb (is_zero_v3 (normal_local selem))
              then madd_v3_v3fl (location_local selem) (normal_local selem)
                     (stroke_elem_radius_from_pressure cdd pressure'
                      - stroke_elem_radius_from_pressure cdd (pressure selem))
              else location_local selem))
  /\ (world_to_object (obedit cdd) = invert_m4_m4 ops (object_to_world (obedit cdd)) ->
      forall item,
        local_world_consistent cdd (curve_draw_stroke_from_operator_elem cdd item))
  /\ (forall selem_out selem_a selem_b t,
        local_world_consistent cdd selem_a -> local_world_consistent cdd selem_b ->
        local_world_consistent cdd (stroke_elem_interp ops selem_out selem_a selem_b t))
  /\ (forall pool event,
        Forall (local_world_consistent cdd) pool ->
        Forall (local_world_consistent cdd) (curve_draw_event_add ops cdd pool event).2)
  /\ (forall cps pool,
        Forall (local_world_consistent cdd) pool ->
        Forall (local_world_consistent cdd) (curve_draw_exec_precalc_taper cdd cps pool)).
Proof.
  intros Hinv. split; [|split; [|split; [|split; [|split]]]].
  - intros Hw fallback_depth selem.
    apply stroke_elem_project_fallback_elem_consistent. by rewrite Hw.
  - intros selem p Hc. split; [|split].
    + by apply stroke_elem_pressure_set_consistent.
    + apply stroke_elem_pressure_set_pressure.
    + unfold stroke_elem_pressure_set. by destruct (_ && _).
  - intros Hw [[mouse location] item_pressure].
    unfold local_world_consistent, curve_draw_stroke_from_operator_elem.
    cbn [location_world location_local]. by rewrite Hw, Hinv.
  - intros selem_out selem_a selem_b t Ha Hb.
    unfold local_world_consistent, stroke_elem_interp in *.
    cbn [location_world location_local]. rewrite Ha, Hb.
    unfold interp_v3_v3v3, mul_v3_m4v3. cbn [x3 y3 z3]. f_equal; ring.
  - intros pool event Hp.
    destruct (curve_draw_event_add_pool ops cdd pool event) as (substeps & -> & _ & Hc).
    apply Forall_app. split; [done|]. by apply Hc.
  - intros cps pool Hp. unfold curve_draw_exec_precalc_taper.
    destruct (_ || _); [|done].
    destruct (stroke_lengths pool) as [lengths len_3d].
    destruct (bool_decide (radius_taper_start cps <> 0));
      destruct (bool_decide (radius_taper_end cps <> 0));
      repeat (apply taper_end_loop_consistent || apply taper_start_loop_consistent);
      done.
Qed.

End ConsistencyFacts.

(** ** The properties on the concrete sessions *)

Section Runs.
Import BLI CurvePaint GeoTransform Spec Example.

(** The fit calls of [curve_ops status] return [status]. *)
Lemma curve_ops_fit_result (status : Z) (op : DrawProps) (use_radius : bool)
    (pool : list StrokeElem) (stroke_len : Z) :
  fit_result (curve_draw_exec_fit (curve_ops status) op use_radius pool stroke_len).2
  = status.
Proof.
  unfold curve_draw_exec_fit.
  destruct (stroke_coords use_radius pool stroke_len) as [coords n].
  cbn [snd]. by destruct (bool_decide (fit_method op = CURVE_PAINT_FIT_METHOD_REFIT)).
Qed.

(** A run of [curve_draw_exec] on the operator's stroke, in Bezier mode,
    with a fit that fails: the empty spline list has one spline afterwards. *)
Lemma fit_failure_list_grows :
  exists cdd pool,
    curve_draw_exec_session view_ops (settings CU_BEZIER 0 0) object None props
      = Some (cdd, pool)
    /\ curve_type cdd = CU_BEZIER
    /\ fit_result (curve_draw_exec_fit (curve_ops 1) props
                     (use_pressure_radius (settings CU_BEZIER 0 0)) pool
                     (Z.of_nat (length pool))).2 <> 0%Z
    /\ (curve_draw_exec view_ops (curve_ops 1) (settings CU_BEZIER 0 0) object None
          props []).1.2 <> []
    /\ length (curve_draw_exec view_ops (curve_ops 1) (settings CU_BEZIER 0 0) object None
                 props []).1.2 <> length (@nil Nurb).
Proof.
  eexists. eexists. split; [reflexivity|]. split; [reflexivity|].
  split; [by rewrite curve_ops_fit_result|].
  erewrite curve_draw_exec_finished by reflexivity. cbn [snd fmap list_fmap app].
  split; [done|]. simpl. lia.
Qed.

Lemma fit_failure_appends_empty_spline_witness :
  exists nu,
    (curve_draw_exec view_ops (curve_ops 1) (settings CU_BEZIER 0 0) object None props []).1
    = (OPERATOR_FINISHED, [nu])
    /\ pntsu nu = 0%Z /\ bezt nu = None.
Proof.
  edestruct (fit_failure_appends_empty_spline view_ops (curve_ops 1)
               (settings CU_BEZIER 0 0) object None props [])
    as (nu & Hr & Hp & Hb & _).
  - reflexivity.
  - reflexivity.
  - by rewrite curve_ops_fit_result.
  - exists nu. by rewrite Hr.
Defined.

(** A poly stroke of one sample of pressure 1/2, with radii from 1 to 3 and
    a bevel radius of 2: the point gets the radius 2, the radius resolver
    gives 4. *)
Lemma poly_radius_without_bevel_scale :
  let cdd := session CU_POLY None in
  let cps := settings CU_POLY 0 0 in
  let selem := elem_at 0 (1 / 2) in
  exists point,
    bp (curve_draw_exec_nurb (curve_ops 0) cdd cps props [selem]) = Some [point]
    /\ bp_radius point = 2
    /\ stroke_elem_radius_from_pressure cdd (pressure selem) = 4
    /\ bp_radius point <> stroke_elem_radius_from_pressure cdd (pressure selem).
Proof.
  intros cdd cps selem.
  destruct (curve_draw_exec_nurb_poly (curve_ops 0) cdd cps props [selem])
    as (_ & _ & Hb); [done|].
  eexists. split; [exact Hb|].
  unfold stroke_elem_radius_from_pressure. simpl. repeat split; lra.
Qed.

Lemma poly_points_per_sample_witness :
  exists points,
    bp (curve_draw_exec_nurb (curve_ops 0) (session CU_POLY None) (settings CU_POLY 0 0)
          props [elem_at 0 1; elem_at 1 1])
    = Some points
    /\ length points = 2%nat.
Proof.
  destruct (poly_points_per_sample (curve_ops 0) (session CU_POLY None)
              (settings CU_POLY 0 0) props [elem_at 0 1; elem_at 1 1])
    as (points & Hb & _ & Hl & _); [done|].
  exists points. by split.
Defined.

Lemma fitted_points_handle_types_witness :
  exists bz,
    bezt (curve_draw_exec_bezier (curve_ops 0) (session CU_BEZIER None) props true 3
            [elem_at 0 1; elem_at 2 1; elem_at 4 1] 3 nurb_calloc)
    = Some bz
    /\ length bz = 3%nat.
Proof.
  destruct (fitted_points_handle_types (curve_ops 0) (session CU_BEZIER None) props true 3
              [elem_at 0 1; elem_at 2 1; elem_at 4 1] 3 nurb_calloc)
    as ((bz & Hb & Hl & _) & _).
  - by rewrite curve_ops_fit_result.
  - exists bz. split; [done|]. rewrite Hl.
    unfold curve_draw_exec_fit.
    destruct (stroke_coords _ _ _) as [coords n]. cbn [snd].
    by destruct (bool_decide _).
Defined.

Lemma remove_doubles_before_fit_witness :
  let pool := [elem_at 0 1; elem_at 2 1; elem_at 2 (1 / 2); elem_at 4 1] in
  let pool' := [elem_at 0 1; elem_at 2 1; elem_at 2 1; elem_at 2 (1 / 2); elem_at 4 1] in
  stroke_coords true pool' 5
    = ([[0; 0; 0; 1]; [2; 0; 0; 1]; [2; 0; 0; 1 / 2]; [4; 0; 0; 1]], 4%Z)
  /\ stroke_coords true pool 4 = stroke_coords true pool' 5
  /\ (curve_draw_exec_fit curve_ops_echo props true pool' 5).2
     = {| fit_result := 0;
          cubic_spline :=
            (fun row => (row, row, row))
              <$> [[0; 0; 0; 1]; [2; 0; 0; 1]; [2; 0; 0; 1 / 2]; [4; 0; 0; 1]];
          corners_index := None |}
  /\ curve_draw_exec view_ops curve_ops_echo (settings CU_BEZIER 0 0) object
       (Some (session CU_BEZIER None, pool')) props []
     = curve_draw_exec view_ops curve_ops_echo (settings CU_BEZIER 0 0) object
         (Some (session CU_BEZIER None, pool)) props [].
Proof.
  intros pool pool'.
  destruct (remove_doubles_before_fit view_ops curve_ops_echo true [elem_at 0 1]
              [elem_at 2 (1 / 2); elem_at 4 1] (elem_at 2 1) (elem_at 2 1)
              (session CU_BEZIER None) (settings CU_BEZIER 0 0) object props [])
    as (Hspec & _ & _ & _ & _ & Hfit & Hc & Hf & He);
    [reflexivity|reflexivity|reflexivity|].
  assert (Hrows : coalesce (feature_vector true <$> pool)
                  = [[0; 0; 0; 1]; [2; 0; 0; 1]; [2; 0; 0; 1 / 2]; [4; 0; 0; 1]]).
  { unfold pool. cbn.
    rewrite (bool_decide_eq_false_2 ([2; 0; 0; 1] = [0; 0; 0; 1]))
      by (intros [= H]; lra).
    rewrite (bool_decide_eq_false_2 ([2; 0; 0; 1 / 2] = [2; 0; 0; 1]))
      by (intros [= H]; lra).
    rewrite (bool_decide_eq_false_2 ([4; 0; 0; 1] = [2; 0; 0; 1 / 2]))
      by (intros [= H]; lra).
    reflexivity. }
  change (stroke_coords true pool' 5 = stroke_coords true pool 4) in Hc.
  change (curve_draw_exec_fit curve_ops_echo props true pool' 5
          = curve_draw_exec_fit curve_ops_echo props true pool 4) in Hf.
  pose proof (Hspec pool) as Hp. change (Z.of_nat (length pool)) with 4%Z in Hp.
  change ((curve_draw_exec_fit curve_ops_echo props true pool 4).2
          = {| fit_result := 0;
               cubic_spline :=
                 (fun row => (row, row, row)) <$> coalesce (feature_vector true <$> pool);
               corners_index := None |}) in Hfit.
  rewrite Hrows in Hp, Hfit.
  split; [by rewrite Hc, Hp|]. split; [by rewrite Hc|]. split; [by rewrite Hf, Hfit|].
  exact He.
Defined.

Lemma sqrt_square_eq (x y : R) : 0 <= y -> y * y = x -> sqrt x = y.
Proof. intros Hy Hx. apply sqrt_lem_1; [nra|done|done]. Qed.

Lemma len_v3v3_on_x_axis (a b : R) :
  b <= a -> len_v3v3 (Float3 a 0 0) (Float3 b 0 0) = a - b.
Proof. intros Hab. unfold len_v3v3. simpl. apply sqrt_square_eq; [lra|ring]. Qed.



(** A stroke of length 4 along the x axis with a start taper of 0.5: the
    sample at length 1, a quarter of the stroke, ends at half its pressure. *)
Lemma taper_scales_pressure_witness :
  let pool := [elem_at 0 1; elem_at 1 1; elem_at 2 1; elem_at 4 1] in
  exists selem',
    curve_draw_exec_precalc_taper (session CU_BEZIER None) (settings CU_BEZIER (1 / 2) 0) pool
      !! 1%nat = Some selem'
    /\ pressure selem' = 1 / 2.
Proof.
  intros pool.
  destruct (taper_scales_pressure (session CU_BEZIER None) (settings CU_BEZIER (1 / 2) 0)
              pool 1 (elem_at 1 1))
    as (_ & (L & selem' & HL & _ & Hs & Hp) & _); [simpl; lra|reflexivity|].
  exists selem'. split; [done|]. rewrite Hp. clear Hp Hs.
  unfold pool, stroke_lengths in *. cbn [stroke_lengths_from fst snd] in *.
  simpl in HL. rewrite !len_v3v3_on_x_axis in * by lra.
  inversion HL; subst L. simpl. rewrite !len_v3v3_on_x_axis by lra.
  unfold taper_start_factor, taper_end_factor.
  rewrite (bool_decide_eq_true_2 (1 / 2 <> 0)) by lra.
  rewrite (bool_decide_eq_false_2 (0 <> 0)) by (intros H; by apply H).
  cbn [andb]. rewrite bool_decide_eq_true_2 by lra. field.
Defined.

Lemma depth_projection_or_fallback_witness :
  let r :=
    stroke_elem_project_fallback view_ops (session CU_BEZIER None) (700, 0)%Z (Float2 700 0)
      0 0 (Float3 0 0 5) zero_v3 zero_v3 zero_v3 zero_v3 in
  r.1.1.1.1 = false /\ r.1.1.1.2 = Float3 700 0 5.
Proof.
  intros r.
  destruct (depth_projection_or_fallback view_ops (session CU_BEZIER None) (700, 0)%Z
              (Float2 700 0) 0 0 (Float3 0 0 5) zero_v3 zero_v3 zero_v3 zero_v3)
    as (_ & Hfound & Hfb & _).
  - reflexivity.
  - simpl. lia.
  - simpl. lia.
  - intros d [= <-]. simpl. lia.
  - fold r in Hfound, Hfb.
    assert (Hf : (stroke_elem_project view_ops (session CU_BEZIER None) (700, 0)%Z
                    (Float2 700 0) 0 0 zero_v3 (Some zero_v3)).1.1 = false)
      by reflexivity.
    rewrite Hf in Hfound, Hfb. split; [done|]. by rewrite Hfb.
Defined.

Lemma example_matrix_inverts : inverts (invert_m4_m4 view_ops ob_matrix) ob_matrix.
Proof. intros [x y z]. unfold mul_v3_m4v3. simpl. f_equal; field. Qed.

Lemma local_world_consistency_preserved_witness :
  Forall (local_world_consistent (session CU_BEZIER (Some (elem_at 0 1))))
    (curve_draw_event_add view_ops (session CU_BEZIER (Some (elem_at 0 1))) [elem_at 0 1]
       {| event_mval := (9, 0)%Z; tablet_pressure := 1 |}).2.
Proof.
  destruct (local_world_consistency_preserved view_ops
              (session CU_BEZIER (Some (elem_at 0 1))) example_matrix_inverts)
    as (_ & _ & _ & _ & Hadd & _).
  apply Hadd. constructor; [|constructor].
  unfold local_world_consistent, elem_at, mul_v3_m4v3. simpl. f_equal; lra.
Defined.

Lemma flatten_x_determinant : det4 (mul_m4 flatten_x identity) = 0.
Proof. unfold det4, det3, mul_m4, mul_m4_v4. simpl. ring. Qed.

Lemma transform_volume_invalid_determinant_reset_witness :
  volume_too_small (transform_volume true geo_ops [grid] flatten_x no_errors).2 = true
  /\ exists grid',
      (transform_volume true geo_ops [grid] flatten_x no_errors).1 !! 0%nat = Some grid'
      /\ grid_tree grid' = 0%nat.
Proof.
  destruct (transform_volume_invalid_determinant_reset geo_ops [grid] flatten_x no_errors
              0 grid)
    as ((Hflag & grid' & Hg & Ht & _) & _).
  - reflexivity.
  - simpl. rewrite flatten_x_determinant, Rabs_R0. apply bool_decide_eq_false_2. lra.
  - split; [done|]. exists grid'. by split.
Defined.

(** The all-zero transform on a grid scaled by two: the determinant of the
    combined matrix is exactly zero and the volume is flagged as too small,
    but the reset matrix, which has a zero last column, is refused by the
    grid, and the grid keeps the basis it had, (2,0,0), (0,2,0), (0,0,2),
    not the identity axes. *)
Lemma reset_matrix_refused_keeps_basis :
  let grid_matrix := mul_m4 zero_m4 (grid_transform_matrix grid_scaled) in
  let result := transform_volume true geo_ops [grid_scaled] zero_m4 no_errors in
  determinant geo_ops grid_matrix = 0
  /\ BKE_volume_grid_determinant_valid geo_ops (determinant geo_ops grid_matrix) = false
  /\ volume_too_small result.2 = true
  /\ exists grid',
       result.1 !! 0%nat = Some grid'
       /\ axis (col0 (grid_transform_matrix grid')) = Float3 2 0 0
       /\ axis (col1 (grid_transform_matrix grid')) = Float3 0 2 0
       /\ axis (col2 (grid_transform_matrix grid')) = Float3 0 0 2
       /\ axis (col0 (grid_transform_matrix grid')) <> Float3 1 0 0.
Proof.
  intros grid_matrix result.
  assert (Hd : det4 grid_matrix = 0).
  { unfold grid_matrix, det4, det3, mul_m4, mul_m4_v4. simpl. ring. }
  assert (Hv : BKE_volume_grid_determinant_valid geo_ops (det4 grid_matrix) = false).
  { simpl. rewrite Hd, Rabs_R0. apply bool_decide_eq_false_2. lra. }
  assert (Hr : det4 (reset_grid_matrix geo_ops grid_matrix (det4 grid_matrix)) = 0).
  { unfold reset_grid_matrix. rewrite bool_decide_eq_true_2 by exact Hd.
    unfold grid_matrix, det4, det3, mul_m4, mul_m4_v4. simpl. ring. }
  assert (Ht : set_transform_matrix_throws geo_ops
                 (reset_grid_matrix geo_ops grid_matrix (det4 grid_matrix)) = true).
  { simpl. apply bool_decide_eq_true_2.
    change (Rabs (det4 (reset_grid_matrix geo_ops grid_matrix (det4 grid_matrix)))
            < 3 / 10 ^ 15).
    rewrite Hr, Rabs_R0. lra. }
  assert (Hres : result
                 = ([{| grid_transform_matrix := scale_two; grid_tree := 0%nat |}],
                    {| volume_too_small := true; bad_volume_transform := true |})).
  { unfold result, transform_volume. rewrite transform_volume_grids_closed.
    unfold Notions.grid_matrix_to_store, Notions.grid_determinant_valid.
    cbn [fmap list_fmap existsb].
    change (determinant geo_ops (mul_m4 zero_m4 (grid_transform_matrix grid_scaled)))
      with (det4 grid_matrix).
    change (mul_m4 zero_m4 (grid_transform_matrix grid_scaled)) with grid_matrix.
    rewrite Hv, Ht. reflexivity. }
  split; [exact Hd|]. split; [exact Hv|]. rewrite Hres. split; [reflexivity|].
  eexists. split; [reflexivity|]. cbn. repeat split. intros [= H]. lra.
Qed.

End Runs.

(** * Further properties *)

(** ** Geometry transforms: translation against transformation *)

Section GeometryMore.
Import BLI GeoTransform Notions.
Context {Curves Mesh Tree : Type}.
Context (WITH_OPENVDB : bool) (ops : GeoOps Curves Mesh Tree).

Lemma mul_v3_m4v3_from_location (t v : float3) :
  mul_v3_m4v3 (from_location t) v = add_v3_v3 v t.
Proof. destruct t, v. unfold mul_v3_m4v3, add_v3_v3. simpl. f_equal; ring. Qed.

Lemma mul_m4_from_location (t : float3) (m : float4x4) :
  affine m -> mul_m4 (from_location t) m = translate_m4 m t.
Proof.
  destruct t as [tx ty tz], m as [[a0 a1 a2 a3] [b0 b1 b2 b3] [c0 c1 c2 c3] [d0 d1 d2 d3]].
  unfold affine. simpl. intros (-> & -> & -> & ->).
  unfold mul_m4, translate_m4, mul_m4_v4, set_axis, add_v3_v3, axis. simpl.
  f_equal; f_equal; ring.
Qed.

Lemma mul_m4_assoc (A B C : float4x4) : mul_m4 A (mul_m4 B C) = mul_m4 (mul_m4 A B) C.
Proof.
  destruct A as [[? ? ? ?] [? ? ? ?] [? ? ? ?] [? ? ? ?]],
           B as [[? ? ? ?] [? ? ? ?] [? ? ? ?] [? ? ? ?]],
           C as [[? ? ? ?] [? ? ? ?] [? ? ? ?] [? ? ? ?]].
  unfold mul_m4, mul_m4_v4. simpl. f_equal; f_equal; ring.
Qed.

Lemma mul_v3_m4v3_compose (A B : float4x4) (v : float3) :
  affine A -> mul_v3_m4v3 B (mul_v3_m4v3 A v) = mul_v3_m4v3 (mul_m4 B A) v.
Proof.
  destruct A as [[? ? ? ?] [? ? ? ?] [? ? ? ?] [? ? ? ?]],
           B as [[? ? ? ?] [? ? ? ?] [? ? ? ?] [? ? ? ?]], v.
  unfold affine. simpl. intros (-> & -> & -> & ->).
  unfold mul_v3_m4v3, mul_m4, mul_m4_v4. simpl. f_equal; ring.
Qed.

(** X1: a translation is the transformation by the translation matrix:
    [translate_positions] agrees with [transform_positions] of
    [from_location], and so do the instance, layer and gizmo variants on
    matrices whose last row is (0, 0, 0, 1). *)
Theorem translate_is_transform_by_location (translation : float3)
    (positions : list float3) (instances : list float4x4) (layers : list Layer) :
  Forall affine instances ->
  Forall (fun layer => affine (local_transform layer)) layers ->
  translate_positions positions translation
    = transform_positions positions (from_location translation)
  /\ translate_instances instances translation
     = transform_instances instances (from_location translation)
  /\ translate_greasepencil layers translation
     = transform_greasepencil layers (from_location translation)
  /\ translate_gizmos_edit_hints instances translation
     = transform_gizmo_edit_hints instances (from_location translation).
Proof.
  intros Hi Hl.
  assert (Hm : (fun m => translate_m4 m translation) <$> instances
               = mul_m4 (from_location translation) <$> instances).
  { apply Forall_fmap_ext_1. eapply Forall_impl; [exact Hi|].
    intros m Hm. cbv beta. by rewrite mul_m4_from_location. }
  split; [|split; [|split]].
  - unfold translate_positions, transform_positions. apply list_fmap_ext.
    intros i v _. by rewrite mul_v3_m4v3_from_location.
  - exact Hm.
  - unfold translate_greasepencil, transform_greasepencil. apply Forall_fmap_ext_1.
    eapply Forall_impl; [exact Hl|]. intros layer Ha. cbv beta.
    by rewrite mul_m4_from_location.
  - exact Hm.
Qed.

(** X2: transformations compose by the matrix product: transforming by [A]
    and then by [B] is transforming by [B * A], for instances, layers and
    gizmos whatever [A] and [B] are, and for positions when [A] has the
    last row (0, 0, 0, 1). *)
Theorem transform_composes (A B : float4x4) (positions : list float3)
    (instances : list float4x4) (layers : list Layer) :
  (affine A ->
   transform_positions (transform_positions positions A) B
   = transform_positions positions (mul_m4 B A))
  /\ transform_instances (transform_instances instances A) B
     = transform_instances instances (mul_m4 B A)
  /\ transform_greasepencil (transform_greasepencil layers A) B
     = transform_greasepencil layers (mul_m4 B A)
  /\ transform_gizmo_edit_hints (transform_gizmo_edit_hints instances A) B
     = transform_gizmo_edit_hints instances (mul_m4 B A).
Proof.
  assert (Hm : mul_m4 B <$> (mul_m4 A <$> instances) = mul_m4 (mul_m4 B A) <$> instances).
  { rewrite <- list_fmap_compose. apply list_fmap_ext. intros i m _. simpl.
    apply mul_m4_assoc. }
  split; [|split; [|split]].
  - intros Ha. unfold transform_positions. rewrite <- list_fmap_compose.
    apply list_fmap_ext. intros i v _. simpl. by apply mul_v3_m4v3_compose.
  - exact Hm.
  - unfold transform_greasepencil. rewrite <- list_fmap_compose. apply list_fmap_ext.
    intros i layer _. simpl. by rewrite mul_m4_assoc.
  - exact Hm.
Qed.

Lemma is_zero_negate (t : float3) : is_zero (negate t) = is_zero t.
Proof.
  destruct t as [x y z]. unfold is_zero, negate. simpl.
  f_equal; [f_equal|]; apply bool_decide_ext; split; intros; lra.
Qed.

(** X3: translations of a point cloud add up and can be undone: translating
    by [a] and then by [b] moves every position by [a + b], and translating
    by [t] and then by [-t] gives the point cloud back, positions and
    cached bounds. *)
Theorem translate_pointcloud_round_trip (pointcloud : PointCloud) (a b t : float3) :
  translate_positions (translate_positions (pointcloud_positions pointcloud) a) b
    = translate_positions (pointcloud_positions pointcloud) (add_v3_v3 a b)
  /\ translate_pointcloud (translate_pointcloud pointcloud t) (negate t) = pointcloud.
Proof.
  split.
  - unfold translate_positions. rewrite <- list_fmap_compose. apply list_fmap_ext.
    intros i [x y z] _. destruct a, b. unfold add_v3_v3. simpl. f_equal; ring.
  - unfold translate_pointcloud. rewrite is_zero_negate.
    destruct (is_zero t); [done|].
    destruct pointcloud as [positions cache]. cbn [pointcloud_positions bounds_cache].
    f_equal.
    + unfold translate_positions. rewrite <- list_fmap_compose.
      rewrite <- (list_fmap_id positions) at 2. apply list_fmap_ext.
      intros i [x y z] _. destruct t. unfold add_v3_v3, negate. simpl. f_equal; ring.
    + destruct cache as [[[x0 y0 z0] [x1 y1 z1]]|]; [|done].
      destruct t. unfold add_v3_v3, negate. simpl. do 2 f_equal; f_equal; ring.
Qed.

(** X4: [translate_pointcloud] keeps the bounds cache right: when the cached
    box contains every position before, a box is cached afterwards as
    well, and it contains every position of the translated point cloud. *)
Theorem translate_pointcloud_bounds_valid (pointcloud : PointCloud) (translation : float3)
    (b : Bounds) :
  bounds_cache pointcloud = Some b ->
  Forall (within_bounds b) (pointcloud_positions pointcloud) ->
  exists b',
    bounds_cache (translate_pointcloud pointcloud translation) = Some b'
    /\ Forall (within_bounds b')
         (pointcloud_positions (translate_pointcloud pointcloud translation)).
Proof.
  unfold translate_pointcloud. intros Hb Hin. destruct (is_zero translation); [eauto|].
  cbn [bounds_cache pointcloud_positions]. rewrite Hb. eexists. split; [reflexivity|].
  unfold translate_positions. apply Forall_fmap. eapply Forall_impl; [exact Hin|].
  intros [x y z]. destruct b as [[x0 y0 z0] [x1 y1 z1]], translation.
  unfold within_bounds, add_v3_v3. simpl. lra.
Qed.

(** Whether the combined matrix of a grid has a valid determinant. *)
Lemma transform_volume_grid_too_small transform (grid : VolumeGridData Tree) r_errors :
  volume_too_small (transform_volume_grid ops transform grid r_errors).2
  = volume_too_small r_errors
    || negb (BKE_volume_grid_determinant_valid ops
               (determinant ops (mul_m4 transform (grid_transform_matrix grid)))).
Proof.
  unfold transform_volume_grid.
  destruct (BKE_volume_grid_determinant_valid ops _); simpl;
    destruct (set_transform_matrix_throws ops _); simpl;
    by rewrite ?orb_true_r, ?orb_false_r.
Qed.

Lemma transform_volume_grids_too_small transform (grids : list (VolumeGridData Tree))
    r_errors :
  volume_too_small (transform_volume_grids ops transform grids r_errors).2
  = volume_too_small r_errors
    || existsb (fun grid =>
         negb (BKE_volume_grid_determinant_valid ops
                 (determinant ops (mul_m4 transform (grid_transform_matrix grid))))) grids.
Proof.
  revert r_errors. induction grids as [|g grids IH]; intros e; simpl.
  { by rewrite orb_false_r. }
  pose proof (transform_volume_grid_too_small transform g e) as Hg.
  destruct (transform_volume_grid ops transform g e) as [g' e'].
  specialize (IH e').
  destruct (transform_volume_grids ops transform grids e') as [gs' e''].
  simpl in *. by rewrite IH, Hg, orb_assoc.
Qed.

(** X5: [transform_geometry] returns an error record exactly when the
    transform is not the identity, the build has OpenVDB, and some grid of
    the volume has a combined matrix with an invalid determinant; the
    record then has [volume_too_small] set.  A matrix that the grid refuses
    (only [bad_volume_transform]) is never reported. *)
Theorem transform_geometry_error_iff_too_small
    (geometry : GeometrySet Curves Mesh Tree) (transform : float4x4) :
  (is_Some (transform_geometry WITH_OPENVDB ops geometry transform).2 <->
     transform <> identity /\ WITH_OPENVDB = true
     /\ exists volume grid,
          gs_volume geometry = Some volume /\ grid ∈ volume
          /\ BKE_volume_grid_determinant_valid ops
               (determinant ops (mul_m4 transform (grid_transform_matrix grid))) = false)
  /\ (forall errors,
        (transform_geometry WITH_OPENVDB ops geometry transform).2 = Some errors ->
        volume_too_small errors = true).
Proof.
  unfold transform_geometry. case_bool_decide as Hid.
  { simpl. split; [|done]. split; [by intros [? ?]|]. by intros (? & _). }
  destruct (gs_volume geometry) as [volume|] eqn:Hv.
  2:{ simpl. split; [|done]. split; [by intros [? ?]|]. by intros (_ & _ & ? & ? & ? & _). }
  unfold transform_volume. destruct WITH_OPENVDB.
  2:{ simpl. split; [|done]. split; [by intros [? ?]|]. by intros (_ & ? & _). }
  pose proof (transform_volume_grids_too_small transform volume no_errors) as Hs.
  destruct (transform_volume_grids ops transform volume no_errors) as [volume' errors].
  simpl in Hs.
  destruct (volume_too_small errors) eqn:He; simpl.
  - split; [|by intros ? [= <-]]. split; [|by eauto]. intros _. split; [done|].
    split; [done|]. symmetry in Hs. apply existsb_exists in Hs as (grid & Hin & Hg).
    exists volume, grid. split; [done|]. split; [by apply list_elem_of_In|].
    by apply negb_true_iff.
  - split; [|done]. split; [by intros [? ?]|].
    intros (_ & _ & volume0 & grid & [= <-] & Hin & Hg). exfalso.
    assert (existsb (fun grid =>
              negb (BKE_volume_grid_determinant_valid ops
                      (determinant ops (mul_m4 transform (grid_transform_matrix grid)))))
              volume = true) as Hex.
    { apply existsb_exists. exists grid. split; [by apply list_elem_of_In|].
      by rewrite Hg. }
    by rewrite Hex in Hs.
Qed.

(** X6: with OpenVDB, when the combined matrix of every grid has a valid
    determinant and is accepted by the grid, [transform_volume] stores
    [transform * grid_matrix] in every grid, keeps every tree, and leaves
    the error record as it was. *)
Theorem transform_volume_valid (volume : list (VolumeGridData Tree)) (transform : float4x4)
    (r_errors : TransformGeometryErrors) :
  Forall (fun grid =>
    let grid_matrix := mul_m4 transform (grid_transform_matrix grid) in
    BKE_volume_grid_determinant_valid ops (determinant ops grid_matrix) = true
    /\ set_transform_matrix_throws ops grid_matrix = false) volume ->
  transform_volume true ops volume transform r_errors
  = ((fun grid =>
        {| grid_transform_matrix := mul_m4 transform (grid_transform_matrix grid);
           grid_tree := grid_tree grid |}) <$> volume,
     r_errors).
Proof.
  unfold transform_volume. induction 1 as [|g grids [Hd Ht] _ IH]; [done|].
  simpl. unfold transform_volume_grid at 1. rewrite Hd. simpl. rewrite Ht.
  by rewrite IH.
Qed.

Lemma m3_of_m4_mul_m4 (A B : float4x4) :
  affine A -> m3_of_m4 (mul_m4 B A) = mul_m3 (m3_of_m4 B) (m3_of_m4 A).
Proof.
  destruct A as [[? ? ? ?] [? ? ? ?] [? ? ? ?] [? ? ? ?]],
           B as [[? ? ? ?] [? ? ? ?] [? ? ? ?] [? ? ? ?]].
  unfold affine. simpl. intros (-> & -> & -> & ->).
  unfold m3_of_m4, mul_m3, mul_m3_v3, mul_m4, mul_m4_v4, axis. simpl.
  f_equal; f_equal; ring.
Qed.

Lemma mul_m3_assoc (A B C : float3x3) : mul_m3 A (mul_m3 B C) = mul_m3 (mul_m3 A B) C.
Proof.
  destruct A as [[? ? ?] [? ? ?] [? ? ?]], B as [[? ? ?] [? ? ?] [? ? ?]],
           C as [[? ? ?] [? ? ?] [? ? ?]].
  unfold mul_m3, mul_m3_v3. simpl. f_equal; f_equal; ring.
Qed.

Lemma transform_deform_mats_compose (mats : option (list float3x3)) (n : nat)
    (A B : float4x4) :
  affine A ->
  transform_deform_mats (transform_deform_mats mats n (m3_of_m4 A)) n (m3_of_m4 B)
  = transform_deform_mats mats n (m3_of_m4 (mul_m4 B A)).
Proof.
  intros Ha. rewrite (m3_of_m4_mul_m4 A B Ha). destruct mats as [mats|]; simpl.
  - f_equal. rewrite <- list_fmap_compose. apply list_fmap_ext. intros i m _. simpl.
    apply mul_m3_assoc.
  - by rewrite fmap_replicate.
Qed.

(** X7: the edit hints accumulate transformations: after
    [transform_curve_edit_hints] the deform matrices are present (one per
    original point when there were none before), and transforming the
    hints by [A] and then by [B] is transforming them by [B * A], for [A]
    with the last row (0, 0, 0, 1). *)
Theorem transform_curve_edit_hints_composes (edit_hints : CurvesEditHints)
    (A B : float4x4) :
  affine A ->
  transform_curve_edit_hints (transform_curve_edit_hints edit_hints A) B
    = transform_curve_edit_hints edit_hints (mul_m4 B A)
  /\ (deform_mats edit_hints = None ->
      deform_mats (transform_curve_edit_hints edit_hints A)
      = Some (replicate (curves_orig_point_num edit_hints) (m3_of_m4 A)))
  /\ (forall hints,
        transform_grease_pencil_edit_hints (transform_grease_pencil_edit_hints hints A) B
        = transform_grease_pencil_edit_hints hints (mul_m4 B A)).
Proof.
  intros Ha. split; [|split].
  - unfold transform_curve_edit_hints. cbn [hint_positions deform_mats curves_orig_point_num].
    f_equal.
    + destruct (hint_positions edit_hints) as [positions|]; [|done]. simpl. f_equal.
      unfold transform_positions. rewrite <- list_fmap_compose. apply list_fmap_ext.
      intros i v _. simpl. by apply mul_v3_m4v3_compose.
    + by apply transform_deform_mats_compose.
  - intros Hn. unfold transform_curve_edit_hints. simpl. by rewrite Hn.
  - intros [hints|]; [|done]. simpl. f_equal. rewrite <- list_fmap_compose.
    apply list_fmap_ext. intros i h _. simpl. f_equal.
    + destruct (drawing_positions h) as [positions|]; [|done]. simpl. f_equal.
      unfold transform_positions. rewrite <- list_fmap_compose. apply list_fmap_ext.
      intros j v _. simpl. by apply mul_v3_m4v3_compose.
    + by apply transform_deform_mats_compose.
Qed.

(** X8: [transform_volume] treats each grid on its own and only ever
    raises error flags.  With OpenVDB, the grid at each place afterwards
    depends on the grid that was there and on the transform alone: its
    tree is kept when the determinant of its combined matrix is valid and
    cleared otherwise, and its matrix is the combined matrix, reset when
    the determinant is not valid, unless that matrix is refused, in which
    case it is the matrix the grid had.  [volume_too_small] is set
    afterwards exactly when it was set before or some grid has an invalid
    determinant, [bad_volume_transform] exactly when it was set before or
    some matrix was refused.  Without OpenVDB nothing changes. *)
Theorem transform_volume_per_grid (volume : list (VolumeGridData Tree))
    (transform : float4x4) (r_errors : TransformGeometryErrors) :
  let combined grid := mul_m4 transform (grid_transform_matrix grid) in
  let valid grid :=
    BKE_volume_grid_determinant_valid ops (determinant ops (combined grid)) in
  let to_store grid :=
    if valid grid then combined grid
    else reset_grid_matrix ops (combined grid) (determinant ops (combined grid)) in
  transform_volume true ops volume transform r_errors
  = ((fun grid =>
        {| grid_transform_matrix :=
             if set_transform_matrix_throws ops (to_store grid)
             then grid_transform_matrix grid else to_store grid;
           grid_tree :=
             if valid grid then grid_tree grid else clear_tree ops (grid_tree grid) |})
       <$> volume,
     {| volume_too_small :=
          volume_too_small r_errors || existsb (fun grid => negb (valid grid)) volume;
        bad_volume_transform :=
          bad_volume_transform r_errors
          || existsb (fun grid => set_transform_matrix_throws ops (to_store grid)) volume |})
  /\ transform_volume false ops volume transform r_errors = (volume, r_errors).
Proof.
  intros combined valid to_store. split; [|done].
  unfold transform_volume. revert r_errors.
  induction volume as [|g grids IH]; intros e.
  - destruct e. cbn. by rewrite !orb_false_r.
  - cbn [transform_volume_grids]. rewrite (transform_volume_grid_closed ops), IH.
    cbn. by rewrite !orb_assoc.
Qed.

(** X9: [translate_geometry] is not [transform_geometry] by the translation
    matrix on edit hints: it leaves the grease pencil edit hints as they
    are, positions included, and it does not touch the deform matrices of
    the curve edit hints, while [transform_geometry] moves the hint
    positions and initialises the deform matrices. *)
Theorem translate_geometry_skips_edit_hints (geometry : GeometrySet Curves Mesh Tree)
    (translation : float3) (hints : CurvesEditHints)
    (drawing : GreasePencilDrawingEditHints) (rest : list GreasePencilDrawingEditHints)
    (p : float3) (positions : list float3) :
  is_zero translation = false ->
  gs_curve_edit_hints geometry = Some hints ->
  deform_mats hints = None ->
  gs_grease_pencil_edit_hints geometry = Some (Some (drawing :: rest)) ->
  drawing_positions drawing = Some (p :: positions) ->
  let translated := translate_geometry WITH_OPENVDB ops geometry translation in
  let transformed :=
    (transform_geometry WITH_OPENVDB ops geometry (from_location translation)).1 in
  gs_grease_pencil_edit_hints translated = gs_grease_pencil_edit_hints geometry
  /\ gs_grease_pencil_edit_hints transformed <> gs_grease_pencil_edit_hints geometry
  /\ (deform_mats <$> gs_curve_edit_hints translated) = Some None
  /\ (deform_mats <$> gs_curve_edit_hints transformed)
     = Some (Some (replicate (curves_orig_point_num hints)
                     (m3_of_m4 (from_location translation)))).
Proof.
  intros Hz Hc Hd Hg Hp translated transformed. subst translated transformed.
  assert (Hne : from_location translation <> identity).
  { intros Heq. destruct translation as [x y z]. unfold is_zero in Hz. simpl in Hz.
    unfold from_location, identity in Heq. injection Heq as -> -> ->.
    by rewrite !bool_decide_eq_true_2 in Hz. }
  assert (Hmove : add_v3_v3 p translation <> p).
  { destruct p as [px py pz], translation as [x y z]. unfold add_v3_v3. simpl.
    intros [= Hx Hy Hzz]. unfold is_zero in Hz. simpl in Hz.
    rewrite !bool_decide_eq_true_2 in Hz by lra. done. }
  unfold translate_geometry, transform_geometry. rewrite Hz.
  rewrite (bool_decide_eq_false_2 _ Hne).
  destruct (match gs_volume geometry with Some _ => _ | None => _ end) as [volume errors].
  split; [done|]. split.
  - destruct (volume_too_small errors); simpl; rewrite Hg; simpl; rewrite Hp; simpl;
      rewrite mul_v3_m4v3_from_location; intros [= Heq _];
      apply (f_equal drawing_positions) in Heq; simpl in Heq; rewrite Hp in Heq;
      injection Heq as Heq _; by apply Hmove.
  - destruct (volume_too_small errors); simpl; rewrite Hc; simpl; by rewrite Hd.
Qed.

End GeometryMore.

Section GeometryRuns.
Import BLI GeoTransform Notions Example ExampleOp.

Lemma affine_identity : affine identity.
Proof. by unfold affine. Qed.

Lemma affine_ob_matrix : affine ob_matrix.
Proof. by unfold affine. Qed.

Lemma ob_matrix_determinant : det4 (mul_m4 ob_matrix identity) = 8.
Proof. unfold det4, det3, mul_m4, mul_m4_v4. simpl. ring. Qed.

Lemma translate_is_transform_by_location_witness :
  translate_positions [Float3 0 0 0] (Float3 1 2 3)
    = transform_positions [Float3 0 0 0] (from_location (Float3 1 2 3))
  /\ translate_instances [ob_matrix] (Float3 1 2 3)
     = transform_instances [ob_matrix] (from_location (Float3 1 2 3)).
Proof.
  destruct (translate_is_transform_by_location (Float3 1 2 3) [Float3 0 0 0] [ob_matrix]
              [{| local_transform := identity |}]) as (Hp & Hi & _).
  - repeat constructor.
  - repeat constructor.
  - by split.
Defined.

Lemma transform_composes_witness :
  transform_positions (transform_positions [Float3 1 0 0] ob_matrix) flatten_x
    = transform_positions [Float3 1 0 0] (mul_m4 flatten_x ob_matrix)
  /\ transform_instances (transform_instances [flatten_x] zero_m4) ob_matrix
     = transform_instances [flatten_x] (mul_m4 ob_matrix zero_m4)
  /\ transform_greasepencil
       (transform_greasepencil [{| local_transform := ob_matrix |}] flatten_x) ob_matrix
     = transform_greasepencil [{| local_transform := ob_matrix |}]
         (mul_m4 ob_matrix flatten_x).
Proof.
  destruct (transform_composes ob_matrix flatten_x [Float3 1 0 0] [] [])
    as (Hp & _).
  destruct (transform_composes zero_m4 ob_matrix [] [flatten_x] []) as (_ & Hi & _).
  destruct (transform_composes flatten_x ob_matrix [] []
              [{| local_transform := ob_matrix |}]) as (_ & _ & Hl & _).
  split; [exact (Hp affine_ob_matrix)|]. split; [exact Hi|exact Hl].
Defined.

Lemma translate_pointcloud_bounds_valid_witness :
  exists b',
    bounds_cache (translate_pointcloud point_cloud (Float3 1 0 0)) = Some b'
    /\ Forall (within_bounds b')
         (pointcloud_positions (translate_pointcloud point_cloud (Float3 1 0 0))).
Proof.
  apply (translate_pointcloud_bounds_valid point_cloud (Float3 1 0 0)
           {| bounds_min := Float3 0 0 0; bounds_max := Float3 1 2 3 |}).
  - reflexivity.
  - repeat constructor; simpl; lra.
Defined.

Lemma transform_geometry_error_iff_too_small_witness :
  is_Some (transform_geometry true geo_ops geometry flatten_x).2.
Proof.
  apply (transform_geometry_error_iff_too_small true geo_ops geometry flatten_x).
  split; [|split; [done|]].
  - intros [= Hx]. lra.
  - exists [grid], grid. split; [done|]. split; [by constructor|].
    simpl. rewrite flatten_x_determinant, Rabs_R0. apply bool_decide_eq_false_2. lra.
Defined.

Lemma transform_volume_valid_witness :
  transform_volume true geo_ops [grid] ob_matrix no_errors
  = ([{| grid_transform_matrix := mul_m4 ob_matrix identity; grid_tree := 8%nat |}],
     no_errors).
Proof.
  apply (transform_volume_valid geo_ops [grid] ob_matrix no_errors).
  repeat constructor; simpl; rewrite ob_matrix_determinant, Rabs_pos_eq by lra.
  - apply bool_decide_eq_true_2. lra.
  - apply bool_decide_eq_false_2. lra.
Defined.

Lemma transform_curve_edit_hints_composes_witness :
  transform_curve_edit_hints (transform_curve_edit_hints edit_hints ob_matrix) flatten_x
  = transform_curve_edit_hints edit_hints (mul_m4 flatten_x ob_matrix).
Proof.
  destruct (transform_curve_edit_hints_composes edit_hints ob_matrix flatten_x) as (H & _).
  - exact affine_ob_matrix.
  - exact H.
Defined.

Lemma translate_geometry_skips_edit_hints_witness :
  gs_grease_pencil_edit_hints (translate_geometry true geo_ops geometry (Float3 1 0 0))
    = Some (Some [drawing_hints])
  /\ gs_grease_pencil_edit_hints
       (transform_geometry true geo_ops geometry (from_location (Float3 1 0 0))).1
     <> Some (Some [drawing_hints]).
Proof.
  destruct (translate_geometry_skips_edit_hints true geo_ops geometry (Float3 1 0 0)
              edit_hints drawing_hints [] (Float3 1 0 0) [])
    as (H1 & H2 & _).
  - unfold is_zero. simpl. rewrite bool_decide_eq_false_2 by lra. done.
  - reflexivity.
  - reflexivity.
  - reflexivity.
  - reflexivity.
  - by split.
Defined.

End GeometryRuns.

(** ** Samples: radius, pressure edits and taper *)

Section StrokeMore.
Import BLI CurvePaint Spec Notions.
Context (ops : ViewOps).

(** X10: the radius stays in the configured range: for a pressure between
    0 and 1 the radius of a sample lies between [radius_min] and
    [radius_min + radius_range], scaled by the bevel radius of the curve,
    and the radius stored in a poly point lies between the minimum and the
    maximum radius of the settings. *)
Theorem stroke_radius_within_range (cdd : CurveDrawData) (cps : CurvePaintSettings)
    (is_3d use_radius : bool) (selem : StrokeElem) :
  0 <= radius_range (radius cdd) ->
  0 <= bevel_radius (data (obedit cdd)) ->
  cps_radius_min cps <= cps_radius_max cps ->
  0 <= pressure selem <= 1 ->
  radius_min (radius cdd) * bevel_radius (data (obedit cdd))
    <= stroke_elem_radius cdd selem
    <= (radius_min (radius cdd) + radius_range (radius cdd))
       * bevel_radius (data (obedit cdd))
  /\ cps_radius_min cps
       <= bp_radius (bpoint_of_elem cps is_3d use_radius selem)
       <= cps_radius_max cps.
Proof.
  intros Hr Hb Hm Hp. split.
  - unfold stroke_elem_radius, stroke_elem_radius_from_pressure.
    set (b := bevel_radius _) in *. set (r := radius_range _) in *.
    set (m := radius_min _). set (q := pressure selem) in *.
    assert (0 <= q * r <= r) by nra. clearbody b r m q. nra.
  - unfold bpoint_of_elem. cbn [bp_radius]. destruct use_radius; [|lra].
    set (q := pressure selem) in *. clearbody q. nra.
Qed.

(** X11: pressure edits compose and can be undone: setting the pressure
    twice is setting it to the last value, and on a sample whose world
    position is the transform of its local one, setting the pressure and
    then setting it back gives the sample back. *)
Theorem stroke_elem_pressure_set_composes (cdd : CurveDrawData) (selem : StrokeElem)
    (p1 p2 : R) :
  stroke_elem_pressure_set cdd (stroke_elem_pressure_set cdd selem p1) p2
    = stroke_elem_pressure_set cdd selem p2
  /\ (local_world_consistent cdd selem ->
      stroke_elem_pressure_set cdd (stroke_elem_pressure_set cdd selem p1) (pressure selem)
      = selem).
Proof.
  assert (Hc : forall q1 q2,
            stroke_elem_pressure_set cdd (stroke_elem_pressure_set cdd selem q1) q2
            = stroke_elem_pressure_set cdd selem q2).
  { intros q1 q2. unfold stroke_elem_pressure_set.
    destruct (bool_decide (surface_offset (project cdd) <> 0)
              && negb (use_surface_offset_absolute (project cdd))
              && negb (is_zero_v3 (normal_local selem))) eqn:Hb;
      cbn [normal_local pressure location_local mval normal_world location_world];
      rewrite Hb; [|done].
    assert (Hl : madd_v3_v3fl
                   (madd_v3_v3fl (location_local selem) (normal_local selem)
                      (stroke_elem_radius_from_pressure cdd q1
                       - stroke_elem_radius_from_pressure cdd (pressure selem)))
                   (normal_local selem)
                   (stroke_elem_radius_from_pressure cdd q2
                    - stroke_elem_radius_from_pressure cdd q1)
                 = madd_v3_v3fl (location_local selem) (normal_local selem)
                     (stroke_elem_radius_from_pressure cdd q2
                      - stroke_elem_radius_from_pressure cdd (pressure selem))).
    { unfold madd_v3_v3fl. simpl. f_equal; ring. }
    by rewrite Hl. }
  split; [apply Hc|]. intros Hw. rewrite Hc.
  unfold stroke_elem_pressure_set.
  destruct (bool_decide (surface_offset (project cdd) <> 0)
            && negb (use_surface_offset_absolute (project cdd))
            && negb (is_zero_v3 (normal_local selem))); [|by destruct selem].
  assert (Hl : madd_v3_v3fl (location_local selem) (normal_local selem)
                 (stroke_elem_radius_from_pressure cdd (pressure selem)
                  - stroke_elem_radius_from_pressure cdd (pressure selem))
               = location_local selem).
  { unfold madd_v3_v3fl. destruct (location_local selem). simpl. f_equal; ring. }
  cbv zeta. rewrite Hl. unfold local_world_consistent in Hw. rewrite <- Hw.
  by destruct selem.
Qed.

Lemma Rdiv_between (a b : R) : 0 <= a -> a < b -> 0 <= a / b <= 1.
Proof.
  intros Ha Hb. assert (0 < / b) by (apply Rinv_0_lt_compat; lra). split.
  - apply Rmult_le_pos; lra.
  - apply (Rmult_le_reg_r b); [lra|]. unfold Rdiv. rewrite Rmult_assoc, Rinv_l; lra.
Qed.

Lemma stroke_lengths_from_last (rest : list StrokeElem) :
  forall (selem_prev : StrokeElem) (len_3d : R),
    last (len_3d :: (stroke_lengths_from selem_prev len_3d rest).1)
    = Some (stroke_lengths_from selem_prev len_3d rest).2.
Proof.
  induction rest as [|selem rest IH]; intros selem_prev len_3d; [done|].
  cbn [stroke_lengths_from].
  specialize (IH selem (len_3d + len_v3v3 (location_local selem) (location_local selem_prev))).
  destruct (stroke_lengths_from selem _ rest) as [lengths total]. simpl in *.
  exact IH.
Qed.

Lemma stroke_lengths_last (pool : list StrokeElem) :
  pool <> [] -> last (stroke_lengths pool).1 = Some (stroke_lengths pool).2.
Proof.
  destruct pool as [|selem rest]; [done|]. intros _. unfold stroke_lengths.
  pose proof (stroke_lengths_from_last rest selem 0) as Hl.
  by destruct (stroke_lengths_from selem 0 rest).
Qed.

(** The sample at an index after the taper, from the sample before it. *)
Lemma precalc_taper_lookup (cdd : CurveDrawData) (cps : CurvePaintSettings)
    (pool : list StrokeElem) (i : nat) (selem : StrokeElem) :
  pool !! i = Some selem ->
  let T := (stroke_lengths pool).2 in
  let s := radius_taper_start cps in
  let e := radius_taper_end cps in
  let L := (stroke_lengths pool).1 !!! i in
  let selem1 :=
    if bool_decide (s <> 0) && bool_decide (L < s * T)
    then stroke_elem_pressure_set cdd selem (pressure selem * (L / (s * T)))
    else selem in
  let selem2 :=
    if bool_decide (e <> 0) && bool_decide (1 <= i)%nat && bool_decide (L > T - e * T)
    then stroke_elem_pressure_set cdd selem1 (pressure selem1 * ((T - L) / (e * T)))
    else selem1 in
  curve_draw_exec_precalc_taper cdd cps pool !! i = Some selem2.
Proof.
  intros Hi T s e L selem1 selem2.
  assert (Hne : pool <> []) by (by intros ->).
  destruct (stroke_lengths_props pool Hne) as (Hlen & _ & _ & Hmono & _).
  set (lengths := (stroke_lengths pool).1) in *.
  pose proof (lookup_lt_Some _ _ _ Hi) as Hlt.
  unfold curve_draw_exec_precalc_taper.
  replace (stroke_lengths pool) with (lengths, T)
    by (unfold lengths, T; by destruct (stroke_lengths pool)).
  fold s e.
  assert (H1 : (if bool_decide (s <> 0)
                then taper_start_loop cdd lengths (s * T) (length pool) (length pool) 0 pool
                else pool) !! i = Some selem1).
  { unfold selem1. destruct (bool_decide (s <> 0)); cbn [andb]; [|done].
    rewrite (taper_start_loop_lookup cdd lengths Hmono (s * T) (length pool))
      by (done || lia).
    rewrite (bool_decide_eq_true_2 (0 <= i)%nat) by lia. cbn [andb]. fold L.
    rewrite Hi. by destruct (bool_decide (L < s * T)). }
  set (pool1 := if bool_decide (s <> 0) then _ else pool) in *.
  assert (H2 : (if bool_decide (e <> 0)
                then taper_end_loop cdd lengths T (e * T) (T - e * T) (length pool - 1) pool1
                else pool1) !! i = Some selem2).
  { unfold selem2. destruct (bool_decide (e <> 0)); cbn [andb]; [|done].
    rewrite (taper_end_loop_lookup cdd lengths Hmono T (e * T) (T - e * T)) by lia.
    fold L. rewrite H1.
    rewrite (bool_decide_ext (1 <= i <= length pool - 1)%nat (1 <= i)%nat) by lia.
    by destruct (bool_decide (1 <= i)%nat), (bool_decide (L > T - e * T)). }
  unfold pool1 in *.
  destruct (bool_decide (s <> 0)), (bool_decide (e <> 0)); cbn [orb]; done.
Qed.

Lemma stroke_elem_pressure_set_place (cdd : CurveDrawData) (selem : StrokeElem) (p : R) :
  same_sample_place selem (stroke_elem_pressure_set cdd selem p).
Proof. unfold same_sample_place, stroke_elem_pressure_set. by destruct (_ && _). Qed.

(** X12: the taper only lowers the pressure: a sample with a pressure that
    is not negative has, after the taper, a pressure between 0 and the one
    before.  On a stroke of positive length, a start taper brings the
    pressure of the first sample to 0 and an end taper that of the last
    one. *)
Theorem taper_lowers_pressure (cdd : CurveDrawData) (cps : CurvePaintSettings)
    (pool : list StrokeElem) (i : nat) (selem : StrokeElem) :
  pool !! i = Some selem ->
  0 <= pressure selem ->
  exists selem',
    curve_draw_exec_precalc_taper cdd cps pool !! i = Some selem'
    /\ 0 <= pressure selem' <= pressure selem
    /\ (0 < (stroke_lengths pool).2 -> 0 < radius_taper_start cps -> i = 0%nat ->
        pressure selem' = 0)
    /\ (0 < (stroke_lengths pool).2 -> 0 < radius_taper_end cps -> S i = length pool ->
        pressure selem' = 0).
Proof.
  intros Hi Hp. pose proof (precalc_taper_lookup cdd cps pool i selem Hi) as Hl.
  cbv zeta in Hl. eexists. split; [exact Hl|].
  assert (Hne : pool <> []) by (by intros ->).
  destruct (stroke_lengths_props pool Hne) as (Hlen & H0 & Hbound & _ & _).
  pose proof (stroke_lengths_last pool Hne) as Hlast.
  set (lengths := (stroke_lengths pool).1) in *.
  set (T := (stroke_lengths pool).2) in *.
  set (s := radius_taper_start cps) in *. set (e := radius_taper_end cps) in *.
  assert (HL : lengths !! i = Some (lengths !!! i)).
  { apply list_lookup_lookup_total_lt. rewrite Hlen. by eapply lookup_lt_Some. }
  destruct (Hbound _ _ HL) as [HL0 HLT].
  set (L := lengths !!! i) in *.
  set (selem1 := if bool_decide (s <> 0) && bool_decide (L < s * T) then _ else selem).
  assert (H1 : 0 <= pressure selem1 <= pressure selem
               /\ (bool_decide (s <> 0) && bool_decide (L < s * T) = true ->
                   pressure selem1 = pressure selem * (L / (s * T)))).
  { unfold selem1. destruct (bool_decide (s <> 0) && bool_decide (L < s * T)) eqn:Hb.
    - rewrite stroke_elem_pressure_set_pressure. split; [|done].
      apply andb_true_iff in Hb as [_ Hb]. apply bool_decide_eq_true_1 in Hb.
      assert (0 <= L / (s * T) <= 1) by (apply Rdiv_between; lra).
      set (q := pressure selem) in *. clearbody q. nra.
    - split; [lra|done]. }
  destruct H1 as [H1 H1s]. clearbody selem1.
  set (selem2 := if bool_decide (e <> 0) && bool_decide (1 <= i)%nat
                    && bool_decide (L > T - e * T) then _ else selem1).
  assert (H2 : 0 <= pressure selem2 <= pressure selem1
               /\ (bool_decide (e <> 0) && bool_decide (1 <= i)%nat
                   && bool_decide (L > T - e * T) = true ->
                   pressure selem2 = pressure selem1 * ((T - L) / (e * T)))).
  { unfold selem2.
    destruct (bool_decide (e <> 0) && bool_decide (1 <= i)%nat
              && bool_decide (L > T - e * T)) eqn:Hb.
    - rewrite stroke_elem_pressure_set_pressure. split; [|done].
      apply andb_true_iff in Hb as [_ Hb]. apply bool_decide_eq_true_1 in Hb.
      assert (0 <= (T - L) / (e * T) <= 1) by (apply Rdiv_between; lra).
      set (q := pressure selem1) in *. clearbody q. nra.
    - split; [lra|done]. }
  destruct H2 as [H2 H2e]. clearbody selem2.
  split; [lra|]. split.
  - intros HT Hs ->. assert (L = 0) as HLz.
    { unfold L. apply list_lookup_total_correct. exact H0. }
    rewrite HLz in *.
    assert (pressure selem1 = 0) as Hz.
    { rewrite H1s.
      - unfold Rdiv. ring.
      - rewrite !bool_decide_eq_true_2; [done| |lra]. apply Rmult_lt_0_compat; lra. }
    lra.
  - intros HT He Hn. assert (L = T) as HLz.
    { unfold L. apply list_lookup_total_correct. rewrite last_lookup in Hlast.
      rewrite Hlen in Hlast. replace i with (pred (length pool)) by lia. exact Hlast. }
    assert (1 <= i)%nat as Hi1.
    { destruct i as [|i]; [|lia]. exfalso.
      rewrite H0 in HL. injection HL as HL. fold L in HL. lra. }
    rewrite H2e.
    + rewrite HLz. unfold Rdiv. ring.
    + rewrite !bool_decide_eq_true_2; [done| |done|lra].
      rewrite HLz. assert (0 < e * T) by (apply Rmult_lt_0_compat; lra). lra.
Qed.

Lemma taper_elem_Forall2 (P : StrokeElem -> StrokeElem -> Prop) (cdd : CurveDrawData) :
  (forall a b p, P a b -> P a (stroke_elem_pressure_set cdd b p)) ->
  forall (f : R -> R) (i : nat) (pool0 pool : list StrokeElem),
    Forall2 P pool0 pool -> Forall2 P pool0 (taper_elem cdd f i pool).
Proof.
  intros HP f i pool0 pool H2. unfold taper_elem.
  destruct (pool !! i) as [selem|] eqn:Ei; [|done].
  destruct (Forall2_lookup_r _ _ _ _ _ H2 Ei) as (a & Ha & Hab).
  rewrite <- (list_insert_id pool0 i a Ha). apply Forall2_insert; [done|]. by apply HP.
Qed.

Lemma precalc_taper_Forall2 (P : StrokeElem -> StrokeElem -> Prop) (cdd : CurveDrawData)
    (cps : CurvePaintSettings) (pool : list StrokeElem) :
  (forall a, P a a) ->
  (forall a b p, P a b -> P a (stroke_elem_pressure_set cdd b p)) ->
  Forall2 P pool (curve_draw_exec_precalc_taper cdd cps pool).
Proof.
  intros Hrefl HP.
  assert (H0 : Forall2 P pool pool) by (apply Forall_Forall2_diag, Forall_forall; auto).
  assert (Hs : forall lengths m n fuel i pool',
            Forall2 P pool pool' ->
            Forall2 P pool (taper_start_loop cdd lengths m n fuel i pool')).
  { intros lengths m n fuel. induction fuel as [|fuel IH]; intros i pool' H2;
      cbn [taper_start_loop]; [done|].
    destruct (_ && _); [|done]. apply IH. by apply taper_elem_Forall2. }
  assert (He : forall lengths t m n i pool',
            Forall2 P pool pool' ->
            Forall2 P pool (taper_end_loop cdd lengths t m n i pool')).
  { intros lengths t m n i. induction i as [|i IH]; intros pool' H2;
      cbn [taper_end_loop]; [done|].
    destruct (bool_decide _); [|done]. apply IH. by apply taper_elem_Forall2. }
  unfold curve_draw_exec_precalc_taper. destruct (_ || _); [|done].
  destruct (stroke_lengths pool) as [lengths T].
  destruct (bool_decide (radius_taper_start cps <> 0)),
           (bool_decide (radius_taper_end cps <> 0)); auto.
Qed.

Lemma taper_keeps_length (cdd : CurveDrawData) (cps : CurvePaintSettings)
    (pool : list StrokeElem) :
  length (curve_draw_exec_precalc_taper cdd cps pool) = length pool.
Proof.
  symmetry. apply (Forall2_length (fun _ _ => True)).
  by apply precalc_taper_Forall2.
Qed.

(** X13: the taper keeps the samples in place: the pool has the same
    number of samples afterwards, each with the screen position and the
    normals it had; without a surface offset the positions are kept as
    well, so that only the pressure changes. *)
Theorem taper_keeps_samples_in_place (cdd : CurveDrawData) (cps : CurvePaintSettings)
    (pool : list StrokeElem) :
  Forall2 same_sample_place pool (curve_draw_exec_precalc_taper cdd cps pool)
  /\ length (curve_draw_exec_precalc_taper cdd cps pool) = length pool
  /\ (surface_offset (project cdd) = 0 ->
      Forall2 (fun selem selem' =>
                 location_world selem' = location_world selem
                 /\ location_local selem' = location_local selem)
        pool (curve_draw_exec_precalc_taper cdd cps pool)).
Proof.
  assert (H1 : Forall2 same_sample_place pool (curve_draw_exec_precalc_taper cdd cps pool)).
  { apply precalc_taper_Forall2; [done|].
    intros a b p (Hm & Hw & Hl). unfold same_sample_place.
    destruct (stroke_elem_pressure_set_place cdd b p) as (Hm' & Hw' & Hl').
    by rewrite Hm', Hw', Hl'. }
  split; [done|]. split; [symmetry; by eapply Forall2_length|].
  intros Hz. apply precalc_taper_Forall2; [done|].
  intros a b p [Hw Hl]. unfold stroke_elem_pressure_set.
  rewrite (bool_decide_eq_false_2 (surface_offset (project cdd) <> 0)) by (by intros ?).
  done.
Qed.

End StrokeMore.

Section StrokeRuns.
Import BLI CurvePaint Spec Notions Example.

Lemma elem_at_consistent (type : CurveType) (x p : R) :
  local_world_consistent (session type None) (elem_at x p).
Proof. unfold local_world_consistent, mul_v3_m4v3. simpl. f_equal; ring. Qed.

Lemma stroke_radius_within_range_witness :
  1 * 2 <= stroke_elem_radius (session CU_BEZIER None) (elem_at 0 (1 / 2)) <= (1 + (3 - 1)) * 2
  /\ 1 <= bp_radius (bpoint_of_elem (settings CU_POLY 0 0) true true (elem_at 0 (1 / 2))) <= 3.
Proof.
  apply (stroke_radius_within_range (session CU_BEZIER None) (settings CU_POLY 0 0)
           true true (elem_at 0 (1 / 2))); simpl; lra.
Defined.

Lemma stroke_elem_pressure_set_composes_witness :
  stroke_elem_pressure_set (session CU_BEZIER None)
    (stroke_elem_pressure_set (session CU_BEZIER None) (elem_at 2 1) (1 / 2)) 1
  = elem_at 2 1.
Proof.
  destruct (stroke_elem_pressure_set_composes (session CU_BEZIER None) (elem_at 2 1)
              (1 / 2) 1) as [_ H].
  apply H. apply elem_at_consistent.
Defined.

Lemma taper_lowers_pressure_witness :
  exists selem',
    curve_draw_exec_precalc_taper (session CU_BEZIER None)
      (settings CU_BEZIER (1 / 2) (1 / 2)) [elem_at 0 1; elem_at 4 1] !! 0%nat = Some selem'
    /\ 0 <= pressure selem' <= 1.
Proof.
  destruct (taper_lowers_pressure (session CU_BEZIER None)
              (settings CU_BEZIER (1 / 2) (1 / 2)) [elem_at 0 1; elem_at 4 1] 0
              (elem_at 0 1))
    as (selem' & Hl & Hp & _).
  - reflexivity.
  - simpl. lra.
  - exists selem'. split; [exact Hl|exact Hp].
Defined.

Lemma taper_keeps_samples_in_place_witness :
  Forall2 (fun selem selem' =>
             location_world selem' = location_world selem
             /\ location_local selem' = location_local selem)
    [elem_at 0 1; elem_at 4 1]
    (curve_draw_exec_precalc_taper (session CU_BEZIER None)
       (settings CU_BEZIER (1 / 2) (1 / 2)) [elem_at 0 1; elem_at 4 1]).
Proof.
  destruct (taper_keeps_samples_in_place (session CU_BEZIER None)
              (settings CU_BEZIER (1 / 2) (1 / 2)) [elem_at 0 1; elem_at 4 1])
    as (_ & _ & H).
  apply H. reflexivity.
Defined.

End StrokeRuns.

(** ** Stroke capture: what an event leaves behind *)

Section EventMore.
Import BLI CurvePaint Spec Notions.
Context (ops : ViewOps).

Lemma set_location_world_valid_same (cdd : CurveDrawData) :
  set_prev cdd (set_location_world_valid (prev cdd) (prev_location_world_valid (prev cdd)))
  = cdd.
Proof. by destruct cdd as [? ? ? ? [? ? ? ?] ? ?]. Qed.

(** The substep loop changes nothing of the session but the last valid
    depth, and not even that when the raw sample found a depth. *)
Lemma curve_draw_event_add_substeps_cdd (is_depth_found : bool)
    (selem_prev selem_target : StrokeElem) (n : Z) (indices : list Z) :
  forall (cdd : CurveDrawData) (substeps : list StrokeElem) (slot : StrokeElem),
    exists v,
      (fold_left
         (curve_draw_event_add_substep ops is_depth_found selem_prev selem_target n)
         indices (cdd, substeps, slot)).1.1
      = set_prev cdd (set_location_world_valid (prev cdd) v)
      /\ (is_depth_found = true -> v = prev_location_world_valid (prev cdd)).
Proof.
  induction indices as [|i indices IH]; intros cdd substeps slot; cbn [fold_left].
  - exists (prev_location_world_valid (prev cdd)).
    split; [by rewrite set_location_world_valid_same|done].
  - rewrite curve_draw_event_add_substep_eq.
    destruct (stroke_elem_project_fallback_elem ops cdd
      (prev_location_world_valid (prev cdd))
      (stroke_elem_interp ops slot selem_prev selem_target (IZR i / IZR n)))
      as [found_substep selem_new].
    cbn [fst snd].
    match goal with |- context [fold_left _ indices (?c, _, _)] => set (cdd' := c) end.
    destruct (IH cdd' (substeps ++ [selem_new]) stroke_elem_calloc) as (v & Hv & Hfound).
    exists v. rewrite Hv. unfold cdd' in *.
    destruct is_depth_found; cbn [negb andb] in *; [by split|].
    split; [|done]. by destruct found_substep.
Qed.

(** The session data after [curve_draw_event_add]. *)
Lemma curve_draw_event_add_cdd (cdd : CurveDrawData) (pool : list StrokeElem)
    (event : wmEvent) :
  let target := event_target ops cdd event in
  exists v,
    (curve_draw_event_add ops cdd pool event).1
    = set_prev
        (set_obedit cdd
           (set_world_to_object (obedit cdd)
              (invert_m4_m4 ops (object_to_world (obedit cdd)))))
        {| prev_mval := mval target; prev_location_world := location_world target;
           prev_location_world_valid := v; prev_selem := Some target |}
    /\ (event_depth_found ops cdd event = true -> v = location_world target)
    /\ (event_depth_found ops cdd event = false ->
        sample_use_substeps cdd = false \/ prev_selem (prev cdd) = None ->
        v = prev_location_world_valid (prev cdd)).
Proof.
  intros target. unfold curve_draw_event_add.
  set (cdd0 := set_obedit cdd
    (set_world_to_object (obedit cdd) (invert_m4_m4 ops (object_to_world (obedit cdd))))).
  assert (Htgt : target = (stroke_elem_project_fallback_elem ops cdd0
    (prev_location_world_valid (prev cdd0))
    {| mval := Float2 (IZR (event_mval event).1) (IZR (event_mval event).2);
       location_world := zero_v3; location_local := zero_v3;
       normal_world := zero_v3; normal_local := zero_v3;
       pressure := tablet_pressure event |}).2) by done.
  assert (Hfound : event_depth_found ops cdd event = (stroke_elem_project_fallback_elem ops cdd0
    (prev_location_world_valid (prev cdd0))
    {| mval := Float2 (IZR (event_mval event).1) (IZR (event_mval event).2);
       location_world := zero_v3; location_local := zero_v3;
       normal_world := zero_v3; normal_local := zero_v3;
       pressure := tablet_pressure event |}).1) by done.
  rewrite Hfound. clear Hfound.
  destruct (stroke_elem_project_fallback_elem ops cdd0
    (prev_location_world_valid (prev cdd0)) _) as [is_depth_found selem].
  cbn [fst snd] in *. subst selem.
  match goal with |- context [sample_use_substeps ?c] => set (cdd2 := c) end.
  assert (Hs2 : sample_use_substeps cdd2 = sample_use_substeps cdd).
  { unfold cdd2. by destruct is_depth_found. }
  assert (Hp2 : prev_selem (prev cdd2) = prev_selem (prev cdd)).
  { unfold cdd2. by destruct is_depth_found. }
  assert (Hc2 : cdd2
    = set_prev cdd0
        {| prev_mval := mval target; prev_location_world := location_world target;
           prev_location_world_valid :=
             if is_depth_found then location_world target
             else prev_location_world_valid (prev cdd);
           prev_selem := prev_selem (prev cdd) |}).
  { unfold cdd2. by destruct is_depth_found. }
  rewrite Hs2, Hp2.
  destruct (sample_use_substeps cdd) eqn:Hsub;
    [destruct (prev_selem (prev cdd)) as [selem_prev|] eqn:Hprev|].
  - destruct (bool_decide (_ >= _)).
    + unfold curve_draw_event_add_substeps.
      match goal with
      | |- context [fold_left (curve_draw_event_add_substep ops _ _ _ ?n) ?l
                      (cdd2, [], target)] =>
        destruct (curve_draw_event_add_substeps_cdd is_depth_found selem_prev target
                    n l cdd2 [] target) as (v & Hv & Hf);
        destruct (fold_left (curve_draw_event_add_substep ops is_depth_found selem_prev
                               target n) l (cdd2, [], target))
          as [[cdd3 substeps] slot]
      end.
      cbn [fst snd] in *. subst cdd3. exists v. split; [by rewrite Hc2|].
      split.
      * intros ->. rewrite Hf by done. by rewrite Hc2.
      * intros _ [?|?]; done.
    + cbn [fst snd]. rewrite Hc2. eexists. split; [reflexivity|].
      cbn. split; [by intros ->|]. intros _ [?|?]; done.
  - cbn [fst snd]. rewrite Hc2. eexists. split; [reflexivity|].
    cbn. split; intros ->; done.
  - cbn [fst snd]. rewrite Hc2. eexists. split; [reflexivity|].
    cbn. split; intros ->; done.
Qed.

(** X14: after [curve_draw_event_add] the session remembers the raw sample
    of the event: [prev.selem] is the last element of the pool, [prev.mval]
    its screen position and [prev.location_world] its world position; the
    last valid depth is that of the raw sample when its projection found
    one.  The settings of the session are as before, the elements that
    were in the pool are still its first ones, and the raw sample has the
    mouse position and the pressure of the event. *)
Theorem curve_draw_event_add_prev_cache (cdd : CurveDrawData) (pool : list StrokeElem)
    (event : wmEvent) :
  let cdd' := (curve_draw_event_add ops cdd pool event).1 in
  let pool' := (curve_draw_event_add ops cdd pool event).2 in
  let target := event_target ops cdd event in
  same_settings cdd cdd'
  /\ world_to_object (obedit cdd') = invert_m4_m4 ops (object_to_world (obedit cdd))
  /\ prev_selem (prev cdd') = Some target
  /\ last pool' = Some target
  /\ prev_mval (prev cdd') = mval target
  /\ prev_location_world (prev cdd') = location_world target
  /\ (event_depth_found ops cdd event = true ->
      prev_location_world_valid (prev cdd') = location_world target)
  /\ (event_depth_found ops cdd event = false ->
      sample_use_substeps cdd = false \/ prev_selem (prev cdd) = None ->
      prev_location_world_valid (prev cdd') = prev_location_world_valid (prev cdd))
  /\ pool `prefix_of` pool'
  /\ mval target = Float2 (IZR (event_mval event).1) (IZR (event_mval event).2)
  /\ pressure target = tablet_pressure event.
Proof.
  intros cdd' pool' target.
  destruct (curve_draw_event_add_cdd cdd pool event) as (v & Hc & Hv & Hv').
  destruct (curve_draw_event_add_pool ops cdd pool event) as (substeps & Hp & _).
  fold cdd' in Hc. fold pool' in Hp. fold target in Hc, Hv, Hp.
  rewrite Hc, Hp. cbn.
  split; [done|]. split; [done|]. split; [done|].
  split; [by rewrite !app_assoc, last_snoc|]. split; [done|]. split; [done|].
  split; [done|]. split; [done|]. split; [by eexists|].
  split; [apply event_target_mval|].
  unfold target, event_target.
  match goal with |- context [stroke_elem_project_fallback_elem ops ?c ?f ?s] =>
    by destruct (stroke_elem_project_fallback_elem_fields ops c f s) as (_ & -> & _) end.
Qed.

Lemma curve_draw_events_add_snoc (cdd : CurveDrawData) (pool : list StrokeElem)
    (events : list wmEvent) (e : wmEvent) :
  curve_draw_events_add ops cdd pool (events ++ [e])
  = curve_draw_event_add ops (curve_draw_events_add ops cdd pool events).1
      (curve_draw_events_add ops cdd pool events).2 e.
Proof. unfold curve_draw_events_add. by rewrite fold_left_app. Qed.

Lemma same_settings_trans (a b c : CurveDrawData) :
  same_settings a b -> same_settings b c -> same_settings a c.
Proof.
  unfold same_settings. intros (?&?&?&?&?&?&?) (?&?&?&?&?&?&?).
  repeat split; congruence.
Qed.

Lemma same_settings_refl (a : CurveDrawData) : same_settings a a.
Proof. by unfold same_settings. Qed.

Lemma curve_draw_events_add_settings (cdd : CurveDrawData) (pool : list StrokeElem)
    (events : list wmEvent) :
  same_settings cdd (curve_draw_events_add ops cdd pool events).1
  /\ pool `prefix_of` (curve_draw_events_add ops cdd pool events).2.
Proof.
  induction events as [|e events IH] using rev_ind.
  - split; [apply same_settings_refl|done].
  - rewrite curve_draw_events_add_snoc. destruct IH as [IHs IHp].
    set (r := curve_draw_events_add ops cdd pool events) in *.
    destruct (curve_draw_event_add_cdd r.1 r.2 e) as (v & Hc & _).
    destruct (curve_draw_event_add_pool ops r.1 r.2 e) as (substeps & Hp & _).
    split.
    + eapply same_settings_trans; [exact IHs|]. rewrite Hc. by unfold same_settings.
    + rewrite Hp. etrans; [exact IHp|]. by eexists.
Qed.

Lemma curve_draw_event_add_last (cdd : CurveDrawData) (pool : list StrokeElem)
    (event : wmEvent) :
  let cdd' := (curve_draw_event_add ops cdd pool event).1 in
  let pool' := (curve_draw_event_add ops cdd pool event).2 in
  let target := event_target ops cdd event in
  prev_selem (prev cdd') = Some target
  /\ last pool' = Some target
  /\ prev_mval (prev cdd') = mval target
  /\ mval target = Float2 (IZR (event_mval event).1) (IZR (event_mval event).2)
  /\ pressure target = tablet_pressure event.
Proof.
  intros cdd' pool' target.
  destruct (curve_draw_event_add_cdd cdd pool event) as (v & Hc & _).
  destruct (curve_draw_event_add_pool ops cdd pool event) as (substeps & Hp & _).
  fold cdd' in Hc. fold pool' in Hp. fold target in Hc, Hp.
  rewrite Hc, Hp. cbn.
  split; [done|]. split; [by rewrite !app_assoc, last_snoc|]. split; [done|].
  split; [apply event_target_mval|].
  unfold target, event_target.
  match goal with |- context [stroke_elem_project_fallback_elem ops ?c ?f ?s] =>
    by destruct (stroke_elem_project_fallback_elem_fields ops c f s) as (_ & -> & _) end.
Qed.

Lemma curve_draw_events_add_length (cdd : CurveDrawData) (pool : list StrokeElem)
    (events : list wmEvent) :
  (length pool + length events <= length (curve_draw_events_add ops cdd pool events).2)%nat.
Proof.
  induction events as [|e events IH] using rev_ind.
  - unfold curve_draw_events_add. simpl. lia.
  - rewrite curve_draw_events_add_snoc.
    destruct (curve_draw_event_add_pool ops (curve_draw_events_add ops cdd pool events).1
                (curve_draw_events_add ops cdd pool events).2 e) as (substeps & Hq & _).
    rewrite Hq, !length_app. cbn [length]. lia.
Qed.

(** X15: a run of events keeps the invariant that the substeps of the next
    event rely on: after at least one event, [prev.selem] is the last
    element of the pool and [prev.mval] is its screen position, which is
    the mouse position of the last event; the settings of the session and
    the elements the pool had at the start are kept. *)
Theorem curve_draw_events_add_invariant (cdd : CurveDrawData) (pool : list StrokeElem)
    (events : list wmEvent) (e : wmEvent) :
  let cdd' := (curve_draw_events_add ops cdd pool (events ++ [e])).1 in
  let pool' := (curve_draw_events_add ops cdd pool (events ++ [e])).2 in
  same_settings cdd cdd'
  /\ pool `prefix_of` pool'
  /\ (length pool + length (events ++ [e]) <= length pool')%nat
  /\ exists selem_last,
       last pool' = Some selem_last
       /\ prev_selem (prev cdd') = Some selem_last
       /\ prev_mval (prev cdd') = mval selem_last
       /\ mval selem_last = Float2 (IZR (event_mval e).1) (IZR (event_mval e).2)
       /\ pressure selem_last = tablet_pressure e.
Proof.
  intros cdd' pool'.
  destruct (curve_draw_events_add_settings cdd pool (events ++ [e])) as [Hs Hp].
  split; [exact Hs|]. split; [exact Hp|]. split.
  - apply curve_draw_events_add_length.
  - unfold cdd', pool'. rewrite curve_draw_events_add_snoc.
    set (r := curve_draw_events_add ops cdd pool events).
    destruct (curve_draw_event_add_last r.1 r.2 e)
      as (H1 & H2 & H3 & H4 & H5).
    eexists. split; [exact H2|]. split; [exact H1|]. split; [exact H3|]. by split.
Qed.

Lemma curve_draw_event_add_prev_valid (cdd : CurveDrawData) (pool : list StrokeElem)
    (event : wmEvent) :
  event_depth_found ops cdd event = true ->
  prev_location_world_valid (prev (curve_draw_event_add ops cdd pool event).1)
  = location_world (event_target ops cdd event).
Proof.
  intros Hf. destruct (curve_draw_event_add_cdd cdd pool event) as (v & -> & Hv & _).
  cbn. by apply Hv.
Qed.

(** Without substeps, or on the first event of a stroke, the raw sample is
    the one element added. *)
Lemma curve_draw_event_add_single (cdd : CurveDrawData) (pool : list StrokeElem)
    (event : wmEvent) :
  sample_use_substeps cdd = false \/ prev_selem (prev cdd) = None ->
  (curve_draw_event_add ops cdd pool event).2 = pool ++ [event_target ops cdd event].
Proof.
  intros Hno. unfold curve_draw_event_add.
  set (cdd0 := set_obedit cdd
    (set_world_to_object (obedit cdd) (invert_m4_m4 ops (object_to_world (obedit cdd))))).
  assert (Htgt : event_target ops cdd event = (stroke_elem_project_fallback_elem ops cdd0
    (prev_location_world_valid (prev cdd0))
    {| mval := Float2 (IZR (event_mval event).1) (IZR (event_mval event).2);
       location_world := zero_v3; location_local := zero_v3;
       normal_world := zero_v3; normal_local := zero_v3;
       pressure := tablet_pressure event |}).2) by done.
  rewrite Htgt. clear Htgt.
  destruct (stroke_elem_project_fallback_elem ops cdd0
    (prev_location_world_valid (prev cdd0)) _) as [is_depth_found selem].
  cbn [fst snd] in *.
  match goal with |- context [sample_use_substeps ?c] => set (cdd2 := c) end.
  assert (Hs2 : sample_use_substeps cdd2 = sample_use_substeps cdd).
  { unfold cdd2. by destruct is_depth_found. }
  assert (Hp2 : prev_selem (prev cdd2) = prev_selem (prev cdd)).
  { unfold cdd2. by destruct is_depth_found. }
  rewrite Hs2, Hp2.
  destruct Hno as [-> | ->]; [done|]. by destruct (sample_use_substeps cdd).
Qed.

(** X16: one sample per event where no substeps are made: with substeps
    off, a run of events appends one element for each event, in order, with
    the mouse position and the pressure of that event; the first event of a
    stroke appends a single element even with substeps on. *)
Theorem events_without_substeps_one_sample_each (cdd : CurveDrawData)
    (pool : list StrokeElem) (events : list wmEvent) (e : wmEvent) :
  (sample_use_substeps cdd = false ->
   exists new,
     (curve_draw_events_add ops cdd pool events).2 = pool ++ new
     /\ mval <$> new
        = (fun e => Float2 (IZR (event_mval e).1) (IZR (event_mval e).2)) <$> events
     /\ pressure <$> new = tablet_pressure <$> events)
  /\ (prev_selem (prev cdd) = None ->
      length (curve_draw_event_add ops cdd pool e).2 = S (length pool)).
Proof.
  split.
  - intros Hsub. induction events as [|e' events IH] using rev_ind.
    + exists []. by rewrite app_nil_r.
    + destruct IH as (new & Hq & Hm & Hp).
      rewrite curve_draw_events_add_snoc.
      destruct (curve_draw_events_add_settings cdd pool events) as [(_ & _ & Hs & _) _].
      rewrite curve_draw_event_add_single by (left; congruence).
      destruct (curve_draw_event_add_last (curve_draw_events_add ops cdd pool events).1
                  (curve_draw_events_add ops cdd pool events).2 e')
        as (_ & _ & _ & Hm' & Hp').
      exists (new ++ [event_target ops (curve_draw_events_add ops cdd pool events).1 e']).
      rewrite Hq, <- app_assoc. split; [done|].
      rewrite !fmap_app. cbn [fmap list_fmap]. by rewrite Hm, Hp, Hm', Hp'.
  - intros Hn. rewrite curve_draw_event_add_single by (by right).
    rewrite length_app. simpl. lia.
Qed.

End EventMore.

(** ** Removing doubles: what the loop keeps *)

Section RemoveDoublesMore.
Import BLI CurvePaint Spec.
Context {A : Type} `{EqDecision A}.

Lemma remove_doubles_snoc (rows : list A) (row : A) (stroke_len : Z) :
  remove_doubles (rows ++ [row]) stroke_len
  = remove_doubles_step (remove_doubles rows stroke_len) row.
Proof. unfold remove_doubles. by rewrite fold_left_app. Qed.

Lemma no_adjacent_doubles_prefix (rows : list A) (row : A) :
  no_adjacent_doubles (rows ++ [row]) ->
  no_adjacent_doubles rows /\ (forall p, last rows = Some p -> p <> row).
Proof.
  intros Hn. split.
  - intros i a b Ha Hb. apply (Hn i a b); by apply lookup_app_l_Some.
  - intros p Hp. rewrite last_lookup in Hp.
    destruct rows as [|r rows] using rev_ind; [done|].
    rewrite length_app in Hp. simpl in Hp.
    replace (pred (length rows + 1)) with (length rows) in Hp by lia.
    apply (Hn (length rows) p row).
    + by apply lookup_app_l_Some.
    + rewrite lookup_app_r by (rewrite length_app; simpl; lia).
      rewrite length_app. simpl. by replace (S (length rows) - (length rows + 1))%nat with 0%nat by lia.
Qed.

(** X17: the loop that removes doubles only drops rows: the rows it keeps
    are a sublist of the rows given, a list with no two equal neighbours
    comes back as it is with [stroke_len] untouched, and for a stroke with
    at least one row the number of rows kept is between 1 and the number
    given. *)
Theorem remove_doubles_keeps_sublist (rows : list A) (stroke_len : Z) :
  (remove_doubles rows stroke_len).1 `sublist_of` rows
  /\ (no_adjacent_doubles rows -> remove_doubles rows stroke_len = (rows, stroke_len))
  /\ remove_doubles (remove_doubles rows stroke_len).1 stroke_len
     = ((remove_doubles rows stroke_len).1, stroke_len)
  /\ (rows <> [] ->
      (1 <= (remove_doubles rows (Z.of_nat (length rows))).2 <= Z.of_nat (length rows))%Z).
Proof.
  assert (Hsub : forall n, (remove_doubles rows n).1 `sublist_of` rows).
  { intros n. induction rows as [|row rows' IH] using rev_ind; [done|].
    rewrite remove_doubles_snoc.
    destruct (remove_doubles rows' n) as [coords m]. unfold remove_doubles_step.
    cbn [fst] in *.
    destruct (last coords) as [row_prev|].
    - case_bool_decide; cbn [fst].
      + by apply sublist_inserts_r.
      + by apply sublist_app.
    - by apply sublist_app. }
  assert (Hfix : forall (rows' : list A) n, no_adjacent_doubles rows' ->
            remove_doubles rows' n = (rows', n)).
  { intros rows' n. induction rows' as [|row rows' IH] using rev_ind; [done|].
    intros Hn. apply no_adjacent_doubles_prefix in Hn as [Hn Hl].
    rewrite remove_doubles_snoc, (IH Hn). unfold remove_doubles_step.
    destruct (last rows') as [row_prev|] eqn:El; [|done].
    rewrite bool_decide_eq_false_2; [done|]. intros ->. by apply (Hl row_prev). }
  split; [apply Hsub|]. split; [apply Hfix|]. split.
  { apply Hfix. apply remove_doubles_no_adjacent. }
  intros Hne. rewrite remove_doubles_len. split.
  - destruct rows as [|row rows'] using rev_ind; [done|].
    pose proof (remove_doubles_fold_last rows' row ([], Z.of_nat (length (rows' ++ [row]))))
      as Hl.
    fold (remove_doubles (rows' ++ [row]) (Z.of_nat (length (rows' ++ [row])))) in Hl.
    destruct (remove_doubles (rows' ++ [row]) _).1; [done|]. simpl. lia.
  - apply inj_le. apply sublist_length. apply Hsub.
Qed.

End RemoveDoublesMore.

Section CoincidentStroke.
Import BLI CurvePaint Spec.
Context (cops : CurveOps).

Lemma remove_doubles_replicate {A : Type} `{EqDecision A} (row : A) (k : nat)
    (stroke_len : Z) :
  remove_doubles (replicate (S k) row) stroke_len = ([row], (stroke_len - Z.of_nat k)%Z).
Proof.
  induction k as [|k IH].
  - simpl. unfold remove_doubles. simpl. f_equal. lia.
  - rewrite replicate_S_end, remove_doubles_snoc, IH. unfold remove_doubles_step.
    cbn [last]. rewrite bool_decide_eq_true_2 by done. f_equal. lia.
Qed.

(** X18: a stroke that does not move is not closed: when every sample of
    the pool has the local position and the pressure of the first one, the
    coordinates left for the fit are a single row, [stroke_len] is 1, and
    the fit is not asked for a cyclic curve, whatever [use_cyclic] says. *)
Theorem coincident_stroke_single_row (op : DrawProps) (use_radius : bool)
    (selem : StrokeElem) (pool : list StrokeElem) :
  Forall (fun s => location_local s = location_local selem /\ pressure s = pressure selem)
    pool ->
  let stroke_len := Z.of_nat (length (selem :: pool)) in
  stroke_coords use_radius (selem :: pool) stroke_len
    = ([stroke_coords_row use_radius selem], 1%Z)
  /\ calc_cyclic (curve_draw_exec_fit cops op use_radius (selem :: pool) stroke_len).1
     = false.
Proof.
  intros Hall stroke_len.
  assert (Hrows : stroke_coords_row use_radius <$> (selem :: pool)
                  = replicate (S (length pool)) (stroke_coords_row use_radius selem)).
  { simpl. f_equal. induction Hall as [|s pool' [Hl Hp] _ IH]; [done|].
    simpl. f_equal; [|exact IH]. unfold stroke_coords_row. by rewrite Hl, Hp. }
  assert (Hc : stroke_coords use_radius (selem :: pool) stroke_len
               = ([stroke_coords_row use_radius selem], 1%Z)).
  { unfold stroke_coords. rewrite Hrows, remove_doubles_replicate. f_equal.
    unfold stroke_len. simpl length. lia. }
  split; [exact Hc|]. unfold curve_draw_exec_fit. rewrite Hc. cbn.
  by rewrite bool_decide_eq_false_2 by lia.
Qed.

End CoincidentStroke.

(** ** The operator's properties: the stored stroke and the values set
    before [exec] *)

Section OperatorMore.
Import BLI CurvePaint CurvePaintOp Spec Notions.
Context (ops : ViewOps) (cops : CurveOps).

(** The properties after [curve_draw_stroke_to_operator], as [exec] reads
    them. *)
Lemma curve_draw_stroke_to_operator_props (op : OperatorProps) (pool : list StrokeElem) :
  props_get (curve_draw_stroke_to_operator op pool)
  = {| fit_method := fit_method (props_get op);
       error_threshold := error_threshold (props_get op);
       corner_angle := corner_angle (props_get op);
       use_cyclic := use_cyclic (props_get op);
       stroke := stroke (props_get op)
                 ++ ((fun selem => (mval selem, location_world selem, pressure selem))
                       <$> pool) |}.
Proof.
  revert op. induction pool as [|selem pool IH]; intros op.
  - cbn. rewrite app_nil_r. by destruct op.
  - cbn [curve_draw_stroke_to_operator fold_left] in *.
    unfold curve_draw_stroke_to_operator in IH. rewrite IH.
    unfold props_get, curve_draw_stroke_to_operator_elem, stroke_collection_add.
    cbn. by rewrite <- app_assoc.
Qed.

(** X19: the stroke stored in the operator gives the samples back: reading
    the "stroke" property written by [curve_draw_stroke_to_operator] makes
    one element for each sample of the pool, in order, with its screen
    position, world position and pressure; the local position is computed
    again from the world position and the normals are zero.  The other
    properties are not touched. *)
Theorem stroke_operator_round_trip (cdd : CurveDrawData) (op : OperatorProps)
    (pool : list StrokeElem) :
  op_stroke op = None ->
  let op' := curve_draw_stroke_to_operator op pool in
  curve_draw_stroke_from_operator cdd (stroke (props_get op'))
    = restored (world_to_object (obedit cdd)) <$> pool
  /\ fit_method (props_get op') = fit_method (props_get op)
  /\ error_threshold (props_get op') = error_threshold (props_get op)
  /\ corner_angle (props_get op') = corner_angle (props_get op)
  /\ use_cyclic (props_get op') = use_cyclic (props_get op)
  /\ (Forall (fun selem =>
                normal_world selem = zero_v3 /\ normal_local selem = zero_v3
                /\ location_local selem
                   = mul_v3_m4v3 (world_to_object (obedit cdd)) (location_world selem))
        pool ->
      curve_draw_stroke_from_operator cdd (stroke (props_get op')) = pool).
Proof.
  intros Hs op'. unfold op'. rewrite curve_draw_stroke_to_operator_props.
  cbn [stroke fit_method error_threshold corner_angle use_cyclic].
  assert (Hr : curve_draw_stroke_from_operator cdd
                 (stroke (props_get op)
                  ++ ((fun selem => (mval selem, location_world selem, pressure selem))
                        <$> pool))
               = restored (world_to_object (obedit cdd)) <$> pool).
  { unfold props_get. rewrite Hs. cbn. unfold curve_draw_stroke_from_operator.
    rewrite <- list_fmap_compose. by apply list_fmap_ext. }
  split; [exact Hr|]. repeat (split; [done|]).
  intros Hall. rewrite Hr. rewrite <- (list_fmap_id pool) at 2.
  apply Forall_fmap_ext_1. eapply Forall_impl; [exact Hall|].
  intros [m lw ll nw nl p] (Hnw & Hnl & Hll). unfold restored. cbn in *. by subst.
Qed.

(** The spline built from a pool depends on the session only through the
    curve type, the radius range and the curve of the edit object, and on
    the samples only through their local positions and pressures. *)
Lemma curve_draw_exec_nurb_ext (cdd cdd' : CurveDrawData) (cps : CurvePaintSettings)
    (op : DrawProps) (pool : list StrokeElem) (g : StrokeElem -> StrokeElem) :
  curve_type cdd' = curve_type cdd ->
  radius_min (radius cdd') = radius_min (radius cdd) ->
  radius_range (radius cdd') = radius_range (radius cdd) ->
  data (obedit cdd') = data (obedit cdd) ->
  Forall (fun selem =>
            location_local (g selem) = location_local selem
            /\ pressure (g selem) = pressure selem) pool ->
  curve_draw_exec_nurb cops cdd' cps op (g <$> pool)
  = curve_draw_exec_nurb cops cdd cps op pool.
Proof.
  intros Ht Hmin Hrange Hdata Hall.
  assert (Hrows : forall b, stroke_coords_row b <$> (g <$> pool) = stroke_coords_row b <$> pool).
  { intros b. rewrite <- list_fmap_compose. apply Forall_fmap_ext_1.
    eapply Forall_impl; [exact Hall|]. intros s [Hl Hp]. cbn.
    unfold stroke_coords_row. by rewrite Hl, Hp. }
  assert (Hpts : forall b c, bpoint_of_elem cps b c <$> (g <$> pool)
                             = bpoint_of_elem cps b c <$> pool).
  { intros b c. rewrite <- list_fmap_compose. apply Forall_fmap_ext_1.
    eapply Forall_impl; [exact Hall|]. intros s [Hl Hp]. cbn.
    unfold bpoint_of_elem. by rewrite Hl, Hp. }
  assert (Hknot : forall r m (l : list (list R * list R * list R)),
            bezt_of_knot cdd' r m <$> l = bezt_of_knot cdd r m <$> l).
  { intros r m l. apply list_fmap_ext. intros i [[hl pt] hr] _.
    unfold bezt_of_knot. by rewrite Hmin, Hrange. }
  unfold curve_draw_exec_nurb, curve_draw_exec_bezier, curve_draw_exec_poly,
    curve_draw_exec_fit, stroke_coords, curve_draw_exec_fit_to_nurb.
  rewrite Ht, Hdata, length_fmap, !Hrows, !Hpts.
  destruct (bool_decide (curve_type cdd = CU_BEZIER)); [|done].
  destruct (remove_doubles _ _) as [coords stroke_len].
  destruct (bool_decide (fit_result _ = 0%Z)); [|done].
  by rewrite Hknot.
Qed.

Lemma curve_draw_exec_session_stored (cps : CurvePaintSettings) (ob : Object)
    (op : DrawProps) :
  stroke op <> [] ->
  exists cdd0,
    session_of_settings cdd0 cps ob
    /\ curve_draw_exec_session ops cps ob None op
       = Some (set_obedit cdd0
                 (set_world_to_object (obedit cdd0)
                    (invert_m4_m4 ops (object_to_world (obedit cdd0)))),
               curve_draw_stroke_from_operator
                 (set_obedit cdd0
                    (set_world_to_object (obedit cdd0)
                       (invert_m4_m4 ops (object_to_world (obedit cdd0)))))
                 (stroke op)).
Proof.
  intros Hne. unfold curve_draw_exec_session, curve_draw_init.
  destruct (stroke op) as [|item items] eqn:Es; [done|].
  eexists. split; [|reflexivity]. by unfold session_of_settings.
Qed.

Lemma curve_draw_exec_session_painted (cps : CurvePaintSettings) (ob : Object)
    (cdd : CurveDrawData) (pool : list StrokeElem) (op : DrawProps) :
  pool <> [] ->
  curve_draw_exec_session ops cps ob (Some (cdd, pool)) op
  = Some (set_obedit cdd
            (set_world_to_object (obedit cdd)
               (invert_m4_m4 ops (object_to_world (obedit cdd)))),
          pool).
Proof. intros Hne. unfold curve_draw_exec_session. by destruct pool. Qed.

(** X20: running the operator again from its stored stroke builds the same
    curve: [exec] without session data, reading the samples from the
    "stroke" property, returns what [exec] returns on the session the
    stroke was painted in, when that session has the settings of the tool
    and every sample has the local position of its world position. *)
Theorem curve_draw_exec_replay (cps : CurvePaintSettings) (ob : Object)
    (cdd : CurveDrawData) (pool : list StrokeElem) (op : OperatorProps)
    (nurblist : list Nurb) :
  op_stroke op = None ->
  pool <> [] ->
  session_of_settings cdd cps ob ->
  Forall (fun selem =>
            location_local selem
            = mul_v3_m4v3 (invert_m4_m4 ops (object_to_world ob)) (location_world selem))
    pool ->
  curve_draw_exec_op ops cops cps ob None (curve_draw_stroke_to_operator op pool) nurblist
  = curve_draw_exec_op ops cops cps ob (Some (cdd, pool))
      (curve_draw_stroke_to_operator op pool) nurblist.
Proof.
  intros Hs Hne (Ht & Hmin & Hrange & Hob) Hall.
  unfold curve_draw_exec_op, curve_draw_exec.
  rewrite curve_draw_stroke_to_operator_props.
  set (op' := {| fit_method := _ |}).
  assert (Hst : stroke op'
                = (fun selem => (mval selem, location_world selem, pressure selem)) <$> pool).
  { unfold op', props_get. by rewrite Hs. }
  destruct (curve_draw_exec_session_stored cps ob op')
    as (cdd0 & (Ht0 & Hmin0 & Hrange0 & Hob0) & ->).
  { rewrite Hst. intros Hnil. apply fmap_nil_inv in Hnil. done. }
  rewrite curve_draw_exec_session_painted by done.
  rewrite Hst. unfold curve_draw_stroke_from_operator. rewrite <- list_fmap_compose.
  cbn [obedit set_obedit data set_world_to_object world_to_object object_to_world].
  match goal with |- context [curve_draw_exec_nurb cops ?c cps op' (?g <$> pool)] =>
    rewrite (curve_draw_exec_nurb_ext
               (set_obedit cdd
                  (set_world_to_object (obedit cdd)
                     (invert_m4_m4 ops (object_to_world (obedit cdd)))))
               c cps op' pool g)
  end.
  - by rewrite Hob, Hob0.
  - cbn. congruence.
  - cbn. congruence.
  - cbn. congruence.
  - cbn. congruence.
  - eapply Forall_impl; [exact Hall|]. intros s Hl. cbn. split; [|done].
    by rewrite Hob0, Hl.
Qed.

(** X21: with corner detection off in the settings and no corner angle
    given, the values [curve_draw_exec_precalc] sets keep the fit from
    using corners: the corner angle is pi, and the fit is the same whatever
    the corner detection routine would return. *)
Theorem corner_detection_off (ui_scale_fac : R) (cdd : CurveDrawData)
    (cps : CurvePaintSettings) (cpso : CurvePaintSettingsOp) (pool : list StrokeElem)
    (op : OperatorProps) (use_radius : bool) (stroke_len : Z)
    (detect : list (list R) -> Z -> Z -> R -> R -> Z -> R -> option (list nat)) :
  cps_flag_corners_detect cpso = false ->
  op_corner_angle op = None ->
  let op' := props_get (curve_draw_exec_precalc ui_scale_fac cdd cps cpso pool op).1 in
  let cops' :=
    {| curve_fit_corners_detect_fl := detect;
       curve_fit_cubic_to_points_refit_fl := curve_fit_cubic_to_points_refit_fl cops;
       curve_fit_cubic_to_points_fl := curve_fit_cubic_to_points_fl cops;
       BKE_nurb_handles_calc := BKE_nurb_handles_calc cops;
       BKE_nurb_knot_calc_u := BKE_nurb_knot_calc_u cops;
       ED_curve_deselect_all := ED_curve_deselect_all cops |} in
  corner_angle op' = PI
  /\ forall pool',
       curve_draw_exec_fit cops' op' use_radius pool' stroke_len
       = curve_draw_exec_fit cops op' use_radius pool' stroke_len.
Proof.
  intros Hflag Hangle op' cops'.
  assert (Hpi : corner_angle op' = PI).
  { unfold op', curve_draw_exec_precalc. cbn [fst].
    destruct (op_fit_method op); cbn; rewrite Hangle; cbn; rewrite Hflag;
      destruct (op_error_threshold op); cbn; destruct (op_use_cyclic op); done. }
  split; [exact Hpi|]. intros pool'. unfold curve_draw_exec_fit.
  destruct (stroke_coords use_radius pool' stroke_len) as [coords n].
  rewrite Hpi. rewrite (bool_decide_eq_false_2 (PI < PI)) by lra.
  rewrite andb_false_r. done.
Qed.

Lemma stroke_len_3d_2d_nonneg (rest : list StrokeElem) :
  forall (selem_prev : StrokeElem) (len_3d len_2d : R),
    0 <= len_3d -> 0 <= len_2d ->
    0 <= (stroke_len_3d_2d selem_prev len_3d len_2d rest).1
    /\ 0 <= (stroke_len_3d_2d selem_prev len_3d len_2d rest).2.
Proof.
  induction rest as [|selem rest IH]; intros selem_prev len_3d len_2d H3 H2; [done|].
  cbn [stroke_len_3d_2d]. apply IH.
  - pose proof (sqrt_pos ((x3 (location_local selem_prev) - x3 (location_local selem))
                          * (x3 (location_local selem_prev) - x3 (location_local selem))
                          + (y3 (location_local selem_prev) - y3 (location_local selem))
                            * (y3 (location_local selem_prev) - y3 (location_local selem))
                          + (z3 (location_local selem_prev) - z3 (location_local selem))
                            * (z3 (location_local selem_prev) - z3 (location_local selem)))).
    unfold len_v3v3. lra.
  - unfold len_v2v2. pose proof (sqrt_pos (len_squared_v2v2 (mval selem) (mval selem_prev))).
    lra.
Qed.

(** X22: the error threshold that [curve_draw_exec_precalc] computes from
    the pixel value of the settings is never negative when the pixel value
    and the interface scale are not, and it is zero for a stroke of a single
    sample; a threshold given with the operator is kept. *)
Theorem precalc_error_threshold_nonneg (ui_scale_fac : R) (cdd : CurveDrawData)
    (cps : CurvePaintSettings) (cpso : CurvePaintSettingsOp) (pool : list StrokeElem)
    (op : OperatorProps) :
  0 <= cps_error_threshold cpso ->
  0 <= ui_scale_fac ->
  let op' := props_get (curve_draw_exec_precalc ui_scale_fac cdd cps cpso pool op).1 in
  (op_error_threshold op = None -> 0 <= error_threshold op')
  /\ (op_error_threshold op = None -> (length pool <= 1)%nat -> error_threshold op' = 0)
  /\ (forall v, op_error_threshold op = Some v -> error_threshold op' = v).
Proof.
  intros He Hu op'.
  assert (Hval : error_threshold op'
                 = default (precalc_error_threshold ui_scale_fac cpso pool)
                     (op_error_threshold op)).
  { unfold op', curve_draw_exec_precalc. cbn [fst].
    destruct op as [e f a c s w]; cbn; destruct f, a, e, c; reflexivity. }
  rewrite Hval. split; [|split].
  - intros ->. cbn. unfold precalc_error_threshold.
    assert (Hlen : forall r : R * R, 0 <= r.1 -> 0 <= r.2 ->
              0 <= (let '(len_3d, len_2d) := r in
                    cps_error_threshold cpso * ui_scale_fac
                    * (if bool_decide (len_3d > 0) && bool_decide (len_2d > 0)
                       then len_3d / len_2d else 0))).
    { intros [l3 l2] H3 H2. cbn in *.
      assert (0 <= cps_error_threshold cpso * ui_scale_fac) by nra.
      destruct (bool_decide (l3 > 0)) eqn:E3; cbn; [|nra].
      destruct (bool_decide (l2 > 0)) eqn:E2; cbn; [|nra].
      apply bool_decide_eq_true_1 in E3, E2.
      assert (0 < l3 / l2) by (apply Rdiv_lt_0_compat; lra). nra. }
    destruct pool as [|selem rest].
    + apply (Hlen (0, 0)); cbn; lra.
    + destruct (stroke_len_3d_2d_nonneg rest selem 0 0) as [H3 H2]; [lra|lra|].
      by apply Hlen.
  - intros -> Hl. cbn. unfold precalc_error_threshold.
    destruct pool as [|selem [|selem' rest]]; [| |simpl in Hl; lia];
      cbn; rewrite (bool_decide_eq_false_2 (0 > 0)) by lra; cbn; ring.
  - by intros v ->.
Qed.

(** X23: after [curve_draw_exec_precalc] the fit method, the corner angle,
    the error threshold and the cyclic flag are all set, a value that was
    set before is the one kept, and running it again, on any stroke and
    with any settings, changes none of the properties.  The stored stroke
    is not touched, and no stroke of fewer than three samples is made
    cyclic. *)
Theorem curve_draw_exec_precalc_sets_once (ui_scale_fac ui_scale_fac' : R)
    (cdd cdd' : CurveDrawData) (cps cps' : CurvePaintSettings)
    (cpso cpso' : CurvePaintSettingsOp) (pool pool' : list StrokeElem)
    (op : OperatorProps) :
  let op1 := (curve_draw_exec_precalc ui_scale_fac cdd cps cpso pool op).1 in
  is_Some (op_fit_method op1) /\ is_Some (op_corner_angle op1)
  /\ is_Some (op_error_threshold op1) /\ is_Some (op_use_cyclic op1)
  /\ (curve_draw_exec_precalc ui_scale_fac' cdd' cps' cpso' pool' op1).1 = op1
  /\ op_stroke op1 = op_stroke op
  /\ (op_use_cyclic op = None -> (length pool <= 2)%nat -> op_use_cyclic op1 = Some false)
  /\ (forall v, op_use_cyclic op = Some v -> op_use_cyclic op1 = Some v)
  /\ (forall v, op_fit_method op = Some v -> op_fit_method op1 = Some v)
  /\ (forall v, op_corner_angle op = Some v -> op_corner_angle op1 = Some v).
Proof.
  intros op1. unfold op1, curve_draw_exec_precalc. cbn [fst].
  destruct op as [e f a c s w]. cbn.
  assert (Hc : (length pool <= 2)%nat -> precalc_use_cyclic ui_scale_fac pool = false).
  { intros Hl. unfold precalc_use_cyclic. by rewrite bool_decide_eq_false_2 by lia. }
  destruct f, a, e, c; cbn; repeat split; try done; try (by eexists);
    try (by intros ? [= <-]); intros _ Hl; by rewrite Hc.
Qed.

End OperatorMore.

(** ** The modal operator *)

Section ModalMore.
Import BLI CurvePaint CurvePaintOp Spec Notions.
Context (ops : ViewOps) (cops : CurveOps) (codes : EventCodes) (view : ViewData).
Context (ui_scale_fac : R).

Lemma plane_from_normal_point_on_plane (no co : float3) :
  on_plane (plane_from_normal_point ops no co) co.
Proof. unfold on_plane, plane_from_normal_point, dot_v3v3. cbn. ring. Qed.

(** The projection after the plane of the first point is set up. *)
Lemma event_add_first_plane_project (cpso : CurvePaintSettingsOp) (cdd : CurveDrawData)
    (mval_i : Z * Z) :
  let cdd' := event_add_first_plane ops view cpso cdd mval_i in
  use_plane (project cdd') = true
  /\ use_depth (project cdd') = false
  /\ on_plane (plane (project cdd')) (prev_location_world_valid (prev cdd))
  /\ prev cdd' = prev cdd
  /\ surface_offset (project cdd') = surface_offset (project cdd).
Proof.
  unfold event_add_first_plane.
  match goal with |- context [plane_from_normal_point ops ?n _] => generalize n end.
  intros normal. cbn [project set_project surface_offset].
  destruct (bool_decide (surface_offset (project cdd) <> 0)).
  - destruct (stroke_elem_project ops _ _ _ _ _ _ _) as [[found loc] nor].
    destruct found; cbn; repeat split; apply plane_from_normal_point_on_plane.
  - cbn. repeat split. apply plane_from_normal_point_on_plane.
Qed.

Lemma curve_draw_event_add_project (cdd : CurveDrawData) (pool : list StrokeElem)
    (e : wmEvent) :
  project (curve_draw_event_add ops cdd pool e).1 = project cdd.
Proof. by destruct (curve_draw_event_add_cdd ops cdd pool e) as (v & -> & _). Qed.

Lemma curve_draw_event_add_first_projection (cpso : CurvePaintSettingsOp) (s : Session)
    (e : ModalEvent) :
  one_projection (session_cdd s) ->
  one_projection (session_cdd (curve_draw_event_add_first ops view cpso s e)).
Proof.
  intros Hone. unfold curve_draw_event_add_first.
  pose proof (curve_draw_event_add_project (session_cdd s) (session_pool s) (event e)) as Hp.
  destruct (curve_draw_event_add ops (session_cdd s) (session_pool s) (event e))
    as [cdd pool].
  cbn [fst session_cdd] in *.
  destruct (_ && _ && _).
  - destruct (event_add_first_plane_project cpso cdd (event_mval (event e)))
      as (Hu & Hd & _).
    unfold one_projection. by rewrite Hu, Hd.
  - unfold one_projection. by rewrite Hp.
Qed.

(** X24: the first point of a stroke on a surface fixes the plane of the
    rest: when the depth mode is the surface, the session projects onto
    the depth buffer and the stroke-endpoints option is on,
    [curve_draw_event_add_first] switches the session to the projection
    onto a plane, and that plane contains the last valid position, which
    is the world position of the first sample when its depth was found.
    In every case the session is painting afterwards, with the type of the
    event as the one that ends the stroke. *)
Theorem curve_draw_event_add_first_plane (cpso : CurvePaintSettingsOp) (s : Session)
    (e : ModalEvent) :
  let s' := curve_draw_event_add_first ops view cpso s e in
  let added := curve_draw_event_add ops (session_cdd s) (session_pool s) (event e) in
  let first := event_target ops (session_cdd s) (event e) in
  state s' = CURVE_DRAW_PAINTING
  /\ init_event_type s' = event_type e
  /\ session_pool s' = added.2
  /\ last (session_pool s') = Some first
  /\ (cps_depth_mode cpso = CURVE_PAINT_PROJECT_SURFACE ->
      use_depth (project (session_cdd s)) = true ->
      cps_flag_depth_stroke_endpoints cpso = true ->
      use_plane (project (session_cdd s')) = true
      /\ use_depth (project (session_cdd s')) = false
      /\ on_plane (plane (project (session_cdd s')))
           (prev_location_world_valid (prev (session_cdd s')))
      /\ (event_depth_found ops (session_cdd s) (event e) = true ->
          on_plane (plane (project (session_cdd s'))) (location_world first)))
  /\ (cps_depth_mode cpso <> CURVE_PAINT_PROJECT_SURFACE
      \/ use_depth (project (session_cdd s)) = false
      \/ cps_flag_depth_stroke_endpoints cpso = false ->
      session_cdd s' = added.1).
Proof.
  intros s' added first. subst s' added. unfold curve_draw_event_add_first.
  pose proof (curve_draw_event_add_project (session_cdd s) (session_pool s) (event e)) as Hp.
  destruct (curve_draw_event_add_last ops (session_cdd s) (session_pool s) (event e))
    as (_ & Hlast & _).
  pose proof (curve_draw_event_add_prev_valid ops (session_cdd s) (session_pool s) (event e))
    as Hvalid.
  fold first in Hlast, Hvalid.
  destruct (curve_draw_event_add ops (session_cdd s) (session_pool s) (event e))
    as [cdd pool].
  cbn [fst snd session_cdd session_pool state init_event_type] in *.
  split; [done|]. split; [done|]. split; [done|]. split; [done|]. split.
  - intros Hm Hd He. rewrite Hp, Hd, He, bool_decide_eq_true_2 by done. cbn [andb].
    destruct (event_add_first_plane_project cpso cdd (event_mval (event e)))
      as (Hu & Hd' & Hon & Hprev & _).
    split; [done|]. split; [done|]. rewrite Hprev. split; [done|].
    intros Hf. rewrite <- (Hvalid Hf). exact Hon.
  - intros [Hm | [Hd | He]].
    + by rewrite bool_decide_eq_false_2.
    + by rewrite Hp, Hd, andb_false_r.
    + by rewrite He, andb_false_r.
Qed.



(** X26: one event of the modal operator.  Releasing the button that
    started the stroke finishes the operator: the session is freed, one
    spline is added after the splines that were there, and the stroke is
    stored in the properties.  Escape or the right mouse button, when it
    is not the button that started the stroke, cancels it and leaves the
    splines, the curve and the properties alone.  Every other event keeps
    the operator running on the same splines: a press of the left mouse
    button adds the first point, a mouse motion farther than the minimum
    distance from the last position adds a sample while painting, and
    anything else leaves the session as it is; the samples taken so far
    stay the first ones of the pool and the projection stays a single
    one.  The operator finishes or is cancelled on no other event. *)
Theorem curve_draw_modal_step (cps : CurvePaintSettings) (cpso : CurvePaintSettingsOp)
    (ob : Object) (st : OperatorState) (s : Session) (e : ModalEvent) :
  let r := curve_draw_modal ops cops codes view ui_scale_fac cps cpso ob st s e in
  let release := event_type e = init_event_type s /\ event_val e = KM_RELEASE codes in
  let cancel :=
    event_type e <> init_event_type s
    /\ (event_type e = EVT_ESCKEY codes \/ event_type e = RIGHTMOUSE codes) in
  let moved :=
    len_squared_v2v2
      (Float2 (IZR (event_mval (event e)).1) (IZR (event_mval (event e)).2))
      (prev_mval (prev (session_cdd s)))
    > square_f (IZR STROKE_SAMPLE_DIST_MIN_PX) in
  let added := curve_draw_event_add ops (session_cdd s) (session_pool s) (event e) in
  (release ->
   r.1 = OPERATOR_DONE OPERATOR_FINISHED
   /\ customdata r.2 = None
   /\ (exists nu, nurblist r.2 = (ED_curve_deselect_all cops <$> nurblist st) ++ [nu])
   /\ (op_stroke (properties st) = None ->
       length (stroke (props_get (properties r.2))) = length (session_pool s)))
  /\ (cancel ->
      r = (OPERATOR_DONE OPERATOR_CANCELLED,
           {| customdata := None; properties := properties st;
              nurblist := nurblist st; curve := curve st |}))
  /\ (~ release -> ~ cancel ->
      exists s',
        r = (OPERATOR_RUNNING_MODAL,
             {| customdata := Some s'; properties := properties st;
                nurblist := nurblist st; curve := curve st |})
        /\ session_pool s `prefix_of` session_pool s'
        /\ (one_projection (session_cdd s) -> one_projection (session_cdd s'))
        /\ (event_type e = init_event_type s -> s' = s)
        /\ (event_type e <> init_event_type s -> event_type e = LEFTMOUSE codes ->
            s' = if bool_decide (event_val e = KM_PRESS codes)
                 then curve_draw_event_add_first ops view cpso s e else s)
        /\ (event_type e <> init_event_type s -> event_type e <> LEFTMOUSE codes ->
            s' = if ISMOUSE_MOTION codes (event_type e)
                    && bool_decide (state s = CURVE_DRAW_PAINTING) && bool_decide moved
                 then {| session_cdd := added.1; session_pool := added.2;
                         state := state s; init_event_type := init_event_type s |}
                 else s))
  /\ (r.1 = OPERATOR_DONE OPERATOR_FINISHED <-> release)
  /\ (r.1 = OPERATOR_DONE OPERATOR_CANCELLED <-> cancel).
Proof.
  intros r release cancel moved added. subst r release cancel moved added.
  unfold curve_draw_modal.
  assert (Hadd : forall s0 : Session,
            s0 = curve_draw_event_add_first ops view cpso s e ->
            session_pool s `prefix_of` session_pool s0
            /\ (one_projection (session_cdd s) -> one_projection (session_cdd s0))).
  { intros s0 ->. split; [|apply curve_draw_event_add_first_projection].
    unfold curve_draw_event_add_first.
    destruct (curve_draw_event_add_pool ops (session_cdd s) (session_pool s) (event e))
      as (substeps & Hq & _).
    destruct (curve_draw_event_add ops (session_cdd s) (session_pool s) (event e))
      as [cdd pool].
    cbn [snd session_pool] in *. rewrite Hq. by eexists. }
  case_bool_decide as Hinit.
  - case_bool_decide as Hrel.
    + destruct (curve_draw_exec_precalc ui_scale_fac (session_cdd s) cps cpso
                  (session_pool s) (properties st)) as [op pool] eqn:Epre.
      unfold curve_draw_exec_callback, curve_draw_exec_op.
      cbn [customdata properties nurblist curve fmap option_fmap option_map
           session_cdd session_pool].
      pose proof (curve_draw_exec_finished ops cops cps ob
                    (Some (session_cdd s, pool))
                    (props_get (curve_draw_stroke_to_operator op pool)) (nurblist st)) as Hfin.
      unfold curve_draw_exec_session in Hfin. cbn [fmap option_fmap option_map] in Hfin.
      specialize (Hfin _ _ eq_refl).
      destruct (curve_draw_exec ops cops cps ob _ _ _) as [[status nl] cu].
      cbn [fst snd] in *. injection Hfin as -> ->.
      cbn [fst snd customdata nurblist properties].
      split; [|split; [by intros [? _]|split; [by intros []|split; [done|]]]].
      * intros _. split; [done|]. split; [done|]. split; [by eexists|].
        intros Hs. rewrite curve_draw_stroke_to_operator_props. cbn [stroke].
        assert (Hop : op_stroke op = None /\ length pool = length (session_pool s)).
        { unfold curve_draw_exec_precalc in Epre. injection Epre as <- <-. split.
          - destruct (properties st) as [e0 f a c s0 w]. cbn in *.
            destruct f, a, e0, c; done.
          - apply taper_keeps_length. }
        destruct Hop as [Hop Hlen]. unfold props_get at 1. rewrite Hop. cbn.
        by rewrite length_fmap.
      * split; [done|]. by intros [? _].
    + cbn [fst snd].
      split; [by intros [_ ?]|]. split; [by intros [? _]|]. split.
      { intros _ _. exists s. split; [done|]. split; [done|]. split; [done|].
        split; [done|]. split; by intros. }
      split; [|split; [done|by intros [? _]]].
      split; [done|by intros [_ ?]].
  - case_bool_decide as Hesc; [|case_bool_decide as Hrm]; cbn [orb fst snd].
    + split; [by intros [? _]|]. split; [done|]. split.
      { intros _ Hc. exfalso. apply Hc. split; [done|by left]. }
      split; [split; [done|by intros [? _]]|].
      split; [intros _; split; [done|by left]|done].
    + split; [by intros [? _]|]. split; [done|]. split.
      { intros _ Hc. exfalso. apply Hc. split; [done|by right]. }
      split; [split; [done|by intros [? _]]|].
      split; [intros _; split; [done|by right]|done].
    + assert (Hrun : forall s' sl sm : Session,
                session_pool s `prefix_of` session_pool s' ->
                (one_projection (session_cdd s) -> one_projection (session_cdd s')) ->
                (event_type e = LEFTMOUSE codes -> s' = sl) ->
                (event_type e <> LEFTMOUSE codes -> s' = sm) ->
                forall r : ModalStatus * OperatorState,
                  r = (OPERATOR_RUNNING_MODAL,
                       {| customdata := Some s'; properties := properties st;
                          nurblist := nurblist st; curve := curve st |}) ->
                  (event_type e = init_event_type s /\ event_val e = KM_RELEASE codes ->
                   r.1 = OPERATOR_DONE OPERATOR_FINISHED
                   /\ customdata r.2 = None
                   /\ (exists nu,
                         nurblist r.2 = (ED_curve_deselect_all cops <$> nurblist st) ++ [nu])
                   /\ (op_stroke (properties st) = None ->
                       length (stroke (props_get (properties r.2)))
                       = length (session_pool s)))
                  /\ (event_type e <> init_event_type s
                      /\ (event_type e = EVT_ESCKEY codes \/ event_type e = RIGHTMOUSE codes) ->
                      r = (OPERATOR_DONE OPERATOR_CANCELLED,
                           {| customdata := None; properties := properties st;
                              nurblist := nurblist st; curve := curve st |}))
                  /\ (~ (event_type e = init_event_type s
                         /\ event_val e = KM_RELEASE codes) ->
                      ~ (event_type e <> init_event_type s
                         /\ (event_type e = EVT_ESCKEY codes
                             \/ event_type e = RIGHTMOUSE codes)) ->
                      exists s'0,
                        r = (OPERATOR_RUNNING_MODAL,
                             {| customdata := Some s'0; properties := properties st;
                                nurblist := nurblist st; curve := curve st |})
                        /\ session_pool s `prefix_of` session_pool s'0
                        /\ (one_projection (session_cdd s) ->
                            one_projection (session_cdd s'0))
                        /\ (event_type e = init_event_type s -> s'0 = s)
                        /\ (event_type e <> init_event_type s ->
                            event_type e = LEFTMOUSE codes -> s'0 = sl)
                        /\ (event_type e <> init_event_type s ->
                            event_type e <> LEFTMOUSE codes -> s'0 = sm))
                  /\ (r.1 = OPERATOR_DONE OPERATOR_FINISHED <->
                      event_type e = init_event_type s /\ event_val e = KM_RELEASE codes)
                  /\ (r.1 = OPERATOR_DONE OPERATOR_CANCELLED <->
                      event_type e <> init_event_type s
                      /\ (event_type e = EVT_ESCKEY codes
                          \/ event_type e = RIGHTMOUSE codes))).
      { intros s' sl sm Hpre Hone Hleft Hother r0 ->. cbn [fst snd].
        split; [by intros [? _]|]. split; [intros [_ [?|?]]; done|]. split.
        { intros _ _. exists s'. split; [done|]. split; [done|]. split; [done|].
          split; [done|]. split; intros _; [exact Hleft|exact Hother]. }
        split; [split; [done|by intros [? _]]|].
        split; [done|]. intros [_ [?|?]]; done. }
      case_bool_decide as Hleft.
      * case_bool_decide as Hpress.
        -- eapply Hrun; [| | | |reflexivity]; try (by apply Hadd); done.
        -- eapply Hrun; [| | | |reflexivity]; done.
      * destruct (ISMOUSE_MOTION codes (event_type e)); cbn [andb].
        -- case_bool_decide as Hpaint; cbn [andb].
           ++ case_bool_decide as Hdist.
              ** pose proof (curve_draw_event_add_project (session_cdd s)
                               (session_pool s) (event e)) as Hp.
                 destruct (curve_draw_event_add_pool ops (session_cdd s)
                             (session_pool s) (event e)) as (substeps & Hq & _).
                 destruct (curve_draw_event_add ops (session_cdd s) (session_pool s)
                             (event e)) as [cdd pool].
                 cbn [fst snd] in Hp, Hq.
                 eapply Hrun; [| | | |reflexivity]; cbn [session_pool session_cdd];
                   try done.
                 --- rewrite Hq. by eexists.
                 --- unfold one_projection. by rewrite Hp.
              ** eapply Hrun; [| | | |reflexivity]; done.
           ++ eapply Hrun; [| | | |reflexivity]; done.
        -- eapply Hrun; [| | | |reflexivity]; done.
Qed.

End ModalMore.

Section OperatorRuns.
Import BLI CurvePaint CurvePaintOp Spec Notions Example ExampleOp.

Lemma elem_at_local (x p : R) :
  location_local (elem_at x p)
  = mul_v3_m4v3 (invert_m4_m4 view_ops (object_to_world object))
      (location_world (elem_at x p)).
Proof. unfold mul_v3_m4v3. simpl. f_equal; field. Qed.

Lemma coincident_stroke_single_row_witness :
  stroke_coords true [elem_at 0 1; elem_at 0 1] 2
  = ([stroke_coords_row true (elem_at 0 1)], 1%Z).
Proof.
  destruct (coincident_stroke_single_row (curve_ops 0) props true (elem_at 0 1)
              [elem_at 0 1]) as [H _].
  - repeat constructor.
  - exact H.
Defined.

Lemma stroke_operator_round_trip_witness :
  curve_draw_stroke_from_operator (session CU_BEZIER None)
    (stroke (props_get (curve_draw_stroke_to_operator unset_props [elem_at 0 1])))
  = restored (world_to_object (obedit (session CU_BEZIER None))) <$> [elem_at 0 1].
Proof.
  destruct (stroke_operator_round_trip (session CU_BEZIER None) unset_props [elem_at 0 1])
    as [H _].
  - reflexivity.
  - exact H.
Defined.

Lemma curve_draw_exec_replay_witness :
  curve_draw_exec_op view_ops (curve_ops 0) (settings CU_BEZIER 0 0) object None
    (curve_draw_stroke_to_operator unset_props [elem_at 0 1; elem_at 4 1]) []
  = curve_draw_exec_op view_ops (curve_ops 0) (settings CU_BEZIER 0 0) object
      (Some (session CU_BEZIER None, [elem_at 0 1; elem_at 4 1]))
      (curve_draw_stroke_to_operator unset_props [elem_at 0 1; elem_at 4 1]) [].
Proof.
  apply (curve_draw_exec_replay view_ops (curve_ops 0) (settings CU_BEZIER 0 0) object
           (session CU_BEZIER None) [elem_at 0 1; elem_at 4 1] unset_props []).
  - reflexivity.
  - discriminate.
  - repeat split.
  - repeat constructor; apply elem_at_local.
Defined.

Lemma corner_detection_off_witness :
  corner_angle
    (props_get
       (curve_draw_exec_precalc 1 (session CU_BEZIER None) (settings CU_BEZIER 0 0)
          (settings_op false) [elem_at 0 1; elem_at 4 1] unset_props).1)
  = PI.
Proof.
  destruct (corner_detection_off (curve_ops 0) 1 (session CU_BEZIER None)
              (settings CU_BEZIER 0 0) (settings_op false) [elem_at 0 1; elem_at 4 1]
              unset_props true 2 (fun _ _ _ _ _ _ _ => Some [0%nat])) as [H _].
  - reflexivity.
  - reflexivity.
  - exact H.
Defined.

Lemma precalc_error_threshold_nonneg_witness :
  0 <= error_threshold
         (props_get
            (curve_draw_exec_precalc 1 (session CU_BEZIER None) (settings CU_BEZIER 0 0)
               (settings_op false) [elem_at 0 1; elem_at 4 1] unset_props).1).
Proof.
  destruct (precalc_error_threshold_nonneg 1 (session CU_BEZIER None)
              (settings CU_BEZIER 0 0) (settings_op false) [elem_at 0 1; elem_at 4 1]
              unset_props) as [H _].
  - simpl. lra.
  - lra.
  - apply H. reflexivity.
Defined.


Lemma curve_draw_modal_step_witness :
  let s := painting [elem_at 0 1; elem_at 4 1] in
  (curve_draw_modal view_ops (curve_ops 0) event_codes view_data 1 (settings CU_BEZIER 0 0)
     (settings_op false) object (operator_state (Some s)) s (modal_event 4 0 1 2)).1
  = OPERATOR_DONE OPERATOR_FINISHED
  /\ curve_draw_modal view_ops (curve_ops 0) event_codes view_data 1
       (settings CU_BEZIER 0 0) (settings_op false) object (operator_state (Some s)) s
       (modal_event 4 0 208 1)
     = (OPERATOR_DONE OPERATOR_CANCELLED, operator_state None).
Proof.
  intros s.
  destruct (curve_draw_modal_step view_ops (curve_ops 0) event_codes view_data 1
              (settings CU_BEZIER 0 0) (settings_op false) object (operator_state (Some s))
              s (modal_event 4 0 1 2)) as (Hrelease & _).
  destruct (curve_draw_modal_step view_ops (curve_ops 0) event_codes view_data 1
              (settings CU_BEZIER 0 0) (settings_op false) object (operator_state (Some s))
              s (modal_event 4 0 208 1)) as (_ & Hcancel & _).
  split.
  - by destruct Hrelease as [H _].
  - apply Hcancel. split; [discriminate|by left].
Defined.

End OperatorRuns.

(** ** The result of [exec] *)

Section ExecMore.
Import BLI CurvePaint Spec Notions.
Context (ops : ViewOps) (cops : CurveOps).

(** X27: [curve_draw_exec] is cancelled only when there is no session and
    the stored stroke is empty, and then the splines and the curve are as
    before.  Otherwise it finishes: the splines that were there are
    deselected and kept in order, one spline is added after them, and the
    curve has that spline as the active one and its last point as the
    active vertex, with its other settings unchanged. *)
Theorem curve_draw_exec_outcome (cps : CurvePaintSettings) (ob : Object)
    (customdata : option (CurveDrawData * list StrokeElem)) (op : DrawProps)
    (nurblist : list Nurb) :
  let r := curve_draw_exec ops cops cps ob customdata op nurblist in
  (r.1.1 = OPERATOR_CANCELLED <-> customdata = None /\ stroke op = [])
  /\ (r.1.1 = OPERATOR_CANCELLED -> r = (OPERATOR_CANCELLED, nurblist, data ob))
  /\ (r.1.1 = OPERATOR_FINISHED ->
      exists nu,
        r.1.2 = (ED_curve_deselect_all cops <$> nurblist) ++ [nu]
        /\ actnu r.2 = Z.of_nat (length nurblist)
        /\ r.1.2 !! Z.to_nat (actnu r.2) = Some nu
        /\ actvert r.2 = (pntsu nu - 1)%Z
        /\ (customdata = None ->
            cu_is_3d r.2 = cu_is_3d (data ob) /\ cu_resolu r.2 = cu_resolu (data ob)
            /\ cu_resolv r.2 = cu_resolv (data ob)
            /\ bevel_radius r.2 = bevel_radius (data ob))).
Proof.
  intros r. unfold r, curve_draw_exec.
  destruct (curve_draw_exec_session ops cps ob customdata op) as [[cdd pool]|] eqn:Es.
  - cbn [fst snd]. split; [|split; [done|]].
    + split; [done|]. intros [-> Hst]. unfold curve_draw_exec_session, curve_draw_init in Es.
      by rewrite Hst in Es.
    + intros _. eexists. split; [reflexivity|].
      cbn [actnu actvert cu_is_3d cu_resolu cu_resolv bevel_radius].
      rewrite length_app, length_fmap. cbn [length].
      split; [lia|]. split.
      { replace (Z.to_nat (Z.of_nat (length nurblist + 1) - 1)) with (length nurblist) by lia.
        rewrite lookup_app_r by (by rewrite length_fmap).
        by rewrite length_fmap, Nat.sub_diag. }
      split; [done|]. intros ->.
      unfold curve_draw_exec_session, curve_draw_init in Es.
      destruct (stroke op); [done|]. cbn in Es. by injection Es as <- _.
  - cbn [fst snd]. split; [|split; [done|done]].
    split; [|done]. intros _.
    unfold curve_draw_exec_session, curve_draw_init in Es.
    destruct customdata as [[cdd pool]|]; [done|].
    destruct (stroke op); [done|]. done.
Qed.

End ExecMore.

(** ** Volumes and point clouds under several transforms *)

Section GeometryCompose.
Import BLI GeoTransform Notions.
Context {Curves Mesh Tree : Type}.
Context (ops : GeoOps Curves Mesh Tree).

Lemma transform_volume_grids_valid (volume : list (VolumeGridData Tree))
    (transform : float4x4) (r_errors : TransformGeometryErrors) :
  Forall (fun grid =>
    BKE_volume_grid_determinant_valid ops
      (determinant ops (mul_m4 transform (grid_transform_matrix grid))) = true
    /\ set_transform_matrix_throws ops (mul_m4 transform (grid_transform_matrix grid))
       = false) volume ->
  transform_volume_grids ops transform volume r_errors
  = ((fun grid =>
        {| grid_transform_matrix := mul_m4 transform (grid_transform_matrix grid);
           grid_tree := grid_tree grid |}) <$> volume,
     r_errors).
Proof.
  induction 1 as [|g grids [Hd Ht] _ IH]; [done|].
  simpl. unfold transform_volume_grid at 1. rewrite Hd. simpl. rewrite Ht.
  by rewrite IH.
Qed.

(** X28: volume transforms compose where no grid degenerates: when the
    grids have valid determinants and accepted matrices under [A], and
    again under [B] after that, transforming the volume by [A] and then by
    [B] gives the grids and the error record of transforming it by
    [B * A]. *)
Theorem transform_volume_composes (volume : list (VolumeGridData Tree)) (A B : float4x4)
    (r_errors : TransformGeometryErrors) :
  Forall (fun grid =>
    BKE_volume_grid_determinant_valid ops
      (determinant ops (mul_m4 A (grid_transform_matrix grid))) = true
    /\ set_transform_matrix_throws ops (mul_m4 A (grid_transform_matrix grid)) = false)
    volume ->
  Forall (fun grid =>
    BKE_volume_grid_determinant_valid ops
      (determinant ops (mul_m4 B (mul_m4 A (grid_transform_matrix grid)))) = true
    /\ set_transform_matrix_throws ops (mul_m4 B (mul_m4 A (grid_transform_matrix grid)))
       = false) volume ->
  transform_volume true ops (transform_volume true ops volume A r_errors).1 B
    (transform_volume true ops volume A r_errors).2
  = transform_volume true ops volume (mul_m4 B A) r_errors.
Proof.
  intros HA HB. unfold transform_volume.
  rewrite (transform_volume_grids_valid volume A r_errors HA). cbn [fst snd].
  rewrite transform_volume_grids_valid.
  2:{ apply Forall_fmap. eapply Forall_impl; [exact HB|]. by intros g Hg. }
  rewrite transform_volume_grids_valid.
  2:{ eapply Forall_impl; [exact HB|]. intros g Hg. cbn in *.
      by rewrite <- mul_m4_assoc. }
  f_equal. rewrite <- list_fmap_compose. apply list_fmap_ext. intros i g _. cbn.
  by rewrite mul_m4_assoc.
Qed.

(** X29: for a point cloud, transforming by the translation matrix moves
    the positions as translating does, but it leaves no cached bounds,
    where [translate_pointcloud] keeps them. *)
Theorem transform_pointcloud_by_location (pointcloud : PointCloud) (translation : float3) :
  pointcloud_positions (transform_pointcloud pointcloud (from_location translation))
    = pointcloud_positions (translate_pointcloud pointcloud translation)
  /\ bounds_cache (transform_pointcloud pointcloud (from_location translation)) = None
  /\ (is_Some (bounds_cache (translate_pointcloud pointcloud translation))
      <-> is_Some (bounds_cache pointcloud)).
Proof.
  unfold transform_pointcloud, translate_pointcloud. cbn [pointcloud_positions bounds_cache].
  split; [|split; [done|]].
  - destruct (is_zero translation) eqn:Hz.
    + unfold transform_positions. rewrite <- (list_fmap_id (pointcloud_positions pointcloud)) at 2.
      apply list_fmap_ext. intros i [x y z] _. rewrite mul_v3_m4v3_from_location.
      destruct translation as [tx ty tz]. unfold is_zero in Hz. cbn in *.
      apply andb_true_iff in Hz as [Hz Hz3]. apply andb_true_iff in Hz as [Hz1 Hz2].
      apply bool_decide_eq_true_1 in Hz1, Hz2, Hz3. subst. unfold add_v3_v3. cbn.
      f_equal; ring.
    + cbn. unfold transform_positions, translate_positions. apply list_fmap_ext.
      intros i v _. apply mul_v3_m4v3_from_location.
  - destruct (is_zero translation); [done|]. cbn. by rewrite fmap_is_Some.
Qed.

End GeometryCompose.

Section GeometryComposeRuns.
Import BLI GeoTransform Notions Example ExampleOp.

Lemma ob_matrix_twice_determinant :
  det4 (mul_m4 ob_matrix (mul_m4 ob_matrix identity)) = 64.
Proof. unfold det4, det3, mul_m4, mul_m4_v4. simpl. ring. Qed.

Lemma transform_volume_composes_witness :
  transform_volume true geo_ops (transform_volume true geo_ops [grid] ob_matrix no_errors).1
    ob_matrix (transform_volume true geo_ops [grid] ob_matrix no_errors).2
  = transform_volume true geo_ops [grid] (mul_m4 ob_matrix ob_matrix) no_errors.
Proof.
  apply (transform_volume_composes geo_ops [grid] ob_matrix ob_matrix no_errors).
  - repeat constructor; simpl; rewrite ob_matrix_determinant, Rabs_pos_eq by lra.
    + apply bool_decide_eq_true_2. lra.
    + apply bool_decide_eq_false_2. lra.
  - repeat constructor; simpl; rewrite ob_matrix_twice_determinant, Rabs_pos_eq by lra.
    + apply bool_decide_eq_true_2. lra.
    + apply bool_decide_eq_false_2. lra.
Defined.

End GeometryComposeRuns.
